(** * crawl_image: the distributed HA database layer and the crawler's
      URL / download utilities, embedded in Rocq.

    Sources embedded here:
    - [src/database/distributed_ha_manager.py]  (module [HA])
    - [src/database/failover_manager.py],
      [src/database/backup_manager.py]          (module [Failover])
    - [src/crawler/core/downloader.py]          (module [Downloader])
    - [src/crawler/utils/url_parser.py]         (module [URLParser])

    Python dictionaries whose iteration order is irrelevant are finite maps
    ([gmap]); dictionaries that are iterated and sorted ([self.nodes],
    [backup_manager.databases]) are lists in insertion order.  Integers are
    [Z].  Wall-clock readings are passed in as arguments. *)

From Stdlib Require Import ZArith NArith List Ascii String Bool Lia.
From stdpp Require Import base option list gmap strings sorting.

Local Open Scope string_scope.
Local Open Scope list_scope.
Local Open Scope Z_scope.

(** ** Column values *)

(** A value held by a model attribute or a table column.  A [datetime] is
    represented by the text its [isoformat()] returns, a [dict] or [list]
    (JSON column) by the text [json.dumps] returns for it. *)
Inductive PyValue :=
| PyNone
| PyInt (n : Z)
| PyBool (b : bool)
| PyStr (s : string)
| PyDatetime (iso : string)
| PyJson (text : string).

#[global] Instance PyValue_eq_dec : EqDecision PyValue.
Proof. solve_decision. Defined.

Definition is_none (v : PyValue) : bool :=
  match v with PyNone => true | _ => false end.

(** A payload / a table row: column name to value. *)
Abbreviation Payload := (gmap string PyValue).

(** An ORM instance: [__tablename__], [__table__.columns] (by name) and the
    attribute dictionary read by [getattr(instance, name, None)]. *)
Record ModelInstance := {
  tablename : string;
  columns : list string;
  attrs : gmap string PyValue
}.

Definition getattr (m : ModelInstance) (c : string) : PyValue :=
  default PyNone (attrs m !! c).

(** [list.sort(key=...)]: a stable sort, ascending in the key.  Elements with
    equal keys keep their original relative order. *)
Fixpoint insert_by_key {A} (key : A -> Z) (x : A) (l : list A) : list A :=
  match l with
  | [] => [x]
  | y :: l' => if key x <=? key y then x :: y :: l'
               else y :: insert_by_key key x l'
  end.

Definition sort_by_key {A} (key : A -> Z) (l : list A) : list A :=
  foldr (insert_by_key key) [] l.

Module HA.

(** *** Cluster data model *)

Inductive DatabaseRole := PRIMARY | SECONDARY | STANDBY.
Inductive HealthStatus := HEALTHY | WARNING | CRITICAL | OFFLINE.

#[global] Instance DatabaseRole_eq_dec : EqDecision DatabaseRole.
Proof. solve_decision. Defined.
#[global] Instance HealthStatus_eq_dec : EqDecision HealthStatus.
Proof. solve_decision. Defined.

(** [DatabaseNode]: the fields the manager reads or writes (connection and
    server settings are left out). *)
Record DatabaseNode := {
  name : string;
  role : DatabaseRole;
  priority : Z;
  failure_threshold : Z;
  last_check : option Z;
  last_error : option string;
  health_status : HealthStatus;
  failure_count : Z
}.

Definition set_role (r : DatabaseRole) (n : DatabaseNode) : DatabaseNode :=
  {| name := name n; role := r; priority := priority n;
     failure_threshold := failure_threshold n; last_check := last_check n;
     last_error := last_error n; health_status := health_status n;
     failure_count := failure_count n |}.

Definition set_health_status (h : HealthStatus) (n : DatabaseNode) : DatabaseNode :=
  {| name := name n; role := role n; priority := priority n;
     failure_threshold := failure_threshold n; last_check := last_check n;
     last_error := last_error n; health_status := h;
     failure_count := failure_count n |}.

Definition set_failure_count (c : Z) (n : DatabaseNode) : DatabaseNode :=
  {| name := name n; role := role n; priority := priority n;
     failure_threshold := failure_threshold n; last_check := last_check n;
     last_error := last_error n; health_status := health_status n;
     failure_count := c |}.

Definition set_last_check (t : Z) (n : DatabaseNode) : DatabaseNode :=
  {| name := name n; role := role n; priority := priority n;
     failure_threshold := failure_threshold n; last_check := Some t;
     last_error := last_error n; health_status := health_status n;
     failure_count := failure_count n |}.

Inductive OpType := INSERT | UPDATE | DELETE.

#[global] Instance OpType_eq_dec : EqDecision OpType.
Proof. solve_decision. Defined.

Inductive OpStatus := pending | completed | failed.

(** [SyncOperation].  [operation_id] is the pair (milliseconds, origin
    node) the source formats into one string. *)
Record SyncOperation := {
  operation_id : Z * string;
  timestamp : Z;
  operation_type : OpType;
  table_name : string;
  data : Payload;
  source_node : string;
  target_nodes : list string;
  status : OpStatus
}.

(** A table: rows keyed by primary key [id] (the row holds the other
    columns, NULL being [PyNone] or an absent column) and the [last_value]
    of its [<table>_id_seq] sequence. *)
Record Table := {
  rows : gmap Z Payload;
  last_value : Z
}.

(** One node's database: table name to table. *)
Abbreviation Database := (gmap string Table).

(** [DistributedHAManager]: registry, elected primary, replication log,
    synchronisation settings, and the databases behind [session_makers]. *)
Record Manager := {
  nodes : list DatabaseNode;
  local_node_name : string;
  current_primary : option string;
  sync_queue : list SyncOperation;
  max_queue_size : Z;
  full_sync_interval : Z;
  last_full_sync : Z;
  sync_tables : list string;
  session_makers : gmap string Database
}.

Definition with_nodes (ns : list DatabaseNode) (m : Manager) : Manager :=
  {| nodes := ns; local_node_name := local_node_name m;
     current_primary := current_primary m; sync_queue := sync_queue m;
     max_queue_size := max_queue_size m;
     full_sync_interval := full_sync_interval m;
     last_full_sync := last_full_sync m; sync_tables := sync_tables m;
     session_makers := session_makers m |}.

Definition with_current_primary (p : option string) (m : Manager) : Manager :=
  {| nodes := nodes m; local_node_name := local_node_name m;
     current_primary := p; sync_queue := sync_queue m;
     max_queue_size := max_queue_size m;
     full_sync_interval := full_sync_interval m;
     last_full_sync := last_full_sync m; sync_tables := sync_tables m;
     session_makers := session_makers m |}.

Definition with_sync_queue (q : list SyncOperation) (m : Manager) : Manager :=
  {| nodes := nodes m; local_node_name := local_node_name m;
     current_primary := current_primary m; sync_queue := q;
     max_queue_size := max_queue_size m;
     full_sync_interval := full_sync_interval m;
     last_full_sync := last_full_sync m; sync_tables := sync_tables m;
     session_makers := session_makers m |}.

Definition with_last_full_sync (t : Z) (m : Manager) : Manager :=
  {| nodes := nodes m; local_node_name := local_node_name m;
     current_primary := current_primary m; sync_queue := sync_queue m;
     max_queue_size := max_queue_size m;
     full_sync_interval := full_sync_interval m;
     last_full_sync := t; sync_tables := sync_tables m;
     session_makers := session_makers m |}.

Definition with_session_makers (d : gmap string Database) (m : Manager) : Manager :=
  {| nodes := nodes m; local_node_name := local_node_name m;
     current_primary := current_primary m; sync_queue := sync_queue m;
     max_queue_size := max_queue_size m;
     full_sync_interval := full_sync_interval m;
     last_full_sync := last_full_sync m; sync_tables := sync_tables m;
     session_makers := d |}.

(** [self.nodes[node_name]] *)
Definition get_node (ns : list DatabaseNode) (n : string) : option DatabaseNode :=
  find (fun x => bool_decide (name x = n)) ns.

(** In-place update of the node object stored under [n]. *)
Definition update_node (n : string) (f : DatabaseNode -> DatabaseNode)
    (ns : list DatabaseNode) : list DatabaseNode :=
  map (fun x => if bool_decide (name x = n) then f x else x) ns.

(** *** Health monitoring *)

(** [_check_node_health] on one node, given the outcome of
    [_test_node_connection] (which catches every exception itself) and the
    clock reading stored in [last_check]. *)
Definition _check_node_health (probe : bool) (now : Z) (node : DatabaseNode)
  : DatabaseNode :=
  let node1 :=
    if probe then
      let n0 := set_failure_count 0 node in
      if bool_decide (health_status n0 = OFFLINE)
      then set_health_status HEALTHY n0 else n0
    else
      let n0 := set_failure_count (failure_count node + 1) node in
      if failure_threshold n0 <=? failure_count n0 then
        if bool_decide (health_status n0 <> OFFLINE)
        then set_health_status OFFLINE n0 else n0
      else if 1 <? failure_count n0 then set_health_status WARNING n0
      else n0 in
  set_last_check now node1.

(** [_is_node_healthy] on the node object. *)
Definition node_is_healthy (n : DatabaseNode) : bool :=
  bool_decide (health_status n = HEALTHY) || bool_decide (health_status n = WARNING).

(** *** Failover inside the cluster manager *)

(** The candidate list built by [_attempt_failover]. *)
Definition failover_candidates (failed_primary : string)
    (ns : list DatabaseNode) : list DatabaseNode :=
  filter (fun n => name n <> failed_primary /\ node_is_healthy n = true /\
                   (role n = SECONDARY \/ role n = STANDBY)) ns.

(** [_notify_role_change]: the local node's role is written directly, a
    remote node is told over HTTP, which changes nothing here.  [None] is the
    [KeyError] raised for a name that is not in the registry. *)
Definition _notify_role_change (node_name : string) (new_role : DatabaseRole)
    (m : Manager) : option Manager :=
  match get_node (nodes m) node_name with
  | None => None
  | Some _ =>
      Some (if bool_decide (node_name = local_node_name m)
            then with_nodes (update_node node_name (set_role new_role) (nodes m)) m
            else m)
  end.

(** [_execute_failover].  [failed_node] is [None] when [manual_failover]
    hands over an unset [current_primary].  The old primary, if it is in the
    registry, becomes secondary, the target primary, and [current_primary]
    moves; the two notifications follow.  Every [KeyError] (a target or an
    old primary that is not in the registry) is caught by the [except]
    branch, which returns [False] and leaves what has been written. *)
Definition _execute_failover (failed_node : option string) (target_node : string)
    (m : Manager) : bool * Manager :=
  let ns1 :=
    match failed_node with
    | Some p => update_node p (set_role SECONDARY) (nodes m)
    | None => nodes m
    end in
  match get_node ns1 target_node with
  | None => (false, with_nodes ns1 m)
  | Some _ =>
      let ns2 := update_node target_node (set_role PRIMARY) ns1 in
      let m2 := with_current_primary (Some target_node) (with_nodes ns2 m) in
      match _notify_role_change target_node PRIMARY m2 with
      | None => (false, m2)
      | Some m3 =>
          match failed_node ≫= fun p => _notify_role_change p SECONDARY m3 with
          | Some m4 => (true, m4)
          | None => (false, m3)
          end
      end
  end.

(** [_attempt_failover]: [None] is the bare [return] taken when
    [current_primary] is unset or empty, [Some false] the no-candidate exit
    or a failed [_execute_failover]. *)
Definition _attempt_failover (m : Manager) : option bool * Manager :=
  match current_primary m with
  | None => (None, m)
  | Some failed_primary =>
      if bool_decide (failed_primary = "") then (None, m)
      else
        match sort_by_key priority (failover_candidates failed_primary (nodes m)) with
        | [] => (Some false, m)
        | target :: _ =>
            let '(ok, m') := _execute_failover (Some failed_primary) (name target) m in
            (Some ok, m')
        end
  end.

(** *** The replication log *)

(** [add_sync_operation]: the operation is appended under the lock. *)
Definition add_sync_operation (now : Z) (ty : OpType) (table : string)
    (d : Payload) (m : Manager) : Manager :=
  let operation :=
    {| operation_id := (now * 1000, local_node_name m);
       timestamp := now;
       operation_type := ty;
       table_name := table;
       data := d;
       source_node := local_node_name m;
       target_nodes :=
         map name (filter (fun n => name n <> local_node_name m /\
                                     role n = SECONDARY) (nodes m));
       status := pending |} in
  with_sync_queue (sync_queue m ++ [operation]) m.

(** *** [DistributedHAManager._serialize_model] *)

(** The value stored under a column for a non-[None] attribute. *)
Definition serialize_value (v : PyValue) : PyValue :=
  match v with
  | PyDatetime iso => PyStr iso      (* hasattr(value, 'isoformat') *)
  | PyJson text => PyStr text        (* isinstance(value, (dict, list)) *)
  | other => other
  end.

(** One iteration of the loop over [model_instance.__table__.columns]. *)
Definition serialize_column (m : ModelInstance) (data : Payload) (c : string)
  : Payload :=
  let value := getattr m c in
  if is_none value then data else <[c := serialize_value value]> data.

Definition _serialize_model (m : ModelInstance) : Payload :=
  foldl (serialize_column m) ∅ (columns m).

(** *** Tables and the SQL statements the manager issues *)

(** [SELECT COUNT( * )] *)
Definition count (t : Table) : Z := Z.of_nat (size (rows t)).

(** [MAX] over a list of ids; [None] is SQL NULL (no rows). *)
Definition list_max (l : list Z) : option Z :=
  foldr (fun k acc => Some (match acc with None => k | Some a => Z.max k a end))
        None l.

Definition list_min (l : list Z) : option Z :=
  foldr (fun k acc => Some (match acc with None => k | Some a => Z.min k a end))
        None l.

Definition ids (t : Table) : list Z := (map_to_list (rows t)).*1.

(** [SELECT COALESCE(MAX(id), 0)] *)
Definition coalesce_max_id (t : Table) : Z := default 0 (list_max (ids t)).

(** [SELECT MIN(id), MAX(id)] *)
Definition id_range (t : Table) : option Z * option Z :=
  (list_min (ids t), list_max (ids t)).

(** [filter(Model.id > min_id).order_by(Model.id).limit(limit).all()] *)
Definition records_above_id (t : Table) (min_id limit : Z) : list (Z * Payload) :=
  take (Z.to_nat limit)
       (sort_by_key fst (filter (fun r => min_id < r.1) (map_to_list (rows t)))).

(** [SELECT id, updated_at ... ORDER BY id DESC LIMIT n] *)
Definition latest_records (n : nat) (t : Table) : list (Z * PyValue) :=
  take n (sort_by_key (fun r => - r.1)
            (map (fun r => (r.1, default PyNone (r.2 !! "updated_at")))
                 (map_to_list (rows t)))).

(** The four mapped tables the copy routines know. *)
Definition supported_table (table : string) : bool :=
  bool_decide (table ∈ ["images"; "crawl_sessions"; "categories"; "tags"]).

(** The ORM object loaded for a stored row. *)
Definition record_of_row (table : string) (r : Z * Payload) : ModelInstance :=
  {| tablename := table;
     columns := "id" :: (map_to_list r.2).*1;
     attrs := <["id" := PyInt r.1]> r.2 |}.

(** [nextval] of the table's sequence. *)
Definition nextval (t : Table) : Z * Table :=
  (last_value t + 1, {| rows := rows t; last_value := last_value t + 1 |}).

(** What a node's database answers to a statement that writes a row: whether
    the schema lets it through (UNIQUE, NOT NULL and FOREIGN KEY constraints,
    column types and lengths).  The arguments are the node, its database as
    the transaction sees it, the table and the payload of the statement.  The
    primary key is not part of the verdict: the statements deal with it
    themselves ([ON CONFLICT (id)]). *)
Definition Verdict := string -> Database -> string -> Payload -> bool.

(** What an accepted [INSERT INTO t (cols) VALUES (...) ON CONFLICT (id) DO
    UPDATE SET col = EXCLUDED.col] (for every non-id column of the payload;
    [DO NOTHING] when the payload has no other column) does to the table.  An
    absent id is drawn from the sequence; an id that is not an integer makes
    the statement fail ([None]). *)
Definition upsert (p : Payload) (t : Table) : option Table :=
  match p !! "id" with
  | Some (PyInt i) =>
      Some {| rows := <[i := base.delete "id" p ∪ default ∅ (rows t !! i)]> (rows t);
              last_value := last_value t |}
  | Some _ => None
  | None =>
      let '(i, t1) := nextval t in
      Some {| rows := <[i := p ∪ default ∅ (rows t1 !! i)]> (rows t1);
              last_value := last_value t1 |}
  end.

(** The bounds of the sequence behind an [Integer] primary key. *)
Definition sequence_min : Z := 1.
Definition sequence_max : Z := 2147483647.

(** [SELECT setval('<table>_id_seq', v)]; [None]: [v] is outside the bounds
    of the sequence and the statement raises.  A sequence is not
    transactional: what [setval] wrote stays. *)
Definition setval (v : Z) (t : Table) : option Table :=
  if (sequence_min <=? v) && (v <=? sequence_max)
  then Some {| rows := rows t; last_value := v |}
  else None.

(** [_update_sequence_after_sync]; its [except] swallows a failing
    [setval]. *)
Definition _update_sequence_after_sync (t : Table) : Table :=
  let max_id := coalesce_max_id t in
  if 0 <? max_id then default t (setval (max_id + 1) t) else t.

(** [_sync_sequence_for_insert]; its [except] swallows a failing
    [setval]. *)
Definition _sync_sequence_for_insert (record_id : Z) (t : Table) : Table :=
  let current_sequence := last_value t in
  if current_sequence <=? record_id
  then default t (setval (record_id + 1) t) else t.

(** Look up / replace a table of a node's database. *)
Definition get_table (m : Manager) (node table : string) : option Table :=
  session_makers m !! node ≫= fun db => db !! table.

Definition put_table (node table : string) (t : Table) (m : Manager) : Manager :=
  match session_makers m !! node with
  | Some db => with_session_makers (<[node := <[table := t]> db]> (session_makers m)) m
  | None => m
  end.

(** [_get_records_above_id] (own [except]: an empty list). *)
Definition _get_records_above_id (db : Database) (table : string)
    (min_id limit : Z) : list (Z * Payload) :=
  if supported_table table then
    match db !! table with
    | Some t => records_above_id t min_id limit
    | None => []
    end
  else [].

(** [_get_record_by_id] *)
Definition _get_record_by_id (db : Database) (table : string) (record_id : Z)
  : option (Z * Payload) :=
  if supported_table table then
    db !! table ≫= fun t => (fun r => (record_id, r)) <$> rows t !! record_id
  else None.

(** The ids [_sync_table_content_differences] selects: rows among the
    primary's ten newest whose (id, updated_at) pair is not among the
    target's ten newest. *)
Definition different_ids (primary_t target_t : Table) : list Z :=
  let target_records := latest_records 10 target_t in
  (filter (fun r => r ∉ target_records) (latest_records 10 primary_t)).*1.

Section Reconciliation.

(** The verdicts of the databases during the pass. *)
Variable accepts : Verdict.

(** One upsert inside a transaction on [table] of [node], whose database was
    [db] when the transaction began.  [tx] is the table as the transaction
    sees it, or [None] once a statement has failed: PostgreSQL then answers
    every further statement of the transaction with an error. *)
Definition execute_upsert (node : string) (db : Database) (table : string)
    (p : Payload) (tx : option Table) : option Table :=
  t ← tx;
  if accepts node (<[table := t]> db) table p then upsert p t else None.

(** [session.commit()] at the end of the transaction: for a transaction in
    which a statement failed, PostgreSQL turns the COMMIT into a ROLLBACK and
    reports no error. *)
Definition commit_transaction (before : Table) (tx : option Table) : Table :=
  default before tx.

(** The per-record loop shared by the two bulk copies: serialise, upsert,
    count the statements that succeeded (a failing one is logged and the loop
    goes on). *)
Definition copy_records (node : string) (db : Database) (table : string)
    (records : list (Z * Payload)) (target : Table) : Z * option Table :=
  foldl (fun '(synced_count, tx) r =>
           match execute_upsert node db table
                   (_serialize_model (record_of_row table r)) tx with
           | Some t => (synced_count + 1, Some t)
           | None => (synced_count, None)
           end) (0, Some target) records.

(** What a bulk copy does to the receiving table once the rows to copy are
    known: the loop, the commit, and the sequence update when at least one
    statement was counted. *)
Definition apply_bulk (node : string) (db : Database) (table : string)
    (records : list (Z * Payload)) (target : Table) : Z * Table :=
  match records with
  | [] => (0, target)
  | _ =>
      let '(synced_count, tx) := copy_records node db table records target in
      let t := commit_transaction target tx in
      (synced_count, if 0 <? synced_count then _update_sequence_after_sync t else t)
  end.

(** [_sync_table_missing_records]: primary to [target_node].  Every failure
    outside the per-record loop (no primary, unknown node, missing table)
    ends in the outer [except] branch, which returns 0. *)
Definition _sync_table_missing_records (table target_node : string)
    (missing_count : Z) (m : Manager) : Z * Manager :=
  match current_primary m with
  | None => (0, m)
  | Some primary =>
      match session_makers m !! primary, session_makers m !! target_node with
      | Some primary_db, Some target_db =>
          match target_db !! table with
          | Some target =>
              let max_id := coalesce_max_id target in
              if supported_table table then
                match primary_db !! table with
                | Some source =>
                    let missing_records :=
                      records_above_id source max_id missing_count in
                    let '(synced_count, t) :=
                      apply_bulk target_node target_db table missing_records target in
                    (synced_count, put_table target_node table t m)
                | None => (0, m)
                end
              else (0, m)
          | None => (0, m)
          end
      | _, _ => (0, m)
      end
  end.

(** [_sync_table_missing_records_reverse]: [source_node] to the primary. *)
Definition _sync_table_missing_records_reverse (table source_node : string)
    (missing_count : Z) (m : Manager) : Z * Manager :=
  match current_primary m with
  | None => (0, m)
  | Some primary =>
      match session_makers m !! source_node, session_makers m !! primary with
      | Some source_db, Some target_db =>
          match target_db !! table with
          | Some target =>
              let max_id := coalesce_max_id target in
              let missing_records :=
                _get_records_above_id source_db table max_id missing_count in
              let '(synced_count, t) :=
                apply_bulk primary target_db table missing_records target in
              (synced_count, put_table primary table t m)
          | None => (0, m)
          end
      | _, _ => (0, m)
      end
  end.

(** [_sync_single_record]: upsert the primary's row into the target, in a
    transaction of its own and without touching the target's sequence.  The
    statement has no [DO NOTHING] variant here: for a payload that holds
    nothing but the id it ends in [DO UPDATE SET], which PostgreSQL refuses.
    Every failure ends in the [except] branch, which returns [False]. *)
Definition _sync_single_record (table : string) (record_id : Z)
    (target_node : string) (m : Manager) : bool * Manager :=
  match current_primary m with
  | None => (false, m)
  | Some primary =>
      match session_makers m !! primary, session_makers m !! target_node with
      | Some primary_db, Some target_db =>
          match _get_record_by_id primary_db table record_id with
          | Some record =>
              let record_data := _serialize_model (record_of_row table record) in
              if bool_decide (base.delete "id" record_data = ∅) then (false, m)
              else
                match execute_upsert target_node target_db table record_data
                        (target_db !! table) with
                | Some t => (true, put_table target_node table t m)
                | None => (false, m)
                end
          | None => (false, m)
          end
      | _, _ => (false, m)
      end
  end.

(** [_sync_table_content_differences] *)
Definition _sync_table_content_differences (table target_node : string)
    (m : Manager) : Z * Manager :=
  match current_primary m with
  | None => (0, m)
  | Some primary =>
      match get_table m primary table, get_table m target_node table with
      | Some primary_t, Some target_t =>
          foldl (fun '(synced_count, m1) record_id =>
                   let '(ok, m2) := _sync_single_record table record_id target_node m1 in
                   (if ok then synced_count + 1 else synced_count, m2))
                (0, m) (different_ids primary_t target_t)
      | _, _ => (0, m)
      end
  end.

(** Which way a table is reconciled. *)
Inductive Direction :=
| PrimaryToSecondary (missing_count : Z)
| SecondaryToPrimary (missing_count : Z)
| ContentSync
| NoSync.

(** The branch [_sync_bidirectional_data] takes for one table. *)
Definition select_direction (table : string) (primary_stats secondary_stats : gmap string Z)
  : Direction :=
  match primary_stats !! table, secondary_stats !! table with
  | Some primary_count, Some secondary_count =>
      if secondary_count <? primary_count
      then PrimaryToSecondary (primary_count - secondary_count)
      else if primary_count <? secondary_count
      then SecondaryToPrimary (secondary_count - primary_count)
      else if 0 <? primary_count then ContentSync
      else NoSync
  | _, _ => NoSync
  end.

(** One iteration of the loop of [_sync_bidirectional_data]. *)
Definition sync_table (target_node : string) (primary_stats secondary_stats : gmap string Z)
    (table : string) (m : Manager) : Z * Manager :=
  match select_direction table primary_stats secondary_stats with
  | PrimaryToSecondary missing_count =>
      _sync_table_missing_records table target_node missing_count m
  | SecondaryToPrimary missing_count =>
      _sync_table_missing_records_reverse table target_node missing_count m
  | ContentSync => _sync_table_content_differences table target_node m
  | NoSync => (0, m)
  end.

(** [_sync_bidirectional_data]: the manager afterwards and [total_synced]. *)
Definition _sync_bidirectional_data (target_node : string)
    (primary_stats secondary_stats : gmap string Z) (m : Manager) : Z * Manager :=
  foldl (fun '(total_synced, m1) table =>
           let '(synced_count, m2) :=
             sync_table target_node primary_stats secondary_stats table m1 in
           (total_synced + synced_count, m2))
        (0, m) (sync_tables m).

(** *** Periodic full reconciliation *)

(** [_get_database_stats]: [None] when the node has no session maker.  The
    tables are counted one after the other in one session; a table that
    cannot be counted is reported as 0.  A mapped table is counted through
    the ORM: when it is missing the query fails, and the failure leaves the
    session's transaction aborted, so that every later query of the loop
    fails as well.  Any other table is counted by handing
    [session.execute] a plain string, which SQLAlchemy 2 refuses
    ([ArgumentError]) before anything is sent. *)
Definition _get_database_stats (m : Manager) (node : string) : option (gmap string Z) :=
  db ← session_makers m !! node;
  Some (foldl (fun '(stats, aborted) table =>
                 if supported_table table then
                   if (aborted : bool) then (<[table := 0]> stats, true)
                   else match db !! table with
                        | Some t => (<[table := count t]> stats, false)
                        | None => (<[table := 0]> stats, true)
                        end
                 else (<[table := 0]> stats, aborted))
              (∅, false) (sync_tables m)).1.

Inductive Inconsistency :=
| CountMismatch (table : string) (primary_count secondary_count : Z)
| LatestMismatch (table : string)
| IdRangeMismatch (table : string).

(** [set(a) != set(b)] on query results. *)
Definition sets_differ {A} `{EqDecision A} (a b : list A) : bool :=
  negb (bool_decide (Forall (fun x => x ∈ b) a ∧ Forall (fun x => x ∈ a) b)).

(** [_check_latest_records_consistency] (a failing query is swallowed). *)
Definition _check_latest_records_consistency (m : Manager)
    (primary_node secondary_node table : string) : option Inconsistency :=
  match get_table m primary_node table, get_table m secondary_node table with
  | Some pt, Some st =>
      if sets_differ (latest_records 5 pt) (latest_records 5 st)
      then Some (LatestMismatch table) else None
  | _, _ => None
  end.

(** [_check_id_range_consistency] *)
Definition _check_id_range_consistency (m : Manager)
    (primary_node secondary_node table : string) : option Inconsistency :=
  match get_table m primary_node table, get_table m secondary_node table with
  | Some pt, Some st =>
      if bool_decide (id_range pt = id_range st) then None
      else Some (IdRangeMismatch table)
  | _, _ => None
  end.

(** [_deep_check_data_consistency] *)
Definition _deep_check_data_consistency (m : Manager)
    (primary_node secondary_node : string)
    (primary_stats secondary_stats : gmap string Z) : list Inconsistency :=
  foldl (fun inconsistencies table =>
           let primary_count := default 0 (primary_stats !! table) in
           let secondary_count := default 0 (secondary_stats !! table) in
           if bool_decide (primary_count <> secondary_count) then
             inconsistencies ++ [CountMismatch table primary_count secondary_count]
           else
             let i1 :=
               if 0 <? primary_count
               then option_list (_check_latest_records_consistency
                                   m primary_node secondary_node table)
               else [] in
             let i2 := option_list (_check_id_range_consistency
                                      m primary_node secondary_node table) in
             inconsistencies ++ i1 ++ i2)
        [] (sync_tables m).

(** A dictionary of counts is falsy when it is [None] or empty. *)
Definition truthy_stats (s : option (gmap string Z)) : option (gmap string Z) :=
  match s with
  | Some st => if bool_decide (st = ∅) then None else Some st
  | None => None
  end.

(** The body of the loop of [_check_and_sync_data] for one secondary.
    [primary_stats] was read once, before the loop. *)
Definition check_and_sync_node (primary : string) (primary_stats : gmap string Z)
    (m : Manager) (secondary_node : string) : Manager :=
  match truthy_stats (_get_database_stats m secondary_node) with
  | None => m
  | Some secondary_stats =>
      match _deep_check_data_consistency m primary secondary_node
              primary_stats secondary_stats with
      | [] => m
      | _ => (_sync_bidirectional_data secondary_node primary_stats secondary_stats m).2
      end
  end.

(** [_check_and_sync_data] *)
Definition _check_and_sync_data (m : Manager) : Manager :=
  let secondary_nodes :=
    map name (filter (fun n => role n = SECONDARY /\ name n <> local_node_name m)
                     (nodes m)) in
  match secondary_nodes, current_primary m with
  | [], _ => m
  | _, None => m
  | _, Some primary =>
      match truthy_stats (_get_database_stats m primary) with
      | None => m
      | Some primary_stats =>
          foldl (check_and_sync_node primary primary_stats) m secondary_nodes
      end
  end.

(** One iteration of [_full_sync_loop] at clock reading [current_time]. *)
Definition _full_sync_loop (current_time : Z) (m : Manager) : Manager :=
  if full_sync_interval m <=? current_time - last_full_sync m then
    if bool_decide (current_primary m = Some (local_node_name m))
    then with_last_full_sync current_time (_check_and_sync_data m)
    else m
  else m.

End Reconciliation.

(** *** Applying one replicated operation on a peer *)

(** [session.execute(text(sql), values)], where [sql] marks its parameters
    with [%s] and [values] is the list of their values.  Under SQLAlchemy 2,
    which [install.py] requires, the call never succeeds: a list is read as a
    sequence of parameter sets, and one whose first element is neither a
    mapping nor a tuple raises [ArgumentError] before anything is sent;
    [text()] knows [:name] parameters only, so that in any other case the
    [%s] marks reach PostgreSQL as they are, which is a syntax error (as
    is the column-less INSERT of an empty payload).  [None] is the
    exception. *)
Definition execute_percent_s (values : list PyValue) (t : Table) : option Table :=
  None.

(** [_execute_insert_operation]: the upsert, then the sequence is
    synchronised when the payload carries an id; the [except] branch rolls
    back and returns [False]. *)
Definition _execute_insert_operation (d : Payload) (t : Table) : bool * Table :=
  let values := (map_to_list d).*2 in
  match execute_percent_s values t with
  | Some t1 =>
      (true, match d !! "id" with
             | Some (PyInt i) => _sync_sequence_for_insert i t1
             | _ => t1
             end)
  | None => (false, t)
  end.

(** [_execute_update_operation] *)
Definition _execute_update_operation (d : Payload) (t : Table) : bool * Table :=
  match d !! "id" with
  | None => (false, t)
  | Some record_id =>
      let update_data := base.delete "id" d in
      if bool_decide (update_data = ∅) then (true, t)
      else
        let values := (map_to_list update_data).*2 ++ [record_id] in
        match execute_percent_s values t with
        | Some t1 => (true, t1)
        | None => (false, t)
        end
  end.

(** [_execute_delete_operation] *)
Definition _execute_delete_operation (d : Payload) (t : Table) : bool * Table :=
  match d !! "id" with
  | None => (false, t)
  | Some record_id =>
      match execute_percent_s [record_id] t with
      | Some t1 => (true, t1)
      | None => (false, t)
      end
  end.

(** [_execute_sync_operation_on_node] *)
Definition _execute_sync_operation_on_node (o : SyncOperation) (t : Table)
  : bool * Table :=
  match operation_type o with
  | INSERT => _execute_insert_operation (data o) t
  | UPDATE => _execute_update_operation (data o) t
  | DELETE => _execute_delete_operation (data o) t
  end.

(** [_send_sync_request]: the operation is executed through a direct
    connection to [target_node]. *)
Definition _send_sync_request (target_node : string) (o : SyncOperation)
    (m : Manager) : bool * Manager :=
  match get_table m target_node (table_name o) with
  | Some t =>
      let '(ok, t') := _execute_sync_operation_on_node o t in
      (ok, put_table target_node (table_name o) t' m)
  | None => (false, m)
  end.

(** *** [AutoSyncSession] *)

Definition Exn := string.

(** The wrapped session: the unit of work staged since the last commit or
    rollback, and what has been committed on the primary. *)
Record Session := {
  staged : list (OpType * ModelInstance);
  committed : list (OpType * ModelInstance)
}.

Definition session_add (i : ModelInstance) (s : Session) : Session :=
  {| staged := staged s ++ [(INSERT, i)]; committed := committed s |}.

Definition session_delete (i : ModelInstance) (s : Session) : Session :=
  {| staged := staged s ++ [(DELETE, i)]; committed := committed s |}.

Definition session_rollback (s : Session) : Session :=
  {| staged := []; committed := committed s |}.

(** [session.commit()]; [raises] is the exception the database answers
    with, if any. *)
Definition session_commit (raises : option Exn) (s : Session) : Exn + Session :=
  match raises with
  | Some e => inl e
  | None => inr {| staged := []; committed := committed s ++ staged s |}
  end.

Record PendingOp := {
  op_type : OpType;
  op_table : string;
  op_instance : ModelInstance
}.

Record AutoSyncSession := {
  session : Session;
  _pending_operations : list PendingOp
}.

(** [hasattr(instance, 'id')] *)
Definition hasattr_id (i : ModelInstance) : bool :=
  bool_decide ("id" ∈ columns i).

Definition add (i : ModelInstance) (s : AutoSyncSession) : AutoSyncSession :=
  {| session := session_add i (session s);
     _pending_operations :=
       _pending_operations s ++
       [{| op_type := INSERT; op_table := tablename i; op_instance := i |}] |}.

Definition delete (i : ModelInstance) (s : AutoSyncSession) : AutoSyncSession :=
  {| session := session_delete i (session s);
     _pending_operations :=
       if hasattr_id i then
         _pending_operations s ++
         [{| op_type := DELETE; op_table := tablename i; op_instance := i |}]
       else _pending_operations s |}.

(** [rollback] is not defined by the wrapper: [__getattr__] hands it to the
    wrapped session. *)
Definition rollback (s : AutoSyncSession) : AutoSyncSession :=
  {| session := session_rollback (session s);
     _pending_operations := _pending_operations s |}.

(** [_sync_insert_operation]: the payload is the instance serialised when
    the operation is published.  The instance is carried here with the
    attributes it was added with; what a successful flush writes back into
    it (the id drawn from the sequence, the defaults of the server) is not
    modelled, and no statement below is about the payload of a published
    INSERT of a flushed instance. *)
Definition _sync_insert_operation (now : Z) (o : PendingOp) (m : Manager) : Manager :=
  add_sync_operation now INSERT (op_table o) (_serialize_model (op_instance o)) m.

Definition _sync_delete_operation (now : Z) (o : PendingOp) (m : Manager) : Manager :=
  if hasattr_id (op_instance o)
  then add_sync_operation now DELETE (op_table o)
         {[ "id" := getattr (op_instance o) "id" ]} m
  else m.

Definition _sync_update_operation (now : Z) (o : PendingOp) (m : Manager) : Manager :=
  add_sync_operation now UPDATE (op_table o) (_serialize_model (op_instance o)) m.

(** The loop of [_process_pending_sync_operations]; the caller clears the
    list afterwards. *)
Definition process_pending (now : Z) (ops : list PendingOp) (m : Manager) : Manager :=
  foldl (fun m o =>
           match op_type o with
           | INSERT => _sync_insert_operation now o m
           | DELETE => _sync_delete_operation now o m
           | UPDATE => _sync_update_operation now o m
           end) m ops.

(** [AutoSyncSession.commit]: the exception re-raised (if any), the session
    afterwards, and the manager afterwards. *)
Definition commit (raises : option Exn) (now : Z) (s : AutoSyncSession)
    (m : Manager) : option Exn * AutoSyncSession * Manager :=
  match session_commit raises (session s) with
  | inr s' =>
      (None, {| session := s'; _pending_operations := [] |},
       process_pending now (_pending_operations s) m)
  | inl e =>
      (Some e, {| session := session_rollback (session s);
                  _pending_operations := _pending_operations s |}, m)
  end.

(** *** Start-up election *)

(** What [_initialize_engines] meets for one node: the engine is created and
    the probe answers, the probe fails, or creating the engine raises. *)
Inductive EngineInit := Connected | Unreachable | InitError (e : string).

Definition set_last_error (e : option string) (n : DatabaseNode) : DatabaseNode :=
  {| name := name n; role := role n; priority := priority n;
     failure_threshold := failure_threshold n; last_check := last_check n;
     last_error := e; health_status := health_status n;
     failure_count := failure_count n |}.

(** [_initialize_engines], on the registry. *)
Definition _initialize_engines (init : string -> EngineInit)
    (ns : list DatabaseNode) : list DatabaseNode :=
  map (fun n => match init (name n) with
                | Connected => set_health_status HEALTHY n
                | Unreachable => set_health_status OFFLINE n
                | InitError e => set_last_error (Some e) (set_health_status OFFLINE n)
                end) ns.

(** [_promote_secondary_to_primary] (notifying the peers changes nothing
    here). *)
Definition _promote_secondary_to_primary (m : Manager) : bool * Manager :=
  match sort_by_key priority
          (filter (fun n => role n = SECONDARY /\ health_status n = HEALTHY)
                  (nodes m)) with
  | [] => (false, m)
  | target_node :: _ =>
      (true,
       with_current_primary (Some (name target_node))
         (with_nodes (update_node (name target_node) (set_role PRIMARY) (nodes m)) m))
  end.

(** [_select_primary_node] *)
Definition _select_primary_node (m : Manager) : Manager :=
  match sort_by_key priority
          (filter (fun n => role n = PRIMARY /\ health_status n = HEALTHY)
                  (nodes m)) with
  | primary :: _ => with_current_primary (Some (name primary)) m
  | [] => (_promote_secondary_to_primary m).2
  end.

(** *** The monitor *)

(** One iteration of [_monitor_loop]: every node is probed, then the primary
    is looked at.  [probe] and [clock] give, per node, the outcome of the
    connection test and the clock reading.  The result tells whether
    [_attempt_failover] was called and what it returned.  The replication
    lag check that ends the iteration only writes [replication_lag], a field
    nothing here reads. *)
Definition monitor_cycle (probe : string -> bool) (clock : string -> Z)
    (m : Manager) : option bool * Manager :=
  let m1 :=
    with_nodes (map (fun n => _check_node_health (probe (name n)) (clock (name n)) n)
                    (nodes m)) m in
  match current_primary m1 with
  | None => (None, m1)
  | Some p =>
      if bool_decide (p = "") then (None, m1)
      else match get_node (nodes m1) p with
           | Some n => if node_is_healthy n then (None, m1) else _attempt_failover m1
           | None => (None, m1)
           end
  end.

(** The monitor over a sequence of iterations. *)
Fixpoint monitor_cycles (cs : list ((string -> bool) * (string -> Z)))
    (m : Manager) : list (option bool) * Manager :=
  match cs with
  | [] => ([], m)
  | (probe, clock) :: rest =>
      let '(r, m1) := monitor_cycle probe clock m in
      let '(rs, m2) := monitor_cycles rest m1 in
      (r :: rs, m2)
  end.

(** [manual_failover]: [_execute_failover] is handed [current_primary] as
    it is, unset or equal to the target included. *)
Definition manual_failover (target_node : string) (m : Manager) : bool * Manager :=
  match get_node (nodes m) target_node with
  | None => (false, m)
  | Some n =>
      if negb (node_is_healthy n) then (false, m)
      else _execute_failover (current_primary m) target_node m
  end.

(** [_select_node_for_operation]; [choice] is the draw of [random.choice].
    The outer [None] is the [KeyError] that [_is_node_healthy] raises for a
    current primary that is not in the registry; [Some None] is the [None]
    the method returns when no node can serve the operation. *)
Definition _select_node_for_operation (choice : nat) (read_only : bool)
    (m : Manager) : option (option string) :=
  let available_nodes :=
    map name (filter (fun n => node_is_healthy n = true) (nodes m)) in
  match (if read_only
         then available_nodes !! (choice mod length available_nodes)%nat
         else None) with
  | Some n => Some (Some n)
  | None =>
      match current_primary m with
      | Some p =>
          if bool_decide (p = "") then Some None
          else match get_node (nodes m) p with
               | Some n => Some (if node_is_healthy n then Some p else None)
               | None => None
               end
      | None => Some None
      end
  end.

(** *** Draining the replication log *)

Definition set_status (s : OpStatus) (o : SyncOperation) : SyncOperation :=
  {| operation_id := operation_id o; timestamp := timestamp o;
     operation_type := operation_type o; table_name := table_name o;
     data := data o; source_node := source_node o;
     target_nodes := target_nodes o; status := s |}.

(** [_process_sync_operation] for an operation whose targets are all remote:
    every target receives the operation through [_send_sync_request], whose
    result is not looked at, and the operation is marked completed.  [None]:
    the local node is among the targets and [_apply_local_operation] would
    run, which goes through [get_session] and is outside this model. *)
Definition _process_sync_operation (o : SyncOperation) (m : Manager)
  : option (SyncOperation * Manager) :=
  if bool_decide (local_node_name m ∈ target_nodes o) then None
  else Some (set_status completed o,
             foldl (fun m1 target_node => (_send_sync_request target_node o m1).2)
                   m (target_nodes o)).

(** One iteration of [_sync_loop]: the log is copied and cleared under the
    lock, then the copies are processed in order.  The operations come back
    as they are after processing. *)
Definition _sync_loop (m : Manager) : option (list SyncOperation * Manager) :=
  foldl (fun acc o =>
           '(processed, m1) ← acc;
           '(o', m2) ← _process_sync_operation o m1;
           Some (processed ++ [o'], m2))
        (Some ([], with_sync_queue [] m)) (sync_queue m).

End HA.

Module Failover.

(** *** [DatabaseBackupManager] (the part the failover manager drives) *)

(** [DatabaseConfig]; [type] is 'primary' or 'secondary'. *)
Record DatabaseConfig := {
  name : string;
  type : string;
  priority : Z;
  is_active : bool
}.

Definition set_type (ty : string) (c : DatabaseConfig) : DatabaseConfig :=
  {| name := name c; type := ty; priority := priority c; is_active := is_active c |}.

Record BackupManager := {
  databases : list DatabaseConfig;
  current_primary : option string
}.

(** What the outside world answers during one monitor cycle:
    [connects db] is the result of [_test_database_connection db],
    [tables_ready db] whether the required tables exist on [db] after
    [_validate_target_database] tried to create the missing ones. *)
Record Env := {
  connects : string -> bool;
  tables_ready : string -> bool
}.

Definition has_database (bm : BackupManager) (db : string) : bool :=
  bool_decide (db ∈ map name (databases bm)).

(** [failover_to_database], for a current primary that is a key of
    [databases] (or unset).  For any other current primary the source raises
    [KeyError] at [self.databases[old_primary]], after [current_primary] has
    been moved; no method of the class leaves such a primary behind. *)
Definition failover_to_database (env : Env) (target_db : string)
    (bm : BackupManager) : bool * BackupManager :=
  if negb (has_database bm target_db) then (false, bm)
  else if negb (connects env target_db) then (false, bm)
  else
    let old_primary := current_primary bm in
    let dbs1 :=
      match old_primary with
      | Some old => if bool_decide (old = "") then databases bm
                    else map (fun c => if bool_decide (name c = old)
                                       then set_type "secondary" c else c)
                             (databases bm)
      | None => databases bm
      end in
    let dbs2 := map (fun c => if bool_decide (name c = target_db)
                              then set_type "primary" c else c) dbs1 in
    (true, {| databases := dbs2; current_primary := Some target_db |}).

(** *** [DatabaseFailoverManager] *)

Inductive FailoverStatus := NORMAL | DETECTING | SWITCHING | FAILED | COMPLETED.

#[global] Instance FailoverStatus_eq_dec : EqDecision FailoverStatus.
Proof. solve_decision. Defined.

(** [FailoverEvent] without its wall-clock fields ([timestamp],
    [duration]). *)
Record FailoverEvent := {
  source_db : string;
  target_db : string;
  reason : string;
  status : FailoverStatus;
  error_message : option string
}.

Record Manager := {
  backup_manager : BackupManager;
  auto_failover_enabled : bool;
  detection_threshold : Z;
  current_status : FailoverStatus;
  failure_counts : gmap string Z;
  failover_history : list FailoverEvent;
  max_history_size : nat
}.

Definition with_backup_manager (bm : BackupManager) (m : Manager) : Manager :=
  {| backup_manager := bm; auto_failover_enabled := auto_failover_enabled m;
     detection_threshold := detection_threshold m;
     current_status := current_status m; failure_counts := failure_counts m;
     failover_history := failover_history m;
     max_history_size := max_history_size m |}.

Definition with_current_status (s : FailoverStatus) (m : Manager) : Manager :=
  {| backup_manager := backup_manager m;
     auto_failover_enabled := auto_failover_enabled m;
     detection_threshold := detection_threshold m;
     current_status := s; failure_counts := failure_counts m;
     failover_history := failover_history m;
     max_history_size := max_history_size m |}.

Definition with_failure_counts (c : gmap string Z) (m : Manager) : Manager :=
  {| backup_manager := backup_manager m;
     auto_failover_enabled := auto_failover_enabled m;
     detection_threshold := detection_threshold m;
     current_status := current_status m; failure_counts := c;
     failover_history := failover_history m;
     max_history_size := max_history_size m |}.

Definition with_failover_history (h : list FailoverEvent) (m : Manager) : Manager :=
  {| backup_manager := backup_manager m;
     auto_failover_enabled := auto_failover_enabled m;
     detection_threshold := detection_threshold m;
     current_status := current_status m; failure_counts := failure_counts m;
     failover_history := h;
     max_history_size := max_history_size m |}.

(** [l[-n:]] *)
Definition last_slice {A} (n : nat) (l : list A) : list A :=
  match n with
  | O => l
  | _ => drop (length l - n)%nat l
  end.

(** [_record_failover_event] *)
Definition _record_failover_event (src tgt rsn : string) (st : FailoverStatus)
    (err : option string) (m : Manager) : Manager :=
  let event := {| source_db := src; target_db := tgt; reason := rsn;
                  status := st; error_message := err |} in
  let h := failover_history m ++ [event] in
  with_failover_history
    (if (max_history_size m <? length h)%nat
     then last_slice (max_history_size m) h else h) m.

(** The candidate list built by [_select_failover_target]. *)
Definition available_dbs (env : Env) (failed_db : string) (bm : BackupManager)
  : list DatabaseConfig :=
  filter (fun c => name c <> failed_db /\ is_active c = true /\
                   connects env (name c) = true) (databases bm).

(** [_select_failover_target] *)
Definition _select_failover_target (env : Env) (failed_db : string)
    (bm : BackupManager) : option string :=
  match sort_by_key priority (available_dbs env failed_db bm) with
  | [] => None
  | c :: _ => Some (name c)
  end.

(** [_validate_target_database] *)
Definition _validate_target_database (env : Env) (bm : BackupManager)
    (target : string) : bool :=
  has_database bm target && connects env target && tables_ready env target.

(** [execute_failover].  The best-effort data copy of the switching step
    does not touch the registry and is left out; no callback is installed.
    The [finally] clause brings the status back to [NORMAL]. *)
Definition execute_failover (env : Env) (src tgt rsn : string) (m : Manager)
  : bool * Manager :=
  if negb (_validate_target_database env (backup_manager m) tgt) then
    (false, with_current_status NORMAL
              (_record_failover_event src tgt rsn FAILED
                 (Some ("目标数据库验证失败: " ++ tgt)%string)
                 (with_current_status FAILED m)))
  else
    let '(success, bm') := failover_to_database env tgt (backup_manager m) in
    if success then
      (true, with_current_status NORMAL
               (with_failure_counts ∅
                  (_record_failover_event src tgt rsn COMPLETED None
                     (with_current_status COMPLETED
                        (with_backup_manager bm' m)))))
    else
      (false, with_current_status NORMAL
                (_record_failover_event src tgt rsn FAILED
                   (Some "数据库切换失败")
                   (with_current_status FAILED (with_backup_manager bm' m)))).

(** [_trigger_automatic_failover].  [if target_db:] also rejects the empty
    name. *)
Definition _trigger_automatic_failover (env : Env) (failed_db rsn : string)
    (m : Manager) : Manager :=
  if bool_decide (current_status m <> NORMAL) then m
  else
    match _select_failover_target env failed_db (backup_manager m) with
    | Some target_db =>
        if bool_decide (target_db = "") then
          _record_failover_event failed_db "" rsn FAILED
            (Some "没有可用的目标数据库") m
        else (execute_failover env failed_db target_db rsn m).2
    | None =>
        _record_failover_event failed_db "" rsn FAILED
          (Some "没有可用的目标数据库") m
    end.

(** [_check_primary_database].  The boolean is a ghost output: whether
    [_trigger_automatic_failover] was called. *)
Definition _check_primary_database (env : Env) (m : Manager) : bool * Manager :=
  match current_primary (backup_manager m) with
  | None => (false, m)
  | Some primary_db =>
      if bool_decide (primary_db = "") then (false, m)
      else if connects env primary_db then
        (false, with_failure_counts (<[primary_db := 0]> (failure_counts m)) m)
      else
        let c := default 0 (failure_counts m !! primary_db) + 1 in
        let m1 := with_failure_counts (<[primary_db := c]> (failure_counts m)) m in
        if detection_threshold m1 <=? c
        then (true, _trigger_automatic_failover env primary_db
                      "连续连接失败" m1)
        else (false, m1)
  end.

(** One iteration of [_monitor_loop]. *)
Definition monitor_step (env : Env) (m : Manager) : bool * Manager :=
  if auto_failover_enabled m && bool_decide (current_status m = NORMAL)
  then _check_primary_database env m
  else (false, m).

(** The monitor over a sequence of cycles; the list records, per cycle,
    whether failover was triggered. *)
Fixpoint monitor_run (envs : list Env) (m : Manager) : list bool * Manager :=
  match envs with
  | [] => ([], m)
  | env :: rest =>
      let '(fired, m1) := monitor_step env m in
      let '(flags, m2) := monitor_run rest m1 in
      (fired :: flags, m2)
  end.

(** [DatabaseBackupManager._select_primary_database]; [None] is the
    [RuntimeError] raised when no database is available. *)
Definition _select_primary_database (env : Env) (bm : BackupManager)
  : option BackupManager :=
  match sort_by_key priority
          (filter (fun c => is_active c = true /\ connects env (name c) = true)
                  (databases bm)) with
  | [] => None
  | c :: _ => Some {| databases := databases bm; current_primary := Some (name c) |}
  end.

(** [DatabaseBackupManager._attempt_failover] *)
Definition _attempt_failover (env : Env) (bm : BackupManager) : BackupManager :=
  match sort_by_key priority
          (filter (fun c => Some (name c) <> current_primary bm /\
                            is_active c = true /\ connects env (name c) = true)
                  (databases bm)) with
  | [] => bm
  | c :: _ => (failover_to_database env (name c) bm).2
  end.

(** One iteration of [DatabaseBackupManager._monitor_databases];
    [enable_auto_failover] is the setting of the failover configuration. *)
Definition _monitor_databases (env : Env) (enable_auto_failover : bool)
    (bm : BackupManager) : BackupManager :=
  match current_primary bm with
  | Some p =>
      if bool_decide (p = "") then bm
      else if connects env p then bm
      else if enable_auto_failover then _attempt_failover env bm
      else bm
  | None => bm
  end.

Definition with_auto_failover_enabled (b : bool) (m : Manager) : Manager :=
  {| backup_manager := backup_manager m; auto_failover_enabled := b;
     detection_threshold := detection_threshold m;
     current_status := current_status m; failure_counts := failure_counts m;
     failover_history := failover_history m;
     max_history_size := max_history_size m |}.

Definition with_detection_threshold (t : Z) (m : Manager) : Manager :=
  {| backup_manager := backup_manager m;
     auto_failover_enabled := auto_failover_enabled m;
     detection_threshold := t;
     current_status := current_status m; failure_counts := failure_counts m;
     failover_history := failover_history m;
     max_history_size := max_history_size m |}.

(** [manual_failover] *)
Definition manual_failover (env : Env) (target_db rsn : string) (m : Manager)
  : bool * Manager :=
  match current_primary (backup_manager m) with
  | None => (false, m)
  | Some current_primary =>
      if bool_decide (current_primary = "") then (false, m)
      else if bool_decide (current_primary = target_db) then (true, m)
      else execute_failover env current_primary target_db rsn m
  end.

(** [get_failover_history]: the events, newest first. *)
Definition get_failover_history (limit : Z) (m : Manager) : list FailoverEvent :=
  let history :=
    if 0 <? limit then last_slice (Z.to_nat limit) (failover_history m)
    else failover_history m in
  rev history.

Definition enable_auto_failover (m : Manager) : Manager :=
  with_auto_failover_enabled true m.

Definition disable_auto_failover (m : Manager) : Manager :=
  with_auto_failover_enabled false m.

(** [set_detection_threshold] *)
Definition set_detection_threshold (threshold : Z) (m : Manager) : Manager :=
  with_detection_threshold (Z.max 1 threshold) m.

(** [reset_failure_counts] *)
Definition reset_failure_counts (m : Manager) : Manager :=
  with_failure_counts ∅ m.

End Failover.

Module Downloader.

(** *** [ImageDownloader] *)

(** What [Image.open] reads from a payload. *)
Record ImageInfo := {
  width : Z;
  height : Z
}.

(** A byte payload: its length and what PIL makes of it ([None]: [Image.open]
    raises). *)
Record Content := {
  size : Z;
  image : option ImageInfo
}.

(** The files under [download_path], by path. *)
Abbreviation FS := (gmap string Content).

Inductive ValidationError :=
| FileMissing | FileEmpty | FileTooSmall | NotAnImage | ImageTooSmall.

(** [_validate_image]: the image read on success, the error otherwise. *)
Definition _validate_image (fs : FS) (file_path : string)
  : ValidationError + ImageInfo :=
  match fs !! file_path with
  | None => inl FileMissing
  | Some c =>
      if size c =? 0 then inl FileEmpty
      else if size c <? 100 then inl FileTooSmall
      else match image c with
           | None => inl NotAnImage
           | Some img =>
               if (width img <? 10) || (height img <? 10)
               then inl ImageTooSmall else inr img
           end
  end.

(** What one [session.get] attempt meets. *)
Inductive Response :=
| Ok200 (content : Content)                (* status 200, body read *)
| WriteFails (partial : Content)           (* status 200, [f.write] raises *)
| HttpStatus (status : Z)                  (* any other status *)
| Timeout
| NetworkError.

Inductive DownloadError :=
| Invalid (e : ValidationError) | Http (status : Z) | TimedOut | Failed.

Record Downloader := {
  fs : FS;
  downloaded_count : Z;
  failed_count : Z;
  total_size : Z
}.

Record Result := {
  success : bool;
  local_path : option string;
  file_size : Z;
  info : option ImageInfo;
  error : option DownloadError
}.

Definition initial_result : Result :=
  {| success := false; local_path := None; file_size := 0; info := None;
     error := None |}.

(** The file-system operations of one attempt, in order.  [attempt_write] is
    [open(local_path, 'wb')] followed by [f.write(content)]. *)
Definition attempt_write (path : string) (r : Response) (fs : FS) : FS :=
  match r with
  | Ok200 content => <[path := content]> fs
  | WriteFails partial => <[path := partial]> fs
  | _ => fs
  end.

(** The rest of the attempt: validation of the file just written, and
    [local_path.unlink(missing_ok=True)] when it is rejected.  On success
    [result.update(validation_result)] also resets the error of an earlier
    attempt. *)
Definition attempt_finish (path : string) (r : Response) (res : Result)
    (d : Downloader) : bool * Result * Downloader :=
  match r with
  | Ok200 content =>
      match _validate_image (fs d) path with
      | inr img =>
          (true,
           {| success := true; local_path := Some path; file_size := size content;
              info := Some img; error := None |},
           {| fs := fs d; downloaded_count := downloaded_count d + 1;
              failed_count := failed_count d;
              total_size := total_size d + size content |})
      | inl e =>
          (false,
           {| success := success res; local_path := local_path res;
              file_size := file_size res; info := info res;
              error := Some (Invalid e) |},
           {| fs := base.delete path (fs d); downloaded_count := downloaded_count d;
              failed_count := failed_count d; total_size := total_size d |})
      end
  | WriteFails _ | NetworkError =>
      (false, {| success := success res; local_path := local_path res;
                 file_size := file_size res; info := info res;
                 error := Some Failed |}, d)
  | HttpStatus st =>
      (false, {| success := success res; local_path := local_path res;
                 file_size := file_size res; info := info res;
                 error := Some (Http st) |}, d)
  | Timeout =>
      (false, {| success := success res; local_path := local_path res;
                 file_size := file_size res; info := info res;
                 error := Some TimedOut |}, d)
  end.

Definition with_fs (f : FS) (d : Downloader) : Downloader :=
  {| fs := f; downloaded_count := downloaded_count d;
     failed_count := failed_count d; total_size := total_size d |}.

(** One pass through the body of the retry loop; the boolean is [break]. *)
Definition attempt (path : string) (r : Response) (res : Result)
    (d : Downloader) : bool * Result * Downloader :=
  attempt_finish path r res (with_fs (attempt_write path r (fs d)) d).

(** The retry loop over the responses the attempts meet, in order. *)
Fixpoint attempts (path : string) (rs : list Response) (res : Result)
    (d : Downloader) : Result * Downloader :=
  match rs with
  | [] => (res, d)
  | r :: rest =>
      let '(done, res1, d1) := attempt path r res d in
      if done then (res1, d1) else attempts path rest res1 d1
  end.

(** [download_image] for a given file name below [download_path].  [rs]
    holds what each of the [max_retries + 1] attempts meets. *)
Definition download_image (path : string) (max_retries : nat)
    (rs : list Response) (d : Downloader) : Result * Downloader :=
  match (if bool_decide (is_Some (fs d !! path))
         then _validate_image (fs d) path else inl FileMissing) with
  | inr img =>
      ({| success := true; local_path := Some path; file_size := 0;
          info := Some img; error := None |}, d)
  | inl _ =>
      let '(res, d1) := attempts path (take (S max_retries) rs) initial_result d in
      if success res then (res, d1)
      else (res, {| fs := fs d1; downloaded_count := downloaded_count d1;
                    failed_count := failed_count d1 + 1;
                    total_size := total_size d1 |})
  end.

(** Every state of the file system one attempt goes through. *)
Definition attempt_states (path : string) (r : Response) (res : Result)
    (d : Downloader) : list FS :=
  [attempt_write path r (fs d); fs (attempt path r res d).2].

End Downloader.

Module URLParser.

(** *** Text *)

(** A Python [str] of ASCII text, as the list of its characters. *)
Definition str := list ascii.

(** A literal. *)
Definition lit (x : string) : str := list_ascii_of_string x.

Definition code (c : ascii) : N := N_of_ascii c.

(** [str.isascii] *)
Definition isascii (x : str) : bool := forallb (fun c => (code c <? 128)%N) x.

(** The characters [str.strip()] removes (ASCII white space, which for
    Python includes the separators 0x1c to 0x1f). *)
Definition isspace (c : ascii) : bool :=
  ((9 <=? code c) && (code c <=? 13) || (28 <=? code c) && (code c <=? 32))%N.

(** [_WHATWG_C0_CONTROL_OR_SPACE] *)
Definition is_c0_control_or_space (c : ascii) : bool := (code c <=? 32)%N.

(** [_UNSAFE_URL_BYTES_TO_REMOVE]: tab, carriage return, line feed. *)
Definition is_unsafe_byte (c : ascii) : bool :=
  ((code c =? 9) || (code c =? 13) || (code c =? 10))%N.

Definition isupper (c : ascii) : bool := ((65 <=? code c) && (code c <=? 90))%N.
Definition islower (c : ascii) : bool := ((97 <=? code c) && (code c <=? 122))%N.
Definition isdigit (c : ascii) : bool := ((48 <=? code c) && (code c <=? 57))%N.
Definition isalpha (c : ascii) : bool := isupper c || islower c.

(** [scheme_chars] *)
Definition is_scheme_char (c : ascii) : bool :=
  isalpha c || isdigit c ||
  Ascii.eqb c "+" || Ascii.eqb c "-" || Ascii.eqb c ".".

Definition lower_char (c : ascii) : ascii :=
  if isupper c then ascii_of_N (code c + 32) else c.

(** [str.lower] *)
Definition lower (x : str) : str := map lower_char x.

(** [str.lstrip] / [str.rstrip] over a class of characters. *)
Fixpoint lstrip (p : ascii -> bool) (x : str) : str :=
  match x with
  | c :: x' => if p c then lstrip p x' else x
  | [] => []
  end.

Definition rstrip (p : ascii -> bool) (x : str) : str :=
  rev (lstrip p (rev x)).

(** [str.strip()] *)
Definition strip (x : str) : str := rstrip isspace (lstrip isspace x).

(** [str.startswith] *)
Fixpoint startswith (pre x : str) : bool :=
  match pre, x with
  | [], _ => true
  | a :: pre', b :: x' => Ascii.eqb a b && startswith pre' x'
  | _ :: _, [] => false
  end.

(** [str.endswith] *)
Definition endswith (suf x : str) : bool := startswith (rev suf) (rev x).

(** [c in x] *)
Definition contains (c : ascii) (x : str) : bool := existsb (Ascii.eqb c) x.

(** The text before the first character of class [p], and the text from
    that character on (empty when there is none). *)
Fixpoint break (p : ascii -> bool) (x : str) : str * str :=
  match x with
  | [] => ([], [])
  | c :: x' =>
      if p c then ([], x)
      else let '(a, b) := break p x' in (c :: a, b)
  end.

(** [if c in x: a, b = x.split(c, 1)], else [(x, '')]. *)
Definition split_once (c : ascii) (x : str) : str * str :=
  match break (Ascii.eqb c) x with
  | (a, _ :: b) => (a, b)
  | (_, []) => (x, [])
  end.

(** *** [urllib.parse] (CPython 3.11) *)

Definition uses_netloc : list str :=
  map lit ["ftp"; "http"; "gopher"; "nntp"; "telnet"; "imap"; "wais"; "file";
           "mms"; "https"; "shttp"; "snews"; "prospero"; "rtsp"; "rtspu";
           "rsync"; "svn"; "svn+ssh"; "sftp"; "nfs"; "git"; "git+ssh"; "ws";
           "wss"] ++ [[]].

Definition uses_params : list str :=
  map lit ["ftp"; "hdl"; "prospero"; "http"; "imap"; "https"; "shttp"; "rtsp";
           "rtspu"; "sip"; "sips"; "mms"; "sftp"; "tel"] ++ [[]].

Definition str_in (x : str) (l : list str) : bool := bool_decide (x ∈ l).

Definition nonempty (x : str) : bool :=
  match x with [] => false | _ => true end.

(** The delimiters [_splitnetloc] looks for. *)
Definition is_netloc_delim (c : ascii) : bool :=
  Ascii.eqb c "/" || Ascii.eqb c "?" || Ascii.eqb c "#".

(** [_splitnetloc(url, 2)]: the authority ends at the earliest delimiter. *)
Definition _splitnetloc (url : str) : str * str :=
  break is_netloc_delim (drop 2 url).

Section Parse.

(** What the running interpreter makes of an authority that holds both
    brackets: whether its checks let it through.  CPython 3.11.4 and later
    (and patched earlier releases) validate the bracketed host with the
    [ipaddress] module; before, there is no such check and every such
    authority passes. *)
Variable bracketed_netloc_ok : str -> bool.

(** [urlsplit(url)] with the default arguments, on ASCII text.  [None] is
    the [ValueError] raised for an authority with only one of the two
    brackets, or with both and a bracketed part the interpreter refuses. *)
Definition urlsplit (url : str) : option (str * str * str * str * str) :=
  let url := lstrip is_c0_control_or_space url in
  let url := List.filter (fun c => negb (is_unsafe_byte c)) url in
  let '(scheme, url) :=
    match break (Ascii.eqb ":") url with
    | (c :: a, _ :: rest) =>
        if (code c <? 128)%N && isalpha c && forallb is_scheme_char (c :: a)
        then (lower (c :: a), rest) else ([], url)
    | _ => ([], url)
    end in
  let '(netloc, url) :=
    if startswith (lit "//") url then _splitnetloc url else ([], url) in
  if contains "[" netloc && negb (contains "]" netloc) ||
     contains "]" netloc && negb (contains "[" netloc) then None
  else if contains "[" netloc && contains "]" netloc &&
          negb (bracketed_netloc_ok netloc) then None
  else
    let '(url, fragment) := split_once "#" url in
    let '(url, query) := split_once "?" url in
    Some (scheme, netloc, url, query, fragment).

Record ParseResult := {
  scheme : str;
  netloc : str;
  path : str;
  params : str;
  query : str;
  fragment : str
}.

(** [_splitparams]: the parameters follow the first semicolon of the last
    path segment. *)
Definition _splitparams (url : str) : str * str :=
  if contains "/" url then
    let '(segment_rev, before_rev) := break (Ascii.eqb "/") (rev url) in
    match break (Ascii.eqb ";") (rev segment_rev) with
    | (a, _ :: b) => (rev before_rev ++ a, b)
    | (_, []) => (url, [])
    end
  else
    match break (Ascii.eqb ";") url with
    | (a, _ :: b) => (a, b)
    | (_, []) => (removelast url, url)
    end.

(** [urlparse(url)] *)
Definition urlparse (url : str) : option ParseResult :=
  '(scheme, netloc, url, query, fragment) ← urlsplit url;
  let '(url, params) :=
    if str_in scheme uses_params && contains ";" url
    then _splitparams url else (url, []) in
  Some {| scheme := scheme; netloc := netloc; path := url; params := params;
          query := query; fragment := fragment |}.

(** [urlunsplit] *)
Definition urlunsplit (scheme netloc url query fragment : str) : str :=
  let url :=
    if nonempty netloc ||
       (nonempty scheme && str_in scheme uses_netloc &&
        negb (startswith (lit "//") url))
    then lit "//" ++ netloc ++
         (if nonempty url && negb (startswith (lit "/") url)
          then lit "/" ++ url else url)
    else url in
  let url := if nonempty scheme then scheme ++ lit ":" ++ url else url in
  let url := if nonempty query then url ++ lit "?" ++ query else url in
  if nonempty fragment then url ++ lit "#" ++ fragment else url.

(** [urlunparse] *)
Definition urlunparse (p : ParseResult) : str :=
  let url := if nonempty (params p) then path p ++ lit ";" ++ params p
             else path p in
  urlunsplit (scheme p) (netloc p) url (query p) (fragment p).

(** *** [URLParser.normalize_url] *)

(** The tuple [normalize_url] hands to [urlunparse], for a non-empty
    argument. *)
Definition normalized_components (url : str) : option ParseResult :=
  let url := strip url in
  let url :=
    if negb (startswith (lit "http://") url || startswith (lit "https://") url)
    then lit "https://" ++ url else url in
  parsed ← urlparse url;
  let netloc := lower (netloc parsed) in
  let netloc :=
    if endswith (lit ":80") netloc && bool_decide (scheme parsed = lit "http")
    then take (length netloc - 3) netloc
    else if endswith (lit ":443") netloc &&
            bool_decide (scheme parsed = lit "https")
    then take (length netloc - 4) netloc
    else netloc in
  let path := if nonempty (path parsed) then path parsed else lit "/" in
  Some {| scheme := scheme parsed; netloc := netloc; path := path;
          params := params parsed; query := query parsed; fragment := [] |}.

(** [normalize_url]; [None]: [urlparse] raises, and so does the call. *)
Definition normalize_url (url : str) : option str :=
  if negb (nonempty url) then Some []
  else urlunparse <$> normalized_components url.

(** *** [URLParser.extract_domain], [URLParser.is_valid_url] *)

(** [extract_domain]; the [except] branch returns the empty string. *)
Definition extract_domain (url : str) : str :=
  match urlparse url with
  | Some parsed => lower (netloc parsed)
  | None => []
  end.

(** [is_valid_url]; the [except] branch returns [False]. *)
Definition is_valid_url (url : str) : bool :=
  if negb (nonempty url) then false
  else
    match urlparse url with
    | Some parsed =>
        (bool_decide (scheme parsed = lit "http") ||
         bool_decide (scheme parsed = lit "https")) &&
        nonempty (netloc parsed) &&
        (length url <? 2048)%nat
    | None => false
    end.

End Parse.

End URLParser.

(** * Properties *)

(** ** [list.sort(key=...)] *)

Lemma insert_by_key_length {A} (key : A -> Z) (x : A) (l : list A) :
  length (insert_by_key key x l) = S (length l).
Proof.
  induction l as [|y l IH]; cbn; [done|].
  destruct (key x <=? key y); cbn; by rewrite ?IH.
Qed.

Lemma sort_by_key_cons {A} (key : A -> Z) (x : A) (l : list A) :
  sort_by_key key (x :: l) = insert_by_key key x (sort_by_key key l).
Proof. reflexivity. Qed.

Lemma sort_by_key_length {A} (key : A -> Z) (l : list A) :
  length (sort_by_key key l) = length l.
Proof.
  induction l as [|x l IH]; [done|].
  by rewrite sort_by_key_cons, insert_by_key_length, IH.
Qed.

Lemma sort_by_key_nil {A} (key : A -> Z) (l : list A) :
  sort_by_key key l = [] -> l = [].
Proof.
  intros H. apply (f_equal length) in H. rewrite sort_by_key_length in H.
  by destruct l.
Qed.

Lemma insert_by_key_perm {A} (key : A -> Z) (x : A) (l : list A) :
  insert_by_key key x l ≡ₚ x :: l.
Proof.
  induction l as [|y l IH]; cbn; [done|].
  destruct (key x <=? key y); [done|]. rewrite IH. apply Permutation_swap.
Qed.

Lemma sort_by_key_perm {A} (key : A -> Z) (l : list A) :
  sort_by_key key l ≡ₚ l.
Proof.
  induction l as [|x l IH]; [done|].
  by rewrite sort_by_key_cons, insert_by_key_perm, IH.
Qed.

Lemma insert_by_key_sorted {A} (key : A -> Z) (x : A) (l : list A) :
  StronglySorted (fun a b => key a <= key b) l ->
  StronglySorted (fun a b => key a <= key b) (insert_by_key key x l).
Proof.
  induction 1 as [|y l Hs IH Hy]; cbn.
  - repeat constructor.
  - destruct (Z.leb_spec (key x) (key y)).
    + constructor; [by constructor|]. constructor; [done|].
      eapply Forall_impl; [exact Hy|]. cbn. intros; lia.
    + constructor; [done|]. rewrite insert_by_key_perm.
      constructor; [lia|done].
Qed.

Lemma sort_by_key_sorted {A} (key : A -> Z) (l : list A) :
  StronglySorted (fun a b => key a <= key b) (sort_by_key key l).
Proof.
  induction l as [|x l IH]; [constructor|].
  rewrite sort_by_key_cons. by apply insert_by_key_sorted.
Qed.

(** The head of the sorted list is the first element of the input whose key
    is minimal. *)
Lemma sort_by_key_head {A} (key : A -> Z) (l : list A) (h : A) (t : list A) :
  sort_by_key key l = h :: t ->
  exists l1 l2, l = l1 ++ h :: l2 /\
    (forall y, y ∈ l1 -> key h < key y) /\
    (forall y, y ∈ l2 -> key h <= key y).
Proof.
  revert h t. induction l as [|x l IH]; intros h t; [done|].
  rewrite sort_by_key_cons.
  destruct (sort_by_key key l) as [|h' t'] eqn:Hs; cbn.
  - intros [= <- <-]. apply sort_by_key_nil in Hs as ->.
    exists [], []. repeat split; intros y Hy; by apply elem_of_nil in Hy.
  - destruct (IH h' t' eq_refl) as (l1 & l2 & -> & H1 & H2).
    destruct (Z.leb_spec (key x) (key h')) as [Hle|Hlt].
    + intros [= <- <-]. exists [], (l1 ++ h' :: l2).
      repeat split; [intros y Hy; by apply elem_of_nil in Hy|].
      intros y Hy. apply elem_of_app in Hy as [Hy|Hy].
      * specialize (H1 y Hy). lia.
      * apply elem_of_cons in Hy as [->|Hy]; [done|]. specialize (H2 y Hy). lia.
    + intros [= <- <-]. exists (x :: l1), l2. repeat split; [|done].
      intros y Hy. apply elem_of_cons in Hy as [->|Hy]; [done|]. by apply H1.
Qed.

Lemma sort_by_key_head_min {A} (key : A -> Z) (l : list A) (h : A) (t : list A) :
  sort_by_key key l = h :: t ->
  h ∈ l /\ forall y, y ∈ l -> key h <= key y.
Proof.
  intros H. destruct (sort_by_key_head key l h t H) as (l1 & l2 & -> & H1 & H2).
  split; [apply elem_of_app; right; by left|].
  intros y Hy. apply elem_of_app in Hy as [Hy|Hy].
  - specialize (H1 y Hy). lia.
  - apply elem_of_cons in Hy as [->|Hy]; [done|]. by apply H2.
Qed.

(** The element of [l] with the smallest key, the first such in the order
    of [l]. *)
Definition first_least {A} (key : A -> Z) (x : A) (l : list A) : Prop :=
  exists l1 l2, l = l1 ++ x :: l2 /\
    (forall y, y ∈ l1 -> key x < key y) /\
    (forall y, y ∈ l2 -> key x <= key y).

Lemma first_least_elem {A} (key : A -> Z) (x : A) (l : list A) :
  first_least key x l -> x ∈ l /\ forall y, y ∈ l -> key x <= key y.
Proof.
  intros (l1 & l2 & -> & H1 & H2). split; [apply elem_of_app; right; by left|].
  intros y Hy. apply elem_of_app in Hy as [Hy|Hy].
  - specialize (H1 y Hy). lia.
  - apply elem_of_cons in Hy as [->|Hy]; [done|]. by apply H2.
Qed.


Module HATheory.
Import HA.

(** ** Health monitoring *)

Definition warned_node : DatabaseNode :=
  {| name := "secondary1"; role := SECONDARY; priority := 2;
     failure_threshold := 3; last_check := None; last_error := None;
     health_status := WARNING; failure_count := 2 |}.

(** A node in state [warning] that answers its probe stays [warning]: a
    successful probe does not make every node [healthy]. *)
Lemma check_node_health_success_keeps_warning :
  health_status (_check_node_health true 100 warned_node) = WARNING /\
  health_status (_check_node_health true 100 warned_node) <> HEALTHY /\
  failure_count (_check_node_health true 100 warned_node) = 0.
Proof. vm_compute. repeat split; congruence. Qed.

(** C7 (as the code has it): every health check stores the clock reading
    in [last_check] and leaves name, role, priority and threshold alone.  A
    successful probe resets the failure counter to zero and turns an
    [offline] node [healthy]; any other status is kept.  A failed probe
    increments the counter; when the counter has reached the node's
    [failure_threshold] the node is [offline], otherwise it is [warning] from
    the second consecutive failure on and unchanged on the first. *)
Theorem check_node_health_spec (probe : bool) (now : Z) (node : DatabaseNode) :
  let node' := _check_node_health probe now node in
  last_check node' = Some now /\
  name node' = name node /\ role node' = role node /\
  priority node' = priority node /\
  failure_threshold node' = failure_threshold node /\
  (probe = true ->
     failure_count node' = 0 /\
     health_status node' =
       (if bool_decide (health_status node = OFFLINE) then HEALTHY
        else health_status node)) /\
  (probe = false ->
     failure_count node' = failure_count node + 1 /\
     (failure_threshold node <= failure_count node + 1 ->
        health_status node' = OFFLINE) /\
     (failure_count node + 1 < failure_threshold node ->
        health_status node' =
          (if 1 <? failure_count node + 1 then WARNING else health_status node))).
Proof.
  destruct node as [nm rl pr th lc le hs fc].
  unfold _check_node_health; destruct probe; cbn.
  - destruct hs; cbn; repeat split; intros; done.
  - destruct (Z.leb_spec th (fc + 1)); [|destruct (Z.ltb_spec 1 (fc + 1))];
      destruct hs; cbn; repeat split; intros; try done; lia.
Qed.

(** ** The replication log *)

(** A producer's request to [add_sync_operation]. *)
Record Enqueue := {
  e_now : Z;
  e_type : OpType;
  e_table : string;
  e_data : Payload
}.

Definition enqueue (m : Manager) (e : Enqueue) : Manager :=
  add_sync_operation (e_now e) (e_type e) (e_table e) (e_data e) m.

Definition enqueue_all (es : list Enqueue) (m : Manager) : Manager :=
  foldl enqueue m es.

Definition small_cluster (bound : Z) : Manager :=
  {| nodes :=
       [ {| name := "primary"; role := PRIMARY; priority := 1;
            failure_threshold := 3; last_check := None; last_error := None;
            health_status := HEALTHY; failure_count := 0 |};
         {| name := "secondary1"; role := SECONDARY; priority := 2;
            failure_threshold := 3; last_check := None; last_error := None;
            health_status := HEALTHY; failure_count := 0 |} ];
     local_node_name := "primary";
     current_primary := Some "primary";
     sync_queue := [];
     max_queue_size := bound;
     full_sync_interval := 300;
     last_full_sync := 0;
     sync_tables := ["images"; "categories"];
     session_makers := ∅ |}.

Definition delete_of (i : Z) : Enqueue :=
  {| e_now := i; e_type := DELETE; e_table := "images";
     e_data := {[ "id" := PyInt i ]} |}.

(** With [max_queue_size = 2], three enqueues leave three operations in
    the log, the oldest one included. *)
Lemma sync_queue_exceeds_max_queue_size :
  let m := enqueue_all [delete_of 1; delete_of 2; delete_of 3] (small_cluster 2) in
  max_queue_size m = 2 /\
  length (sync_queue m) = 3%nat /\
  data <$> sync_queue m !! 0%nat = Some {[ "id" := PyInt 1 ]}.
Proof. vm_compute. done. Qed.

Lemma enqueue_all_cons (e : Enqueue) (es : list Enqueue) (m : Manager) :
  enqueue_all (e :: es) m = enqueue_all es (enqueue m e).
Proof. reflexivity. Qed.

Lemma enqueue_queue (e : Enqueue) (m : Manager) :
  exists o,
    sync_queue (enqueue m e) = sync_queue m ++ [o] /\
    (operation_type o, table_name o, data o, status o) =
      (e_type e, e_table e, e_data e, pending) /\
    max_queue_size (enqueue m e) = max_queue_size m.
Proof. eexists; repeat split. Qed.

(** C3 (as the code has it): [add_sync_operation] appends the operation at
    the tail of the log and drops nothing; [max_queue_size] is stored but not
    consulted.  After any sequence of enqueues the operations already queued
    are still there, in order, followed by one new pending operation per
    enqueue, so the length grows by exactly the number of enqueues. *)
Theorem add_sync_operation_appends (es : list Enqueue) (m : Manager) :
  exists new,
    sync_queue (enqueue_all es m) = sync_queue m ++ new /\
    length (sync_queue (enqueue_all es m)) = (length (sync_queue m) + length es)%nat /\
    map (fun o => (operation_type o, table_name o, data o, status o)) new =
      map (fun e => (e_type e, e_table e, e_data e, pending)) es /\
    max_queue_size (enqueue_all es m) = max_queue_size m.
Proof.
  revert m. induction es as [|e es IH]; intros m.
  - exists []. rewrite app_nil_r. cbn. repeat split; try done; lia.
  - destruct (IH (enqueue m e)) as (new & Hq & Hl & Hnew & Hm).
    destruct (enqueue_queue e m) as (o & Ho & Hfields & Hmq).
    rewrite enqueue_all_cons. exists (o :: new).
    rewrite Hl, Hq, Hm, Hmq, Ho, <- app_assoc. cbn [map].
    rewrite Hnew, Hfields, length_app. cbn. repeat split; try done; lia.
Qed.

(** ** The auto-sync session *)

Definition new_image : ModelInstance :=
  {| tablename := "images";
     columns := ["id"; "url"; "filename"];
     attrs := {[ "url" := PyStr "https://example.com/a.jpg";
                 "filename" := PyStr "a.jpg" ]} |}.

Definition fresh_session : AutoSyncSession :=
  {| session := {| staged := []; committed := [] |};
     _pending_operations := [] |}.

(** What [commit] does when the local commit raises: the exception comes
    back, the wrapped session is rolled back, the replication log is
    untouched, and the pending list is exactly what it was. *)
Lemma commit_failure (e : Exn) (now : Z) (s : AutoSyncSession) (m : Manager) :
  commit (Some e) now s m =
    (Some e,
     {| session := session_rollback (session s);
        _pending_operations := _pending_operations s |}, m).
Proof. reflexivity. Qed.

(** What [commit] does when the local commit succeeds: the pending list is
    cleared and the log receives what [process_pending] publishes. *)
Lemma commit_success (now : Z) (s : AutoSyncSession) (m : Manager) :
  exists s',
    commit None now s m = (None, s', process_pending now (_pending_operations s) m) /\
    _pending_operations s' = [] /\
    committed (session s') = committed (session s) ++ staged (session s).
Proof. eexists; repeat split. Qed.

(** C4 (the code at the failing input): an image is added, the commit
    raises, the caller commits again with nothing new staged.  The first
    commit re-raises the exception and rolls the session back, but the
    pending list survives it; the second commit, which commits nothing on the
    primary, publishes the INSERT of the rolled-back image to the log. *)
Theorem failed_commit_keeps_pending_operations :
  let s0 := add new_image fresh_session in
  let r1 := commit (Some "IntegrityError") 1 s0 (small_cluster 1000) in
  let r2 := commit None 2 r1.1.2 r1.2 in
  r1.1.1 = Some "IntegrityError" /\
  staged (session r1.1.2) = [] /\
  sync_queue r1.2 = [] /\
  map op_instance (_pending_operations r1.1.2) = [new_image] /\
  r2.1.1 = None /\
  committed (session r2.1.2) = [] /\
  map (fun o => (operation_type o, table_name o, data o)) (sync_queue r2.2) =
    [(INSERT, "images", _serialize_model new_image)].
Proof. vm_compute. repeat split. Qed.

(** ** Serialisation *)

Lemma serialize_value_not_none (v : PyValue) :
  v <> PyNone -> serialize_value v <> PyNone.
Proof. by destruct v. Qed.

Lemma is_none_spec (v : PyValue) : is_none v = bool_decide (v = PyNone).
Proof. by destruct v. Qed.

Lemma serialize_fold (m : ModelInstance) (cols : list string) (acc : Payload)
    (c : string) :
  foldl (serialize_column m) acc cols !! c =
    if bool_decide (c ∈ cols /\ getattr m c <> PyNone)
    then Some (serialize_value (getattr m c))
    else acc !! c.
Proof.
  revert acc. induction cols as [|c0 cols IH]; intros acc; cbn [foldl].
  - rewrite bool_decide_eq_false_2; [done|]. intros [H _]. by apply elem_of_nil in H.
  - rewrite IH. unfold serialize_column. rewrite is_none_spec.
    destruct (decide (c ∈ cols /\ getattr m c <> PyNone)) as [Hin|Hnin].
    + rewrite !bool_decide_eq_true_2; [done| |done]. split; [apply elem_of_cons; tauto | tauto].
    + rewrite (bool_decide_eq_false_2 _ Hnin).
      destruct (decide (c = c0)) as [->|Hne].
      * destruct (decide (getattr m c0 = PyNone)) as [Hn|Hn].
        -- rewrite (bool_decide_eq_true_2 _ Hn).
           rewrite bool_decide_eq_false_2; [done|]. tauto.
        -- rewrite (bool_decide_eq_false_2 _ Hn), lookup_insert_eq.
           rewrite bool_decide_eq_true_2; [done|]. split; [apply elem_of_cons; tauto|done].
      * rewrite (bool_decide_eq_false_2 (c ∈ c0 :: cols /\ _)); [|rewrite elem_of_cons; tauto].
        destruct (bool_decide (getattr m c0 = PyNone)); [done|by rewrite lookup_insert_ne].
Qed.

(** Values a payload without [None] writes over a row leave no new NULL. *)
Lemma union_no_new_null (p old : Payload) (col : string) :
  (forall c, p !! c <> Some PyNone) ->
  (p ∪ old) !! col = Some PyNone -> old !! col = Some PyNone.
Proof.
  intros Hp H. apply lookup_union_Some_raw in H as [H|[_ H]]; [|done].
  by apply Hp in H.
Qed.

(** C10: the payload [_serialize_model] builds holds exactly the columns of
    the instance whose value is not [None]; a datetime is stored as its
    ISO-8601 text, a dict or list as its JSON text, any other value as it is.
    Hence no payload entry is [None], and executing the payload as a
    replicated UPDATE or INSERT on a peer leaves a NULL in a column of a row
    only where that row already had one. *)
Theorem serialize_model_omits_none (m : ModelInstance) :
  (forall c,
     _serialize_model m !! c =
       if bool_decide (c ∈ columns m /\ getattr m c <> PyNone)
       then Some (serialize_value (getattr m c)) else None) /\
  (forall c iso, c ∈ columns m -> getattr m c = PyDatetime iso ->
     _serialize_model m !! c = Some (PyStr iso)) /\
  (forall c text, c ∈ columns m -> getattr m c = PyJson text ->
     _serialize_model m !! c = Some (PyStr text)) /\
  (forall c, _serialize_model m !! c <> Some PyNone) /\
  (forall t i r' col,
     rows (_execute_update_operation (_serialize_model m) t).2 !! i = Some r' ->
     r' !! col = Some PyNone ->
     exists r, rows t !! i = Some r /\ r !! col = Some PyNone) /\
  (forall t i r r' col,
     rows (_execute_insert_operation (_serialize_model m) t).2 !! i = Some r' ->
     rows t !! i = Some r ->
     r' !! col = Some PyNone -> r !! col = Some PyNone).
Proof.
  assert (Hlk : forall c,
     _serialize_model m !! c =
       if bool_decide (c ∈ columns m /\ getattr m c <> PyNone)
       then Some (serialize_value (getattr m c)) else None).
  { intros c. unfold _serialize_model. by rewrite serialize_fold, lookup_empty. }
  assert (Hnn : forall c, _serialize_model m !! c <> Some PyNone).
  { intros c. rewrite Hlk. case_bool_decide as H; [|done].
    intros [=Heq]. by apply (serialize_value_not_none _ (proj2 H)). }
  assert (Hdel : forall c, base.delete "id" (_serialize_model m) !! c <> Some PyNone).
  { intros c. destruct (decide ("id" = c)) as [<-|Hne].
    - by rewrite lookup_delete_eq.
    - rewrite lookup_delete_ne by done. apply Hnn. }
  split; [exact Hlk|]. split; [|split; [|split; [exact Hnn|split]]].
  - intros c iso Hc Hv. rewrite Hlk, bool_decide_eq_true_2; [by rewrite Hv|].
    split; [done|]. by rewrite Hv.
  - intros c text Hc Hv. rewrite Hlk, bool_decide_eq_true_2; [by rewrite Hv|].
    split; [done|]. by rewrite Hv.
  - intros t i r' col. unfold _execute_update_operation, execute_percent_s.
    destruct (_serialize_model m !! "id"); [case_bool_decide|]; cbn; by eauto.
  - intros t i r r' col. unfold _execute_insert_operation, execute_percent_s.
    cbn. intros H1 H2. rewrite H2 in H1. by injection H1 as <-.
Qed.

(** ** Failover in the cluster manager *)

Lemma get_node_map (f : DatabaseNode -> DatabaseNode) (ns : list DatabaseNode)
    (x : string) :
  (forall n, name (f n) = name n) ->
  get_node (map f ns) x = f <$> get_node ns x.
Proof.
  intros Hf. unfold get_node. induction ns as [|n ns IH]; [done|].
  cbn [map find]. rewrite Hf. by case_bool_decide.
Qed.

(** Writing [r] into the role of the nodes named [k], when [on] holds. *)
Definition retitle (on : bool) (k : string) (r : DatabaseRole) (n : DatabaseNode)
  : DatabaseNode :=
  if on && bool_decide (name n = k) then set_role r n else n.

Lemma retitle_name (on : bool) (k : string) (r : DatabaseRole) (n : DatabaseNode) :
  name (retitle on k r n) = name n.
Proof. unfold retitle. by destruct (_ && _). Qed.

Lemma retitle_role (on : bool) (k : string) (r : DatabaseRole) (n : DatabaseNode) :
  role (retitle on k r n) = if on && bool_decide (name n = k) then r else role n.
Proof. unfold retitle. by destruct (_ && _). Qed.

Lemma retitle_other (on : bool) (k : string) (r : DatabaseRole) (n : DatabaseNode) :
  name n <> k -> retitle on k r n = n.
Proof.
  intros Hne. unfold retitle. by rewrite (bool_decide_eq_false_2 _ Hne), andb_false_r.
Qed.

Lemma update_node_retitle (k : string) (r : DatabaseRole) (ns : list DatabaseNode) :
  update_node k (set_role r) ns = map (retitle true k r) ns.
Proof. reflexivity. Qed.

Lemma notify_role_change_spec (k : string) (r : DatabaseRole) (m : Manager)
    (n : DatabaseNode) :
  get_node (nodes m) k = Some n ->
  _notify_role_change k r m =
    Some (with_nodes
            (map (retitle (bool_decide (k = local_node_name m)) k r) (nodes m)) m).
Proof.
  intros Hk. unfold _notify_role_change. rewrite Hk. f_equal.
  case_bool_decide; [done|].
  assert (Hoff : map (retitle false k r) (nodes m) = nodes m).
  { clear. induction (nodes m) as [|a l IH]; [done|]. cbn [map]. by rewrite IH. }
  rewrite Hoff. by destruct m.
Qed.

Lemma get_node_elem (ns : list DatabaseNode) (x : DatabaseNode) :
  x ∈ ns -> is_Some (get_node ns (name x)).
Proof.
  intros Hx. unfold get_node.
  destruct (find _ ns) as [n|] eqn:Hf; [by eexists|].
  apply list_elem_of_In in Hx. apply (find_none _ _ Hf) in Hx.
  by rewrite bool_decide_eq_true_2 in Hx.
Qed.

(** What [_execute_failover] leaves behind for a target that is in the
    registry. *)
Lemma execute_failover_outcome (failed : option string) (target : string)
    (m : Manager) (n : DatabaseNode) :
  get_node (nodes m) target = Some n ->
  let '(ok, m') := _execute_failover failed target m in
  current_primary m' = Some target /\
  map name (nodes m') = map name (nodes m) /\
  (forall x, x ∈ nodes m' -> name x = target ->
     role x = if bool_decide (failed = Some target /\
                              target = local_node_name m)
              then SECONDARY else PRIMARY) /\
  (forall x, x ∈ nodes m' -> name x <> target ->
     Some (name x) = failed -> role x = SECONDARY) /\
  (forall x, x ∈ nodes m -> name x <> target ->
     Some (name x) <> failed -> x ∈ nodes m') /\
  (ok = true <->
   exists p, failed = Some p /\ is_Some (get_node (nodes m) p)).
Proof.
  intros Hn. unfold _execute_failover. cbv zeta.
  set (local := local_node_name m).
  set (g1 := match failed with
             | Some p => retitle true p SECONDARY
             | None => fun x => x
             end).
  assert (Hns1 : match failed with
                 | Some p => update_node p (set_role SECONDARY) (nodes m)
                 | None => nodes m
                 end = map g1 (nodes m)).
  { subst g1. destruct failed; [done|]. by rewrite map_id. }
  rewrite Hns1.
  assert (Hg1 : forall x, name (g1 x) = name x).
  { intros x. subst g1. destruct failed; [apply retitle_name|done]. }
  rewrite (get_node_map g1 (nodes m) target Hg1), Hn.
  cbn [fmap option_fmap option_map]. rewrite update_node_retitle, map_map.
  set (m2 := with_current_primary (Some target) (with_nodes _ m)).
  assert (Hn2 : get_node (nodes m2) target =
                Some (retitle true target PRIMARY (g1 n))).
  { subst m2. cbn [nodes with_current_primary with_nodes].
    rewrite get_node_map, Hn; [done|]. intros x. by rewrite retitle_name. }
  rewrite (notify_role_change_spec target PRIMARY m2 _ Hn2).
  change (local_node_name m2) with local.
  set (m3 := with_nodes _ m2).
  assert (Hnodes3 : nodes m3 =
            map (fun x => retitle (bool_decide (target = local)) target PRIMARY
                            (retitle true target PRIMARY (g1 x))) (nodes m)).
  { subst m3 m2. cbn [nodes with_current_primary with_nodes]. by rewrite map_map. }
  assert (Hfinal : forall G : DatabaseNode -> DatabaseNode,
            (forall x, G x = x \/ G x = set_role SECONDARY x) ->
            (forall x, name x = target -> failed = Some target ->
                       target = local -> G x = set_role SECONDARY x) ->
            (forall x, name x = target ->
                       ~ (failed = Some target /\ target = local) ->
                       G x = x) ->
            (forall x, Some (name x) <> failed -> G x = x) ->
            let ns' := map G (nodes m3) in
            map name ns' = map name (nodes m) /\
            (forall x, x ∈ ns' -> name x = target ->
               role x = if bool_decide (failed = Some target /\
                                        target = local)
                        then SECONDARY else PRIMARY) /\
            (forall x, x ∈ ns' -> name x <> target ->
               Some (name x) = failed -> role x = SECONDARY) /\
            (forall x, x ∈ nodes m -> name x <> target ->
               Some (name x) <> failed -> x ∈ ns')).
  { intros G HG Hsec Hkeep Hother. cbn zeta.
    assert (Hns' : map G (nodes m3) =
              map (fun x => G (retitle (bool_decide (target = local)) target PRIMARY
                                 (retitle true target PRIMARY (g1 x)))) (nodes m))
      by (by rewrite Hnodes3, map_map).
    rewrite Hns'. clear Hns'.
    assert (Hname : forall x,
              name (G (retitle (bool_decide (target = local)) target PRIMARY
                         (retitle true target PRIMARY (g1 x)))) = name x).
    { intros x. destruct (HG (retitle (bool_decide (target = local)) target PRIMARY
                                (retitle true target PRIMARY (g1 x)))) as [-> | ->];
        cbn [name set_role]; by rewrite !retitle_name, Hg1. }
    split; [rewrite map_map; by apply map_ext|]. split; [|split].
    - intros x Hx Hxt. apply list_elem_of_fmap in Hx as (x0 & -> & _).
      cbv beta in *. rewrite Hname in Hxt.
      set (y := retitle (bool_decide (target = local)) target PRIMARY
                  (retitle true target PRIMARY (g1 x0))).
      assert (Hy : name y = target /\ role y = PRIMARY).
      { subst y. split; [by rewrite !retitle_name, Hg1|].
        rewrite !retitle_role, retitle_name, Hg1.
        rewrite (bool_decide_eq_true_2 _ Hxt). cbn [andb].
        by destruct (bool_decide (target = local)). }
      destruct Hy as [Hyn Hyr].
      destruct (decide (failed = Some target /\ target = local))
        as [[Hp Hl]|Hc].
      + rewrite bool_decide_eq_true_2 by done. by rewrite (Hsec y Hyn Hp Hl).
      + rewrite bool_decide_eq_false_2 by done. by rewrite (Hkeep y Hyn Hc).
    - intros x Hx Hxt Hxp. apply list_elem_of_fmap in Hx as (x0 & -> & _).
      cbv beta in *. rewrite Hname in Hxt, Hxp.
      set (y := retitle (bool_decide (target = local)) target PRIMARY
                  (retitle true target PRIMARY (g1 x0))).
      assert (Hy : role y = SECONDARY).
      { subst y. rewrite !retitle_role, retitle_name, Hg1.
        rewrite (bool_decide_eq_false_2 _ Hxt), !andb_false_r.
        subst g1. rewrite <- Hxp. rewrite retitle_role.
        by rewrite bool_decide_eq_true_2. }
      by destruct (HG y) as [-> | ->].
    - intros x Hx Hxt Hxp. apply list_elem_of_fmap. exists x. split; [|done].
      assert (Hg1x : g1 x = x).
      { subst g1. destruct failed as [p|]; [|done].
        apply retitle_other. congruence. }
      rewrite Hg1x, (retitle_other true target PRIMARY x Hxt).
      rewrite (retitle_other _ target PRIMARY x Hxt).
      symmetry. by apply Hother. }
  case_eq failed; [intros p Hp|intros Hp]; cbn [mbind option_bind];
    rewrite Hp in Hfinal.
  - destruct (get_node (nodes m) p) as [pn|] eqn:Hpn.
    + assert (Hp3 : is_Some (get_node (nodes m3) p)).
      { rewrite Hnodes3, get_node_map, Hpn; [by eexists|].
        intros x. by rewrite !retitle_name, Hg1. }
      destruct Hp3 as [pn3 Hp3].
      rewrite (notify_role_change_spec p SECONDARY m3 _ Hp3).
      change (local_node_name m3) with local.
      cbn [current_primary nodes with_nodes with_current_primary].
      split; [done|].
      destruct (Hfinal (retitle (bool_decide (p = local)) p SECONDARY))
        as (H1 & H2 & H3 & H4).
      * intros x. unfold retitle. destruct (_ && _); [by right|by left].
      * intros x Hx [= ->] Hl. unfold retitle.
        by rewrite !bool_decide_eq_true_2.
      * intros x Hx Hnot. unfold retitle.
        destruct (decide (p = local)) as [Hpl|Hpl];
          [|by rewrite (bool_decide_eq_false_2 _ Hpl)].
        rewrite (bool_decide_eq_true_2 _ Hpl). cbn [andb].
        rewrite bool_decide_eq_false_2; [done|].
        intros Hxp. apply Hnot. split; congruence.
      * intros x Hx. unfold retitle.
        rewrite (bool_decide_eq_false_2 (name x = p)), andb_false_r; [done|].
        congruence.
      * split; [exact H1|]. split; [exact H2|]. split; [exact H3|].
        split; [exact H4|]. split; [|done]. intros _. exists p. split; [done|].
        by eexists.
    + assert (Hp3 : get_node (nodes m3) p = None).
      { rewrite Hnodes3, get_node_map, Hpn; [done|].
        intros x. by rewrite !retitle_name, Hg1. }
      unfold _notify_role_change at 1. rewrite Hp3.
      split; [done|].
      destruct (Hfinal (fun x => x)) as (H1 & H2 & H3 & H4); try (by intros; left);
        try done.
      * intros x Hx [= ->] _. unfold get_node in Hn, Hpn.
        by rewrite Hn in Hpn.
      * rewrite map_id in *. split; [exact H1|]. split; [exact H2|].
        split; [exact H3|]. split; [exact H4|]. split; [done|].
        intros (q & [= <-] & [? ?]). congruence.
  - split; [done|].
    destruct (Hfinal (fun x => x)) as (H1 & H2 & H3 & H4); try (by intros; left);
      try done.
    rewrite map_id in *. split; [exact H1|]. split; [exact H2|].
    split; [exact H3|]. split; [exact H4|]. split; [done|].
    by intros (q & Hq & _).
Qed.

End HATheory.

Module FailoverTheory.
Import Failover.

Lemma last_slice_snoc {A} (n : nat) (l : list A) (e : A) :
  last (last_slice n (l ++ [e])) = Some e.
Proof.
  destruct n as [|n]; cbn [last_slice]; [by rewrite last_snoc|].
  rewrite length_app. cbn [length].
  destruct (decide (length l + 1 - S n <= length l)%nat) as [Hle|Hgt]; [|lia].
  rewrite drop_app_le by done. by rewrite last_snoc.
Qed.

Lemma record_event_last (src tgt rsn : string) (st : FailoverStatus)
    (err : option string) (m : Manager) :
  let m' := _record_failover_event src tgt rsn st err m in
  last (failover_history m') =
    Some {| source_db := src; target_db := tgt; reason := rsn; status := st;
            error_message := err |} /\
  backup_manager m' = backup_manager m /\
  failure_counts m' = failure_counts m /\
  current_status m' = current_status m.
Proof.
  cbn. repeat split. unfold _record_failover_event, with_failover_history; cbn [failover_history].
  case_match; [apply last_slice_snoc | by rewrite last_snoc].
Qed.


(** ** Target selection *)

Lemma ha_candidates_spec (p : string) (ns : list HA.DatabaseNode) (c : HA.DatabaseNode) :
  c ∈ HA.failover_candidates p ns <->
  c ∈ ns /\ HA.name c <> p /\
  (HA.health_status c = HA.HEALTHY \/ HA.health_status c = HA.WARNING) /\
  (HA.role c = HA.SECONDARY \/ HA.role c = HA.STANDBY).
Proof.
  unfold HA.failover_candidates. rewrite list_elem_of_filter.
  unfold HA.node_is_healthy. rewrite orb_true_iff, !bool_decide_eq_true. tauto.
Qed.

Lemma available_dbs_spec (env : Env) (failed : string) (bm : BackupManager)
    (c : DatabaseConfig) :
  c ∈ available_dbs env failed bm <->
  c ∈ databases bm /\ name c <> failed /\ is_active c = true /\
  connects env (name c) = true.
Proof. unfold available_dbs. rewrite list_elem_of_filter. tauto. Qed.

(** The primary was unreachable when the process started, so the
    second-priority database was elected; now that one fails. *)
Definition survivor_cluster : Manager :=
  {| backup_manager :=
       {| databases :=
            [ {| name := "db_a"; type := "primary"; priority := 1; is_active := true |};
              {| name := "db_b"; type := "secondary"; priority := 2; is_active := true |};
              {| name := "db_c"; type := "secondary"; priority := 3; is_active := true |} ];
          current_primary := Some "db_b" |};
     auto_failover_enabled := true;
     detection_threshold := 3;
     current_status := NORMAL;
     failure_counts := ∅;
     failover_history := [];
     max_history_size := 100 |}.

Definition db_b_down : Env :=
  {| connects := fun db => negb (String.eqb db "db_b");
     tables_ready := fun _ => true |}.

(** The failover controller does not look at the role: with [db_b] failed it
    picks [db_a], whose type is 'primary', although [db_c] is the only
    database of type secondary or standby; the switch completes. *)
Lemma failover_target_ignores_role :
  let bm := backup_manager survivor_cluster in
  let m' := _trigger_automatic_failover db_b_down "db_b" "probe" survivor_cluster in
  _select_failover_target db_b_down "db_b" bm = Some "db_a" /\
  map type (filter (fun c => name c = "db_a") (databases bm)) = ["primary"] /\
  map name (filter (fun c => type c = "secondary" \/ type c = "standby")
              (available_dbs db_b_down "db_b" bm)) = ["db_c"] /\
  current_primary (backup_manager m') = Some "db_a" /\
  map status (failover_history m') = [COMPLETED].
Proof. vm_compute. done. Qed.

(** C5 (as the code has it).  Cluster manager, [_attempt_failover], for a
    current primary with a non-empty name: the candidates are the nodes other
    than the failed primary whose health is healthy or warning and whose role
    is secondary or standby; the target is the candidate of smallest
    priority, the first such in registry order.  It becomes the current
    primary with role primary, the nodes named as the failed primary get role
    secondary, every other node is as it was, and the attempt reports success
    exactly when the failed primary is in the registry.  With no candidate
    nothing changes (this class keeps no event history).
    Failover controller, [_trigger_automatic_failover] in status normal: the
    candidates are the databases other than the failed one that are active
    and answer the connection probe, whatever their type; the selected
    target is the candidate of smallest priority, the first such in registry
    order, and the trigger runs [execute_failover] towards it; with no
    candidate the registry is unchanged and a failed event for the failed
    database is the newest entry of the history. *)
Theorem failover_target_selection :
  (forall (m : HA.Manager) (p : string),
     HA.current_primary m = Some p -> p <> "" ->
     match HA.failover_candidates p (HA.nodes m) with
     | [] => HA._attempt_failover m = (Some false, m)
     | _ :: _ =>
         exists target,
           first_least HA.priority target (HA.failover_candidates p (HA.nodes m)) /\
           target ∈ HA.nodes m /\ HA.name target <> p /\
           (HA.health_status target = HA.HEALTHY \/
            HA.health_status target = HA.WARNING) /\
           (HA.role target = HA.SECONDARY \/ HA.role target = HA.STANDBY) /\
           let r := HA._attempt_failover m in
           r.1 = Some (bool_decide (is_Some (HA.get_node (HA.nodes m) p))) /\
           HA.current_primary r.2 = Some (HA.name target) /\
           map HA.name (HA.nodes r.2) = map HA.name (HA.nodes m) /\
           (forall x, x ∈ HA.nodes r.2 -> HA.name x = HA.name target ->
                      HA.role x = HA.PRIMARY) /\
           (forall x, x ∈ HA.nodes r.2 -> HA.name x = p ->
                      HA.role x = HA.SECONDARY) /\
           (forall x, x ∈ HA.nodes m -> HA.name x <> HA.name target ->
                      HA.name x <> p -> x ∈ HA.nodes r.2)
     end) /\
  (forall (env : Env) (failed rsn : string) (m : Manager),
     current_status m = NORMAL ->
     match available_dbs env failed (backup_manager m) with
     | [] =>
         let m' := _trigger_automatic_failover env failed rsn m in
         _select_failover_target env failed (backup_manager m) = None /\
         backup_manager m' = backup_manager m /\
         exists e, last (failover_history m') = Some e /\
                   status e = FAILED /\ source_db e = failed
     | _ :: _ =>
         exists target,
           first_least priority target (available_dbs env failed (backup_manager m)) /\
           target ∈ databases (backup_manager m) /\ name target <> failed /\
           is_active target = true /\ connects env (name target) = true /\
           _select_failover_target env failed (backup_manager m) =
             Some (name target) /\
           (name target <> "" ->
            _trigger_automatic_failover env failed rsn m =
              (execute_failover env failed (name target) rsn m).2)
     end).
Proof.
  split.
  - intros m p Hp Hne. unfold HA._attempt_failover.
    rewrite Hp, (bool_decide_eq_false_2 _ Hne).
    destruct (HA.failover_candidates p (HA.nodes m)) as [|c0 cs] eqn:Hc; [done|].
    destruct (sort_by_key HA.priority (c0 :: cs)) as [|t ts] eqn:Hs.
    { by apply sort_by_key_nil in Hs. }
    pose proof (sort_by_key_head _ _ _ _ Hs) as Hfl.
    destruct (first_least_elem _ _ _ Hfl) as [Hin _].
    rewrite <- Hc in Hin. apply ha_candidates_spec in Hin as (Hin & Hnp & Hh & Hr).
    destruct (HATheory.get_node_elem _ _ Hin) as [n Hn].
    pose proof (HATheory.execute_failover_outcome (Some p) (HA.name t) m n Hn) as Hout.
    destruct (HA._execute_failover (Some p) (HA.name t) m) as [ok m'].
    destruct Hout as (Hcur & Hnames & Htgt & Hold & Hrest & Hok).
    exists t. split; [exact Hfl|]. do 4 (split; [done|]). cbn.
    split; [|split; [done|split; [done|split; [|split]]]].
    + f_equal. destruct ok.
      * symmetry. apply bool_decide_eq_true_2.
        destruct (proj1 Hok eq_refl) as (q & [= <-] & Hq). done.
      * symmetry. apply bool_decide_eq_false_2. intros Hq.
        assert (false = true); [|done]. apply Hok. by exists p.
    + intros x Hx Hxt. rewrite (Htgt x Hx Hxt).
      rewrite bool_decide_eq_false_2; [done|]. intros [[= Heq] _]. done.
    + intros x Hx Hxp. apply Hold; [done|congruence|by rewrite Hxp].
    + intros x Hx Hxt Hxp. apply Hrest; [done|done|]. intros [= Heq]. done.
  - intros env failed rsn m Hst. unfold _trigger_automatic_failover, _select_failover_target.
    rewrite bool_decide_eq_false_2 by (rewrite Hst; tauto).
    destruct (available_dbs env failed (backup_manager m)) as [|c0 cs] eqn:Hc.
    + cbn. destruct (record_event_last failed "" rsn FAILED
                       (Some "没有可用的目标数据库") m) as (Hl & Hb & _).
      split; [done|]. split; [done|]. eexists; split; [exact Hl|done].
    + destruct (sort_by_key priority (c0 :: cs)) as [|t ts] eqn:Hs.
      { by apply sort_by_key_nil in Hs. }
      pose proof (sort_by_key_head _ _ _ _ Hs) as Hfl.
      destruct (first_least_elem _ _ _ Hfl) as [Hin _].
      rewrite <- Hc in Hin. apply available_dbs_spec in Hin as (? & ? & ? & ?).
      exists t. split; [exact Hfl|]. repeat split; try done.
      intros Hne. by rewrite bool_decide_eq_false_2.
Qed.

(** The theorem at two clusters: in the cluster manager [secondary1] takes
    over from the failed [primary]; in the failover controller [db_a]
    replaces the failed [db_b]. *)
Lemma failover_target_selection_witness :
  (HA.current_primary (HATheory.small_cluster 1000) = Some "primary" /\
   exists target,
     first_least HA.priority target
       (HA.failover_candidates "primary" (HA.nodes (HATheory.small_cluster 1000))) /\
     HA.name target = "secondary1" /\
     let r := HA._attempt_failover (HATheory.small_cluster 1000) in
     r.1 = Some true /\ HA.current_primary r.2 = Some (HA.name target)) /\
  (current_status survivor_cluster = NORMAL /\
   exists target,
     first_least priority target
       (available_dbs db_b_down "db_b" (backup_manager survivor_cluster)) /\
     name target = "db_a" /\
     _select_failover_target db_b_down "db_b" (backup_manager survivor_cluster) =
       Some (name target)).
Proof.
  split.
  - split; [reflexivity|].
    assert (Hne : "primary" <> "") by discriminate.
    destruct (proj1 failover_target_selection (HATheory.small_cluster 1000)
                "primary" eq_refl Hne)
      as (target & Hfl & Hin & _ & _ & _ & Hok & Hcur & _).
    exists target. split; [exact Hfl|]. split; [|split; [exact Hok|exact Hcur]].
    clear Hok.
    vm_compute in Hcur. injection Hcur as Hcur. symmetry. exact Hcur.
  - split; [reflexivity|].
    destruct (proj2 failover_target_selection db_b_down "db_b" "probe"
                survivor_cluster eq_refl)
      as (target & Hfl & _ & _ & _ & _ & Hsel & _).
    exists target. split; [exact Hfl|]. split; [|exact Hsel].
    vm_compute in Hsel. injection Hsel as Hsel. symmetry. exact Hsel.
Defined.


(** ** Detection threshold *)

(** [m'] is [m] with the counter of [p] at [c] and nothing else changed. *)
Definition counted (p : string) (c : Z) (m m' : Manager) : Prop :=
  backup_manager m' = backup_manager m /\
  auto_failover_enabled m' = auto_failover_enabled m /\
  detection_threshold m' = detection_threshold m /\
  current_status m' = current_status m /\
  failover_history m' = failover_history m /\
  max_history_size m' = max_history_size m /\
  failure_counts m' !! p = Some c.

(** A monitor that is switched on, idle, and watches primary [p]. *)
Definition watching (p : string) (m : Manager) : Prop :=
  auto_failover_enabled m = true /\ current_status m = NORMAL /\
  current_primary (backup_manager m) = Some p /\ p <> "".

Lemma monitor_step_failure (env : Env) (p : string) (m : Manager) :
  watching p m -> connects env p = false ->
  let c := default 0 (failure_counts m !! p) + 1 in
  if detection_threshold m <=? c
  then (monitor_step env m).1 = true
  else (monitor_step env m).1 = false /\ counted p c m (monitor_step env m).2.
Proof.
  intros (Ha & Hs & Hp & Hne) Hc. unfold monitor_step, _check_primary_database.
  rewrite Ha, Hp, Hc, (bool_decide_eq_true_2 _ Hs), (bool_decide_eq_false_2 _ Hne).
  cbn. destruct (_ <=? _); cbn; [done|].
  split; [done|]. unfold counted; cbn. by rewrite lookup_insert_eq.
Qed.

Lemma monitor_step_success (env : Env) (p : string) (m : Manager) :
  watching p m -> connects env p = true ->
  (monitor_step env m).1 = false /\ counted p 0 m (monitor_step env m).2.
Proof.
  intros (Ha & Hs & Hp & Hne) Hc. unfold monitor_step, _check_primary_database.
  rewrite Ha, Hp, Hc, (bool_decide_eq_true_2 _ Hs), (bool_decide_eq_false_2 _ Hne).
  cbn. split; [done|]. unfold counted; cbn. by rewrite lookup_insert_eq.
Qed.

Lemma counted_watching (p : string) (c : Z) (m m' : Manager) :
  counted p c m m' -> watching p m -> watching p m'.
Proof.
  intros (Hb & Ha & _ & Hs & _) (? & ? & ? & ?). unfold watching.
  by rewrite Hb, Ha, Hs.
Qed.

Lemma monitor_run_cons (env : Env) (envs : list Env) (m : Manager) :
  monitor_run (env :: envs) m =
    ((monitor_step env m).1 :: (monitor_run envs (monitor_step env m).2).1,
     (monitor_run envs (monitor_step env m).2).2).
Proof.
  cbn. destruct (monitor_step env m) as [fired m1]; cbn.
  by destruct (monitor_run envs m1).
Qed.

Lemma monitor_run_app (e1 e2 : list Env) (m : Manager) :
  monitor_run (e1 ++ e2) m =
    ((monitor_run e1 m).1 ++ (monitor_run e2 (monitor_run e1 m).2).1,
     (monitor_run e2 (monitor_run e1 m).2).2).
Proof.
  revert m. induction e1 as [|e e1 IH]; intros m.
  - cbn. by destruct (monitor_run e2 m).
  - rewrite <- app_comm_cons, !monitor_run_cons, IH. done.
Qed.

(** Below the threshold nothing fires and only the counter moves. *)
Lemma monitor_run_below (p : string) (envs : list Env) (m : Manager) :
  watching p m ->
  Forall (fun env => connects env p = false) envs ->
  envs <> [] ->
  default 0 (failure_counts m !! p) + Z.of_nat (length envs) < detection_threshold m ->
  (monitor_run envs m).1 = replicate (length envs) false /\
  counted p (default 0 (failure_counts m !! p) + Z.of_nat (length envs)) m
          (monitor_run envs m).2.
Proof.
  intros Hw Hall. revert m Hw.
  induction Hall as [|env envs Hc Hall IH]; intros m Hw Hne Hlt; [done|].
  rewrite monitor_run_cons. cbn [length replicate fst snd] in *.
  pose proof (monitor_step_failure env p m Hw Hc) as Hstep. cbn zeta in Hstep.
  destruct (Z.leb_spec (detection_threshold m)
              (default 0 (failure_counts m !! p) + 1)) as [?|_]; [lia|].
  destruct Hstep as [Hf Hcnt]. rewrite Hf.
  destruct envs as [|env2 envs2].
  - cbn. split; [done|]. by replace (_ + Z.of_nat 1) with
      (default 0 (failure_counts m !! p) + 1) by lia.
  - pose proof (counted_watching _ _ _ _ Hcnt Hw) as Hw1.
    destruct Hcnt as (Hb & Ha & Ht & Hs & Hh & Hm & Hfc).
    destruct (IH (monitor_step env m).2 Hw1 ltac:(done)) as [Hfl Hcnt2].
    { rewrite Hfc, Ht. cbn [default from_option id]. cbn [length] in *. lia. }
    rewrite Hfl. split; [done|].
    destruct Hcnt2 as (Hb2 & Ha2 & Ht2 & Hs2 & Hh2 & Hm2 & Hfc2).
    unfold counted. rewrite Hb2, Ha2, Ht2, Hs2, Hh2, Hm2, Hfc2, Hfc.
    repeat split; try done. f_equal. cbn [default from_option id length]. lia.
Qed.

(** C6: a monitor that is switched on and idle watches primary [p] with
    detection threshold [N] (at least 1, as [set_detection_threshold]
    enforces) and a failure counter at zero.  (1) Over [N] consecutive failed
    probes failover is triggered at the [N]-th probe and at none before.
    (2) Over [N - 1] failed probes followed by a successful one failover is
    never triggered, the counter is back at zero, and registry and history
    are as they were.  (3) Whenever a monitor cycle triggers failover, the
    probe of the primary failed and the counter, this failure included, has
    reached the threshold. *)
Theorem detection_threshold_gate (p : string) (m : Manager)
    (fails : list Env) (ok : Env) :
  watching p m ->
  1 <= detection_threshold m ->
  default 0 (failure_counts m !! p) = 0 ->
  Forall (fun env => connects env p = false) fails ->
  connects ok p = true ->
  (Z.of_nat (length fails) = detection_threshold m ->
     (monitor_run fails m).1 = replicate (length fails - 1) false ++ [true]) /\
  (Z.of_nat (length fails) = detection_threshold m - 1 ->
     (monitor_run (fails ++ [ok]) m).1 = replicate (length fails + 1) false /\
     counted p 0 m (monitor_run (fails ++ [ok]) m).2) /\
  (forall env m0, (monitor_step env m0).1 = true ->
     exists q, current_primary (backup_manager m0) = Some q /\
               connects env q = false /\
               detection_threshold m0 <= default 0 (failure_counts m0 !! q) + 1).
Proof.
  intros Hw HN H0 Hall Hok. split; [|split].
  - intros Hlen. induction fails as [|env init _] using rev_ind.
    { cbn in Hlen. lia. }
    apply Forall_app in Hall as [Hinit Hlast]. rewrite Forall_singleton in Hlast.
    rewrite length_app in *. cbn [length] in *.
    replace (length init + 1 - 1)%nat with (length init) by lia.
    rewrite monitor_run_app. cbn [fst]. 
    destruct init as [|e0 init0].
    + cbn [monitor_run app replicate fst snd length] in *.
      pose proof (monitor_step_failure env p m Hw Hlast) as Hstep. cbn zeta in Hstep.
      rewrite H0 in Hstep.
      destruct (Z.leb_spec (detection_threshold m) (0 + 1)) as [_|?]; [|lia].
      destruct (monitor_step env m); cbn in *. by rewrite Hstep.
    + destruct (monitor_run_below p (e0 :: init0) m Hw Hinit ltac:(done)) as [Hfl Hcnt].
      { rewrite H0. lia. }
      rewrite Hfl. f_equal.
      pose proof (counted_watching _ _ _ _ Hcnt Hw) as Hw1.
      pose proof (monitor_step_failure env p _ Hw1 Hlast) as Hstep. cbn zeta in Hstep.
      destruct Hcnt as (_ & _ & Ht & _ & _ & _ & Hfc). rewrite Hfc, Ht, H0 in Hstep.
      cbn [default from_option id] in Hstep.
      destruct (Z.leb_spec (detection_threshold m)
                  (0 + Z.of_nat (length (e0 :: init0)) + 1)) as [_|?]; [|lia].
      rewrite monitor_run_cons. cbn [fst]. by rewrite Hstep.
  - intros Hlen. rewrite monitor_run_app. cbn [fst snd].
    destruct fails as [|e0 fails0].
    + cbn [monitor_run app replicate length Nat.add fst snd].
      destruct (monitor_step_success ok p m Hw Hok) as [Hf Hcnt].
      destruct (monitor_step ok m); cbn in *. by rewrite Hf.
    + destruct (monitor_run_below p (e0 :: fails0) m Hw Hall ltac:(done)) as [Hfl Hcnt].
      { rewrite H0. lia. }
      pose proof (counted_watching _ _ _ _ Hcnt Hw) as Hw1.
      destruct (monitor_step_success ok p _ Hw1 Hok) as [Hf Hcnt2].
      rewrite Hfl, monitor_run_cons. cbn [fst snd]. rewrite Hf.
      change (monitor_run [] ?x) with (@nil bool, x). cbn [fst snd].
      split.
      * rewrite Nat.add_1_r. by rewrite replicate_S_end.
      * destruct Hcnt as (Hb & Ha & Ht & Hs & Hh & Hm & Hfc).
        destruct Hcnt2 as (Hb2 & Ha2 & Ht2 & Hs2 & Hh2 & Hm2 & Hfc2).
        unfold counted. by rewrite Hb2, Ha2, Ht2, Hs2, Hh2, Hm2, Hfc2.
  - intros env m0. unfold monitor_step, _check_primary_database.
    destruct (_ && _); [|done].
    destruct (current_primary (backup_manager m0)) as [q|]; [|done].
    case_bool_decide; [done|].
    destruct (connects env q) eqn:Hq; [done|]. cbn.
    destruct (Z.leb_spec (detection_threshold m0)
                (default 0 (failure_counts m0 !! q) + 1)); [|done].
    intros _. by exists q.
Qed.

Definition primary_down : Env :=
  {| connects := fun db => negb (String.eqb db "db_a");
     tables_ready := fun _ => true |}.

Definition all_up : Env :=
  {| connects := fun _ => true; tables_ready := fun _ => true |}.

Definition steady_cluster : Manager :=
  {| backup_manager :=
       {| databases :=
            [ {| name := "db_a"; type := "primary"; priority := 1; is_active := true |};
              {| name := "db_b"; type := "secondary"; priority := 2; is_active := true |} ];
          current_primary := Some "db_a" |};
     auto_failover_enabled := true;
     detection_threshold := 3;
     current_status := NORMAL;
     failure_counts := ∅;
     failover_history := [];
     max_history_size := 100 |}.

(** The theorem with threshold 3: three failed probes fire on the third. *)
Lemma detection_threshold_gate_witness :
  (monitor_run [primary_down; primary_down; primary_down] steady_cluster).1 =
    [false; false; true].
Proof.
  refine (proj1 (detection_threshold_gate "db_a" steady_cluster
                   [primary_down; primary_down; primary_down] all_up
                   _ _ _ _ _) _).
  - repeat split; done.
  - vm_compute; discriminate.
  - reflexivity.
  - repeat constructor.
  - reflexivity.
  - reflexivity.
Defined.

End FailoverTheory.

Module DownloaderTheory.
Import Downloader.

(** The checks of [_validate_image] on a payload. *)
Definition valid_content (c : Content) : bool :=
  negb (size c =? 0) && (100 <=? size c) &&
  match image c with
  | Some img => (10 <=? width img) && (10 <=? height img)
  | None => false
  end.

Definition not_write_failure (r : Response) : Prop :=
  match r with WriteFails _ => False | _ => True end.

Definition tiny_payload : Content := {| size := 42; image := None |}.

Definition empty_downloader : Downloader :=
  {| fs := ∅; downloaded_count := 0; failed_count := 0; total_size := 0 |}.

(** The payload is written to the final path itself: while it is being
    validated, a 42-byte body that is no image is the file at the final path,
    and no other path holds anything.  Validation then rejects it and the
    file is removed. *)
Lemma invalid_payload_is_written_to_final_path :
  let path := "downloads/a.jpg" in
  let written := attempt_write path (Ok200 tiny_payload) (fs empty_downloader) in
  written = {[ path := tiny_payload ]} /\
  _validate_image written path = inl FileTooSmall /\
  attempt_states path (Ok200 tiny_payload) initial_result empty_downloader =
    [ {[ path := tiny_payload ]}; ∅ ].
Proof. vm_compute. done. Qed.

Lemma validate_image_spec (f : FS) (path : string) (c : Content) :
  f !! path = Some c ->
  if valid_content c
  then exists img, image c = Some img /\ _validate_image f path = inr img
  else exists e, _validate_image f path = inl e.
Proof.
  intros Hf. unfold _validate_image, valid_content. rewrite Hf.
  destruct (size c =? 0); cbn; [by eexists|].
  destruct (Z.ltb_spec (size c) 100), (Z.leb_spec 100 (size c)); try lia; cbn;
    [by eexists|].
  destruct (image c) as [img|]; [|by eexists].
  destruct (Z.ltb_spec (width img) 10), (Z.leb_spec 10 (width img)); try lia; cbn;
    [by eexists|].
  destruct (Z.ltb_spec (height img) 10), (Z.leb_spec 10 (height img)); try lia; cbn;
    by eexists.
Qed.

(** One attempt that receives a complete body. *)
Lemma attempt_ok200 (path : string) (c : Content) (res : Result) (d : Downloader) :
  let '(done, res', d') := attempt path (Ok200 c) res d in
  (forall q, q <> path -> fs d' !! q = fs d !! q) /\
  if valid_content c
  then done = true /\ success res' = true /\ fs d' !! path = Some c /\
       failed_count d' = failed_count d /\
       downloaded_count d' = downloaded_count d + 1
  else done = false /\ success res' = success res /\ fs d' !! path = None /\
       failed_count d' = failed_count d /\
       downloaded_count d' = downloaded_count d /\
       exists e, error res' = Some (Invalid e).
Proof.
  unfold attempt, attempt_finish, attempt_write, with_fs; cbn [fs].
  pose proof (validate_image_spec (<[path:=c]> (fs d)) path c
                (lookup_insert_eq _ _ _)) as Hv.
  destruct (valid_content c).
  - destruct Hv as (img & _ & ->). cbn. split.
    + intros q Hq. by rewrite lookup_insert_ne.
    + by rewrite lookup_insert_eq.
  - destruct Hv as (e & ->). cbn. split.
    + intros q Hq. by rewrite lookup_delete_ne, lookup_insert_ne.
    + rewrite lookup_delete_eq. repeat split; by eauto.
Qed.

(** An attempt that receives no body leaves the files alone. *)
Lemma attempt_no_body (path : string) (r : Response) (res : Result) (d : Downloader) :
  match r with Ok200 _ | WriteFails _ => False | _ => True end ->
  let '(done, res', d') := attempt path r res d in
  done = false /\ success res' = success res /\ d' = d.
Proof. destruct r; cbn; try done; by destruct d. Qed.

Ltac no_body_case IH Hf :=
  match goal with
  | |- context [attempt ?p ?r ?s ?x] =>
      let Ha := fresh "Ha" in
      pose proof (attempt_no_body p r s x I) as Ha;
      destruct (attempt p r s x) as [[? ?res1] ?];
      destruct Ha as (-> & ? & ->);
      specialize (IH res1 x ltac:(congruence) Hf);
      destruct (attempts p _ res1 x) as [?res' ?];
      destruct IH as (? & ? & IH); repeat split; try done;
      destruct (success res'); [|done];
      destruct IH as (?c & ? & ? & ? & ?); exists c;
      repeat split; try done; by right
  end.

Lemma attempts_spec (path : string) (rs : list Response) (res : Result)
    (d : Downloader) :
  success res = false -> fs d !! path = None ->
  Forall not_write_failure rs ->
  let '(res', d') := attempts path rs res d in
  (forall q, q <> path -> fs d' !! q = fs d !! q) /\
  failed_count d' = failed_count d /\
  if success res'
  then exists c, Ok200 c ∈ rs /\ valid_content c = true /\
                 fs d' !! path = Some c /\
                 downloaded_count d' = downloaded_count d + 1
  else fs d' !! path = None /\ downloaded_count d' = downloaded_count d.
Proof.
  intros Hs Hf Hall. revert res d Hs Hf.
  induction Hall as [|r rs Hr Hall IH]; intros res d Hs Hf.
  - cbn. by rewrite Hs.
  - cbn [attempts].
    destruct r as [c| | | |]; try done.
    + pose proof (attempt_ok200 path c res d) as Ha.
      destruct (attempt path (Ok200 c) res d) as [[done res1] d1].
      destruct Ha as [Hq Ha]. destruct (valid_content c) eqn:Hv.
      * destruct Ha as (-> & Hs1 & Hp & Hfc & Hdc). rewrite Hs1.
        repeat split; try done. exists c. repeat split; try done. by left.
      * destruct Ha as (-> & Hs1 & Hp & Hfc & Hdc & _).
        specialize (IH res1 d1 ltac:(congruence) Hp).
        destruct (attempts path rs res1 d1) as [res' d'].
        destruct IH as (Hq' & Hfc' & IH). split; [|split].
        -- intros q Hne. by rewrite Hq', Hq.
        -- congruence.
        -- destruct (success res').
           ++ destruct IH as (c' & Hin & ? & ? & ?). exists c'.
              repeat split; try done; [by right|congruence].
           ++ destruct IH; split; [done|congruence].
    + no_body_case IH Hf.
    + no_body_case IH Hf.
    + no_body_case IH Hf.
Qed.

Definition good_payload : Content :=
  {| size := 2048; image := Some {| width := 640; height := 480 |} |}.

(** C8 (as the code has it): there is no temporary path; for a target that
    does not exist yet, each body received is written to the final path as it
    is and validated there (non-empty, at least 100 bytes, decodable, width
    and height at least 10), and a rejected file is unlinked.  When the
    download returns (writes that complete), no other path has changed; on
    success the final path holds a body that passed validation and the
    failure counter is unchanged; otherwise the final path holds nothing and
    the failure counter went up by one. *)
Theorem download_image_final_path (path : string) (max_retries : nat)
    (rs : list Response) (d : Downloader) :
  fs d !! path = None ->
  Forall not_write_failure (take (S max_retries) rs) ->
  let '(res, d') := download_image path max_retries rs d in
  (forall c f, attempt_write path (Ok200 c) f !! path = Some c) /\
  (forall q, q <> path -> fs d' !! q = fs d !! q) /\
  if success res
  then exists c, Ok200 c ∈ take (S max_retries) rs /\ valid_content c = true /\
                 fs d' !! path = Some c /\
                 failed_count d' = failed_count d /\
                 downloaded_count d' = downloaded_count d + 1
  else fs d' !! path = None /\ failed_count d' = failed_count d + 1 /\
       downloaded_count d' = downloaded_count d.
Proof.
  intros Hf Hall. unfold download_image.
  rewrite bool_decide_eq_false_2 by (rewrite Hf; by intros [? ?]).
  pose proof (attempts_spec path _ initial_result d eq_refl Hf Hall) as Ha.
  destruct (attempts path _ initial_result d) as [res d1].
  destruct Ha as (Hq & Hfc & Ha).
  destruct (success res) eqn:Hs; cbn; rewrite ?Hs.
  - split; [intros; apply lookup_insert_eq|]. split; [done|].
    destruct Ha as (c & ? & ? & ? & ?). by exists c.
  - split; [intros; apply lookup_insert_eq|]. split; [done|].
    destruct Ha. repeat split; [done|lia|done].
Qed.

(** The theorem at a first body that is rejected and a second that is a
    640x480 image: the image is what ends up at the final path. *)
Lemma download_image_final_path_witness :
  let path := "downloads/a.jpg" in
  let rs := [Ok200 tiny_payload; Ok200 good_payload] in
  let '(res, d') := download_image path 1 rs empty_downloader in
  (forall c f, attempt_write path (Ok200 c) f !! path = Some c) /\
  (forall q, q <> path -> fs d' !! q = fs empty_downloader !! q) /\
  if success res
  then exists c, Ok200 c ∈ take 2 rs /\ valid_content c = true /\
                 fs d' !! path = Some c /\
                 failed_count d' = failed_count empty_downloader /\
                 downloaded_count d' = downloaded_count empty_downloader + 1
  else fs d' !! path = None /\
       failed_count d' = failed_count empty_downloader + 1 /\
       downloaded_count d' = downloaded_count empty_downloader.
Proof.
  apply (download_image_final_path "downloads/a.jpg" 1
           [Ok200 tiny_payload; Ok200 good_payload] empty_downloader).
  - reflexivity.
  - repeat constructor.
Defined.

End DownloaderTheory.

Module SyncTheory.
Import HA.

(** ** Tables *)

Lemma list_max_nil (l : list Z) : list_max l = None <-> l = [].
Proof. by destruct l. Qed.

Lemma list_max_spec (l : list Z) (x : Z) :
  list_max l = Some x -> x ∈ l /\ forall y, y ∈ l -> y <= x.
Proof.
  revert x. induction l as [|k l IH]; intros x; [done|].
  change (list_max (k :: l)) with
    (Some (match list_max l with None => k | Some a => Z.max k a end)).
  destruct (list_max l) as [a|] eqn:Ha.
  - destruct (IH a eq_refl) as [Hin Hmax]. intros [= <-]. split.
    + destruct (Z.max_spec k a) as [[_ ->]|[_ ->]]; [by right|by left].
    + intros y Hy. apply elem_of_cons in Hy as [->|Hy]; [lia|].
      specialize (Hmax y Hy). lia.
  - apply list_max_nil in Ha as ->. intros [= <-]. split; [by left|].
    intros y Hy. apply elem_of_cons in Hy as [->|Hy]; [done|].
    by apply elem_of_nil in Hy.
Qed.

Lemma elem_of_ids (t : Table) (k : Z) : k ∈ ids t <-> is_Some (rows t !! k).
Proof.
  unfold ids. rewrite list_elem_of_fmap. split.
  - intros ([k' r] & -> & Hin). apply elem_of_map_to_list in Hin. by eexists.
  - intros [r Hr]. exists (k, r). split; [done|]. by apply elem_of_map_to_list.
Qed.

(** [COALESCE(MAX(id), 0)] bounds every id of a table that has rows, and is
    one of them. *)
Lemma coalesce_max_id_ge (t : Table) (k : Z) :
  is_Some (rows t !! k) -> k <= coalesce_max_id t.
Proof.
  intros Hk. apply elem_of_ids in Hk. unfold coalesce_max_id.
  destruct (list_max (ids t)) as [x|] eqn:Hx.
  - by apply (list_max_spec _ _ Hx).
  - apply list_max_nil in Hx. rewrite Hx in Hk. by apply elem_of_nil in Hk.
Qed.

Lemma coalesce_max_id_cases (t : Table) :
  (rows t = ∅ /\ coalesce_max_id t = 0) \/
  is_Some (rows t !! coalesce_max_id t).
Proof.
  unfold coalesce_max_id. destruct (list_max (ids t)) as [x|] eqn:Hx.
  - right. apply elem_of_ids. by apply (list_max_spec _ _ Hx).
  - left. split; [|done]. apply list_max_nil in Hx. unfold ids in Hx.
    apply fmap_nil_inv in Hx. by apply map_to_list_empty_iff in Hx.
Qed.

Lemma coalesce_max_id_rows (t t' : Table) :
  rows t' = rows t -> coalesce_max_id t' = coalesce_max_id t.
Proof. intros H. unfold coalesce_max_id, ids. by rewrite H. Qed.


(** ** Copying rows *)

(** The row a copy stores: the serialised record without its id. *)
Definition exported_row (table : string) (r : Z * Payload) : Payload :=
  base.delete "id" (_serialize_model (record_of_row table r)).

(** The upsert of one record into the rows of the receiving table. *)
Definition upsert_rows (table : string) (rs : gmap Z Payload) (r : Z * Payload)
  : gmap Z Payload :=
  <[r.1 := exported_row table r ∪ default ∅ (rs !! r.1)]> rs.

Lemma serialize_record_id (table : string) (r : Z * Payload) :
  _serialize_model (record_of_row table r) !! "id" = Some (PyInt r.1).
Proof.
  unfold _serialize_model. rewrite HATheory.serialize_fold.
  rewrite bool_decide_eq_true_2.
  - unfold getattr; cbn. by rewrite lookup_insert_eq.
  - split; [by left|]. unfold getattr; cbn. by rewrite lookup_insert_eq.
Qed.

Lemma upsert_record (table : string) (r : Z * Payload) (t : Table) :
  upsert (_serialize_model (record_of_row table r)) t =
    Some {| rows := upsert_rows table (rows t) r; last_value := last_value t |}.
Proof. unfold upsert. by rewrite serialize_record_id. Qed.

(** The receiving table once the first [i] rows of [records] are in. *)
Definition table_after (table : string) (target : Table)
    (records : list (Z * Payload)) (i : nat) : Table :=
  {| rows := foldl (upsert_rows table) (rows target) (take i records);
     last_value := last_value target |}.

(** Every statement of the copy of [records] into [target] is let through
    by the database [db] of [node], each in the state its predecessors
    left. *)
Definition statements_accepted (accepts : Verdict) (node : string) (db : Database)
    (table : string) (records : list (Z * Payload)) (target : Table) : Prop :=
  forall i r, records !! i = Some r ->
    accepts node (<[table := table_after table target records i]> db) table
            (_serialize_model (record_of_row table r)) = true.

Lemma table_after_0 (table : string) (target : Table) (records : list (Z * Payload)) :
  table_after table target records 0 = target.
Proof. by destruct target. Qed.

Lemma table_after_S (table : string) (target : Table) (r : Z * Payload)
    (records : list (Z * Payload)) (i : nat) :
  table_after table target (r :: records) (S i) =
    table_after table
      {| rows := upsert_rows table (rows target) r; last_value := last_value target |}
      records i.
Proof. reflexivity. Qed.

Lemma table_after_all (table : string) (target : Table) (records : list (Z * Payload)) :
  table_after table target records (length records) =
    {| rows := foldl (upsert_rows table) (rows target) records;
       last_value := last_value target |}.
Proof. unfold table_after. by rewrite firstn_all. Qed.

Lemma statements_accepted_nil (accepts : Verdict) (node : string) (db : Database)
    (table : string) (target : Table) :
  statements_accepted accepts node db table [] target.
Proof. by intros i r Hr. Qed.

Lemma statements_accepted_cons (accepts : Verdict) (node : string) (db : Database)
    (table : string) (r : Z * Payload) (records : list (Z * Payload)) (target : Table) :
  statements_accepted accepts node db table (r :: records) target <->
  accepts node (<[table := target]> db) table
          (_serialize_model (record_of_row table r)) = true /\
  statements_accepted accepts node db table records
    {| rows := upsert_rows table (rows target) r; last_value := last_value target |}.
Proof.
  split.
  - intros H. split.
    + specialize (H 0%nat r eq_refl). by rewrite table_after_0 in H.
    + intros i r' Hr'. specialize (H (S i) r' Hr'). by rewrite table_after_S in H.
  - intros [H0 H] [|i] r' Hr'.
    + injection Hr' as <-. by rewrite table_after_0.
    + rewrite table_after_S. by apply H.
Qed.

Section Copy.
Variable accepts : Verdict.
Variables (node : string) (db : Database) (table : string).

(** The step of the per-record loop. *)
Definition copy_step : Z * option Table -> Z * Payload -> Z * option Table :=
  fun '(synced_count, tx) r =>
    match execute_upsert accepts node db table
            (_serialize_model (record_of_row table r)) tx with
    | Some t => (synced_count + 1, Some t)
    | None => (synced_count, None)
    end.

Lemma copy_aborted (records : list (Z * Payload)) (c : Z) :
  foldl copy_step (c, None) records = (c, None).
Proof. induction records as [|r records IH]; [done|]. cbn. exact IH. Qed.

Lemma copy_from (records : list (Z * Payload)) (c : Z) (t : Table) :
  let res := foldl copy_step (c, Some t) records in
  c <= res.1 <= c + Z.of_nat (length records) /\
  (is_Some res.2 <-> statements_accepted accepts node db table records t) /\
  (is_Some res.2 ->
   res = (c + Z.of_nat (length records),
          Some (table_after table t records (length records)))).
Proof.
  revert c t. induction records as [|r records IH]; intros c t; cbn zeta.
  - cbn. rewrite Z.add_0_r, table_after_0. split; [lia|]. split; [|done].
    split; [intros _; apply statements_accepted_nil|by eexists].
  - cbn [foldl length].
    assert (Hstep : copy_step (c, Some t) r =
              if accepts node (<[table:=t]> db) table
                   (_serialize_model (record_of_row table r))
              then (c + 1, Some {| rows := upsert_rows table (rows t) r;
                                   last_value := last_value t |})
              else (c, None)).
    { unfold copy_step, execute_upsert. cbn [mbind option_bind].
      destruct (accepts node _ table _); [by rewrite upsert_record|done]. }
    rewrite Hstep, statements_accepted_cons.
    destruct (accepts node (<[table:=t]> db) table _) eqn:Hacc.
    + destruct (IH (c + 1)
                  {| rows := upsert_rows table (rows t) r; last_value := last_value t |})
        as (Hb & Hiff & Hall).
      split; [lia|]. split; [rewrite Hiff; tauto|].
      intros Hs. rewrite (Hall Hs), table_after_S. f_equal. lia.
    + rewrite copy_aborted. cbn [fst snd]. split; [lia|].
      split; [split; [by intros [? ?]|by intros [? _]]|by intros [? ?]].
Qed.

Lemma copy_records_spec (records : list (Z * Payload)) (t : Table) :
  let res := copy_records accepts node db table records t in
  0 <= res.1 <= Z.of_nat (length records) /\
  (is_Some res.2 <-> statements_accepted accepts node db table records t) /\
  (is_Some res.2 ->
   res = (Z.of_nat (length records),
          Some {| rows := foldl (upsert_rows table) (rows t) records;
                  last_value := last_value t |})).
Proof.
  pose proof (copy_from records 0 t) as H. cbn zeta in *.
  rewrite table_after_all, !Z.add_0_l in H. exact H.
Qed.

End Copy.

Lemma upsert_rows_other (table : string) (records : list (Z * Payload))
    (rs : gmap Z Payload) (k : Z) :
  k ∉ records.*1 -> foldl (upsert_rows table) rs records !! k = rs !! k.
Proof.
  revert rs. induction records as [|r records IH]; intros rs Hk; [done|].
  cbn [foldl]. rewrite fmap_cons, not_elem_of_cons in Hk. destruct Hk as [Hne Hk].
  rewrite IH by done. unfold upsert_rows. by rewrite lookup_insert_ne.
Qed.

Lemma upsert_rows_keeps (table : string) (records : list (Z * Payload))
    (rs : gmap Z Payload) (k : Z) :
  is_Some (rs !! k) -> is_Some (foldl (upsert_rows table) rs records !! k).
Proof.
  revert rs. induction records as [|r records IH]; intros rs Hk; [done|].
  cbn [foldl]. apply IH. unfold upsert_rows.
  destruct (decide (r.1 = k)) as [->|Hne].
  - rewrite lookup_insert_eq. by eexists.
  - by rewrite lookup_insert_ne.
Qed.

Lemma upsert_rows_copied (table : string) (records : list (Z * Payload))
    (rs : gmap Z Payload) (r : Z * Payload) :
  NoDup records.*1 -> r ∈ records ->
  foldl (upsert_rows table) rs records !! r.1 =
    Some (exported_row table r ∪ default ∅ (rs !! r.1)).
Proof.
  revert rs. induction records as [|r0 records IH]; intros rs Hnd Hr.
  - by apply elem_of_nil in Hr.
  - rewrite fmap_cons in Hnd. apply NoDup_cons in Hnd as [Hnotin Hnd].
    cbn [foldl]. apply elem_of_cons in Hr as [->|Hr].
    + rewrite upsert_rows_other by done. unfold upsert_rows.
      by rewrite lookup_insert_eq.
    + rewrite IH by done. unfold upsert_rows at 1.
      rewrite lookup_insert_ne; [done|]. intros Heq. apply Hnotin.
      rewrite Heq. apply list_elem_of_fmap. by exists r.
Qed.

(** ** Rows selected for a bulk copy *)

Lemma records_above_id_spec (t : Table) (min_id limit : Z) :
  let rs := records_above_id t min_id limit in
  (forall r, r ∈ rs -> rows t !! r.1 = Some r.2 /\ min_id < r.1) /\
  NoDup rs.*1 /\
  (length rs <= Z.to_nat limit)%nat /\
  StronglySorted (fun a b => a.1 <= b.1) rs.
Proof.
  unfold records_above_id. set (el := filter _ _).
  assert (Hel : forall r, r ∈ el -> rows t !! r.1 = Some r.2 /\ min_id < r.1).
  { intros [k r] Hr. apply list_elem_of_filter in Hr as [Hlt Hr].
    by apply elem_of_map_to_list in Hr. }
  cbn zeta. split; [|split; [|split]].
  - intros r Hr. apply Hel. rewrite <- (sort_by_key_perm fst el).
    by eapply subseteq_take.
  - rewrite fmap_take. eapply sublist_NoDup; [|apply sublist_take].
    rewrite (sort_by_key_perm fst el). subst el.
    eapply sublist_NoDup; [apply (NoDup_fst_map_to_list (rows t))|].
    apply fmap_sublist, sublist_filter.
  - rewrite length_take. lia.
  - pose proof (sort_by_key_sorted fst el) as Hs.
    rewrite <- (take_drop (Z.to_nat limit) (sort_by_key fst el)) in Hs.
    by apply StronglySorted_app_1_l in Hs.
Qed.

(** With a limit that covers them, every row above [min_id] is selected. *)
Lemma records_above_id_complete (t : Table) (min_id limit : Z) (k : Z) (r : Payload) :
  (length (filter (fun r => (min_id < r.1)%Z) (map_to_list (rows t)))
     <= Z.to_nat limit)%nat ->
  rows t !! k = Some r -> min_id < k ->
  (k, r) ∈ records_above_id t min_id limit.
Proof.
  intros Hlen Hk Hlt. unfold records_above_id.
  rewrite take_ge by (by rewrite sort_by_key_length).
  rewrite (sort_by_key_perm fst). apply list_elem_of_filter. split; [done|].
  by apply elem_of_map_to_list.
Qed.


(** ** The databases behind the manager *)

Lemma get_table_Some (m : Manager) (node table : string) (t : Table) :
  get_table m node table = Some t <->
  exists db, session_makers m !! node = Some db /\ db !! table = Some t.
Proof.
  unfold get_table. destruct (session_makers m !! node) as [db|]; cbn.
  - split; [by exists db|]. by intros (? & [= <-] & ?).
  - split; [done|]. by intros (? & ? & ?).
Qed.

Lemma get_put_same (m : Manager) (node table : string) (t : Table) :
  is_Some (session_makers m !! node) ->
  get_table (put_table node table t m) node table = Some t.
Proof.
  intros [db Hdb]. unfold put_table, get_table. rewrite Hdb. cbn.
  rewrite lookup_insert_eq. cbn. by rewrite lookup_insert_eq.
Qed.

Lemma get_put_other (m : Manager) (node table node' table' : string) (t : Table) :
  node' <> node \/ table' <> table ->
  get_table (put_table node table t m) node' table' = get_table m node' table'.
Proof.
  intros Hne. unfold put_table, get_table.
  destruct (session_makers m !! node) as [db|] eqn:Hdb; [|done]. cbn.
  destruct (decide (node = node')) as [<-|Hn].
  - rewrite lookup_insert_eq, Hdb. cbn. rewrite lookup_insert_ne; [done|].
    destruct Hne; congruence.
  - by rewrite lookup_insert_ne.
Qed.

Lemma put_table_session_other (m : Manager) (node table node' : string) (t : Table) :
  node' <> node ->
  session_makers (put_table node table t m) !! node' = session_makers m !! node'.
Proof.
  intros Hne. unfold put_table.
  destruct (session_makers m !! node); [|done]. cbn. by rewrite lookup_insert_ne.
Qed.



(** ** The bulk copy *)

Lemma update_sequence_rows (t : Table) :
  rows (_update_sequence_after_sync t) = rows t.
Proof.
  unfold _update_sequence_after_sync, setval.
  destruct (_ <? _); [|done]. by destruct (_ && _).
Qed.

(** The sequence after [_update_sequence_after_sync]: [MAX(id) + 1] when the
    table has a positive id and that value is within the bounds of the
    sequence, and what it was otherwise. *)
Lemma update_sequence_last_value (t : Table) :
  last_value (_update_sequence_after_sync t) =
    if (0 <? coalesce_max_id t) && (coalesce_max_id t <? sequence_max)
    then coalesce_max_id t + 1 else last_value t.
Proof.
  unfold _update_sequence_after_sync, setval, sequence_min, sequence_max.
  destruct (Z.ltb_spec 0 (coalesce_max_id t)); [|done].
  destruct (Z.ltb_spec (coalesce_max_id t) 2147483647);
    destruct (Z.leb_spec 1 (coalesce_max_id t + 1));
    destruct (Z.leb_spec (coalesce_max_id t + 1) 2147483647); cbn; try done; lia.
Qed.

Lemma sync_sequence_rows (i : Z) (t : Table) :
  rows (_sync_sequence_for_insert i t) = rows t.
Proof.
  unfold _sync_sequence_for_insert, setval.
  destruct (_ <=? _); [|done]. by destruct (_ && _).
Qed.

Lemma sync_sequence_last_value (i : Z) (t : Table) :
  last_value (_sync_sequence_for_insert i t) =
    if (last_value t <=? i) && (sequence_min <=? i + 1) && (i + 1 <=? sequence_max)
    then i + 1 else last_value t.
Proof.
  unfold _sync_sequence_for_insert, setval.
  destruct (last_value t <=? i); [|done]. cbn [andb].
  by destruct (_ && _).
Qed.

(** What a bulk copy returns and leaves in the receiving table.  The count
    never exceeds the number of rows selected.  When every statement is
    accepted the count is that number and the rows are in; as soon as one is
    refused the transaction is lost and the rows are what they were.  The
    sequence is moved only when the count is positive. *)
Lemma apply_bulk_spec (accepts : Verdict) (node : string) (db : Database)
    (table : string) (records : list (Z * Payload)) (t : Table) :
  let res := apply_bulk accepts node db table records t in
  0 <= res.1 <= Z.of_nat (length records) /\
  (statements_accepted accepts node db table records t ->
     res.1 = Z.of_nat (length records) /\
     rows res.2 = foldl (upsert_rows table) (rows t) records) /\
  (~ statements_accepted accepts node db table records t -> rows res.2 = rows t) /\
  last_value res.2 =
    (if (0 <? res.1) && (0 <? coalesce_max_id res.2) &&
        (coalesce_max_id res.2 <? sequence_max)
     then coalesce_max_id res.2 + 1 else last_value t).
Proof.
  cbn zeta. destruct records as [|r records].
  { cbn. split; [lia|]. split; [done|]. split; [done|]. done. }
  unfold apply_bulk. set (rs := r :: records).
  destruct (copy_records_spec accepts node db table rs t) as (Hb & Hiff & Hall).
  destruct (copy_records accepts node db table rs t) as [n tx]. cbn [fst snd] in *.
  set (t1 := commit_transaction t tx).
  assert (Hlv1 : last_value t1 = last_value t).
  { subst t1. destruct tx as [t2|]; [|done].
    specialize (Hall ltac:(by eexists)). by injection Hall as _ ->. }
  assert (Hrows : rows (if 0 <? n then _update_sequence_after_sync t1 else t1) = rows t1).
  { destruct (0 <? n); [apply update_sequence_rows|done]. }
  split; [done|]. split; [|split].
  - intros Hacc. apply Hiff in Hacc. specialize (Hall Hacc).
    injection Hall as -> ->. split; [done|]. by rewrite Hrows.
  - intros Hacc. rewrite Hrows. subst t1. destruct tx as [t2|]; [|done].
    exfalso. apply Hacc, Hiff. by eexists.
  - rewrite (coalesce_max_id_rows t1 _ Hrows).
    destruct (0 <? n); cbn [andb]; [|done].
    by rewrite update_sequence_last_value, Hlv1.
Qed.


(** ** Direction of the reconciliation *)

Lemma sync_missing_eq (accepts : Verdict) (m : Manager) (P S table : string)
    (missing : Z) (pdb sdb : Database) (pt st : Table) :
  current_primary m = Some P ->
  session_makers m !! P = Some pdb -> pdb !! table = Some pt ->
  session_makers m !! S = Some sdb -> sdb !! table = Some st ->
  supported_table table = true ->
  _sync_table_missing_records accepts table S missing m =
    let recs := records_above_id pt (coalesce_max_id st) missing in
    ((apply_bulk accepts S sdb table recs st).1,
     put_table S table (apply_bulk accepts S sdb table recs st).2 m).
Proof.
  intros Hp Hpdb Hpt Hsdb Hst Hsup. unfold _sync_table_missing_records.
  rewrite Hp, Hpdb, Hsdb, Hst, Hsup, Hpt.
  cbn zeta. by destruct (apply_bulk _ _ _ _ _ _).
Qed.


(** What a bulk copy of rows above the receiver's maximum leaves in the
    receiving table when every statement is accepted. *)
Lemma apply_bulk_rows (accepts : Verdict) (node : string) (db : Database)
    (table : string) (src dst : Table) (limit : Z) :
  let copied := records_above_id src (coalesce_max_id dst) limit in
  let dst' := (apply_bulk accepts node db table copied dst).2 in
  statements_accepted accepts node db table copied dst ->
  (apply_bulk accepts node db table copied dst).1 = Z.of_nat (length copied) /\
  (forall r, r ∈ copied -> rows dst' !! r.1 = Some (exported_row table r)) /\
  (forall k, (forall r, r ∈ copied -> r.1 <> k) -> rows dst' !! k = rows dst !! k).
Proof.
  cbn zeta. set (copied := records_above_id _ _ _). intros Hacc.
  destruct (records_above_id_spec src (coalesce_max_id dst) limit)
    as (Hin & Hnd & _ & _). fold copied in Hin, Hnd.
  destruct (apply_bulk_spec accepts node db table copied dst) as (_ & Hok & _).
  destruct (Hok Hacc) as [Hn Hrows]. rewrite Hrows. split; [done|]. split.
  - intros r Hr. rewrite upsert_rows_copied by done.
    destruct (rows dst !! r.1) as [old|] eqn:Hold.
    + assert (r.1 <= coalesce_max_id dst) by (apply coalesce_max_id_ge; by eexists).
      destruct (Hin r Hr). lia.
    + cbn. by rewrite (right_id_L ∅ (∪)).
  - intros k Hk. apply upsert_rows_other. intros Hin'.
    apply list_elem_of_fmap in Hin' as (r & -> & Hr). by apply (Hk r).
Qed.




(** ** Content synchronisation *)











(** ** Scenarios *)

(** The scenario of two nodes whose image tables have diverged: the primary
    holds ids 1 to 5, the secondary ids 1 to 3. *)
Definition image_row (n : Z) : Payload :=
  {[ "url" := PyStr "https://example.com/a.jpg";
     "updated_at" := PyStr "2024-05-01T10:00:00";
     "width" := PyInt n ]}.

Definition images_table (l : list Z) (seq : Z) : Table :=
  {| rows := list_to_map (map (fun n => (n, image_row n)) l); last_value := seq |}.

Definition diverged_cluster : Manager :=
  with_session_makers
    {[ "primary" := {[ "images" := images_table [1; 2; 3; 4; 5] 5 ]};
       "secondary1" := {[ "images" := images_table [1; 2; 3] 3 ]} ]}
    (HATheory.small_cluster 1000).

(** A database that refuses nothing. *)
Definition permissive : Verdict := fun _ _ _ _ => true.

(** The UNIQUE constraint on [images.md5_hash]: a statement is refused when
    a row with another id holds the hash it writes. *)
Definition unique_md5_hash : Verdict :=
  fun _ db table p =>
    match db !! table, p !! "md5_hash", p !! "id" with
    | Some t, Some h, Some (PyInt i) =>
        bool_decide (map_Forall (fun k r => k = i \/ r !! "md5_hash" <> Some h) (rows t))
    | _, _, _ => true
    end.

(** An image row with the columns the model requires and the hash [h]. *)
Definition hashed_row (h : string) : Payload :=
  {[ "url" := PyStr "https://example.com/a.jpg";
     "source_url" := PyStr "https://example.com/";
     "filename" := PyStr "a.jpg";
     "file_extension" := PyStr "jpg";
     "created_at" := PyDatetime "2024-05-01T10:00:00";
     "updated_at" := PyDatetime "2024-05-01T10:00:00";
     "status" := PyStr "active";
     "md5_hash" := PyStr h ]}.

Definition hashed_table (l : list (Z * string)) (seq : Z) : Table :=
  {| rows := list_to_map (map (fun r => (r.1, hashed_row r.2)) l); last_value := seq |}.

(** The secondary lacks images 4 and 5 of the primary, and its image 2 has
    the content of the primary's image 5. *)
Definition clashing_cluster : Manager :=
  with_session_makers
    {[ "primary" := {[ "images" :=
         hashed_table [(1, "h1"); (2, "h2"); (3, "h3"); (4, "h4"); (5, "h5")] 5 ]};
       "secondary1" := {[ "images" :=
         hashed_table [(1, "h1"); (2, "h5"); (3, "h3")] 3 ]} ]}
    (HATheory.small_cluster 1000).

(** The table read is [t], rows and sequence. *)
Definition holds (o : option Table) (t : Table) : bool :=
  match o with
  | Some t' => bool_decide (rows t' = rows t) && (last_value t' =? last_value t)
  | None => false
  end.

(** One forward copy brings the secondary level: it then holds ids 1 to 5
    and its sequence stands at 6. *)
Example forward_copy_levels_secondary :
  let '(n, m') := _sync_table_missing_records permissive "images" "secondary1" 2
                    diverged_cluster in
  n = 2 /\
  (sort_by_key (fun k => k) ∘ ids <$> get_table m' "secondary1" "images")
    = Some [1; 2; 3; 4; 5] /\
  (last_value <$> get_table m' "secondary1" "images") = Some 6.
Proof. by vm_compute. Qed.



(** ** Sequences *)

(** C2 (the code as it is).  (1) A bulk copy from the primary to a peer that
    counted at least one record leaves the peer's sequence at [MAX(id) + 1]
    of the table as the copy left it, provided the table holds a positive id
    and [MAX(id) + 1] is within the bounds of the sequence; otherwise the
    sequence is what it was.  (2) The same holds of the copy from a peer to
    the primary, for the primary's sequence.  (3) Applying a replicated
    INSERT fails whatever the payload: the call reports [False], no row is
    stored and the sequence is not looked at.  (4) [_sync_sequence_for_insert]
    by itself moves the sequence to [i + 1] when [i] is at or above its
    current value and [i + 1] is within the bounds, and leaves it alone
    otherwise; it never looks at [MAX(id)]. *)
Theorem sequence_after_sync (accepts : Verdict) (m : Manager) (table peer : string)
    (missing_count : Z) (d : Payload) (t : Table) (i : Z) :
  (let '(n, m') := _sync_table_missing_records accepts table peer missing_count m in
   0 < n ->
   exists t0 t', get_table m peer table = Some t0 /\
                 get_table m' peer table = Some t' /\
                 last_value t' =
                   if (0 <? coalesce_max_id t') && (coalesce_max_id t' <? sequence_max)
                   then coalesce_max_id t' + 1 else last_value t0) /\
  (let '(n, m') := _sync_table_missing_records_reverse accepts table peer
                     missing_count m in
   0 < n ->
   exists p t0 t', current_primary m = Some p /\
                   get_table m p table = Some t0 /\
                   get_table m' p table = Some t' /\
                   last_value t' =
                     if (0 <? coalesce_max_id t') && (coalesce_max_id t' <? sequence_max)
                     then coalesce_max_id t' + 1 else last_value t0) /\
  _execute_insert_operation d t = (false, t) /\
  rows (_sync_sequence_for_insert i t) = rows t /\
  last_value (_sync_sequence_for_insert i t) =
    (if (last_value t <=? i) && (sequence_min <=? i + 1) && (i + 1 <=? sequence_max)
     then i + 1 else last_value t).
Proof.
  split; [|split; [|split; [done|split]]].
  - unfold _sync_table_missing_records.
    destruct (current_primary m) as [p|]; [|cbn; lia].
    destruct (session_makers m !! p) as [pdb|] eqn:Hp; [|cbn; lia].
    destruct (session_makers m !! peer) as [tdb|] eqn:Ht; [|cbn; lia].
    destruct (tdb !! table) as [tt|] eqn:Htt; [|cbn; lia].
    destruct (supported_table table); [|cbn; lia].
    destruct (pdb !! table) as [src|] eqn:Hsrc; [|cbn; lia].
    set (recs := records_above_id _ _ _).
    destruct (apply_bulk_spec accepts peer tdb table recs tt) as (_ & _ & _ & Hseq).
    destruct (apply_bulk accepts peer tdb table recs tt) as [n t1].
    cbn [fst snd] in Hseq. intros Hn. exists tt, t1. split; [|split].
    + apply get_table_Some. by exists tdb.
    + apply get_put_same. by eexists.
    + rewrite Hseq. by destruct (Z.ltb_spec 0 n); [|lia].
  - unfold _sync_table_missing_records_reverse.
    destruct (current_primary m) as [p|]; [|cbn; lia].
    destruct (session_makers m !! peer) as [sdb|] eqn:Hs; [|cbn; lia].
    destruct (session_makers m !! p) as [tdb|] eqn:Ht; [|cbn; lia].
    destruct (tdb !! table) as [tt|] eqn:Htt; [|cbn; lia].
    set (recs := _get_records_above_id _ _ _ _).
    destruct (apply_bulk_spec accepts p tdb table recs tt) as (_ & _ & _ & Hseq).
    destruct (apply_bulk accepts p tdb table recs tt) as [n t1].
    cbn [fst snd] in Hseq. intros Hn. exists p, tt, t1. split; [done|]. split; [|split].
    + apply get_table_Some. by exists tdb.
    + apply get_put_same. by eexists.
    + rewrite Hseq. by destruct (Z.ltb_spec 0 n); [|lia].
  - apply sync_sequence_rows.
  - apply sync_sequence_last_value.
Qed.

(** C2 at an input: a replicated INSERT of image 7 reaches a secondary that
    holds images 1 to 3 with its sequence at 3.  The spec has the row stored
    and the sequence at 8; the code reports failure and leaves the table and
    the sequence as they were. *)
Lemma replicated_insert_leaves_sequence_behind :
  let t := images_table [1; 2; 3] 3 in
  let d := <["id" := PyInt 7]> (image_row 7) in
  _execute_insert_operation d t = (false, t) /\
  rows (_execute_insert_operation d t).2 !! 7 = None /\
  last_value (_execute_insert_operation d t).2 = 3 /\
  last_value (_sync_sequence_for_insert 7 t) = 8.
Proof. by vm_compute. Qed.

(** The sequence helper does not re-establish [MAX(id) + 1]: with ids 1 to
    3 and the sequence at 3, an insert of id 2 leaves the sequence at 3. *)
Example sync_sequence_for_insert_ignores_max_id :
  let t := images_table [1; 2; 3] 3 in
  last_value (_sync_sequence_for_insert 2 t) = 3 /\ coalesce_max_id t = 3.
Proof. by vm_compute. Qed.

(** At the upper bound of an [Integer] key the sequence cannot follow. *)
Example sequence_stops_at_its_bound :
  let t := images_table [2147483647] 5 in
  last_value (_update_sequence_after_sync t) = 5 /\
  last_value (_sync_sequence_for_insert 2147483647 t) = 5.
Proof. by vm_compute. Qed.


(** ** The reconciliation pass *)




(** A whole pass on the primary at time 400 (the last pass was at 0, the
    interval is 300): the secondary ends with ids 1 to 5 and its sequence
    at 6; the primary's rows are as before. *)
Example full_pass_levels_secondary :
  let m' := _full_sync_loop permissive 400 diverged_cluster in
  last_full_sync m' = 400 /\
  (sort_by_key (fun k => k) ∘ ids <$> get_table m' "secondary1" "images")
    = Some [1; 2; 3; 4; 5] /\
  (last_value <$> get_table m' "secondary1" "images") = Some 6 /\
  get_table m' "primary" "images" = get_table diverged_cluster "primary" "images".
Proof. by vm_compute. Qed.

End SyncTheory.

Module URLTheory.
Import URLParser.

(** ** Text *)

(** No character of [x] is of class [p]. *)
Definition avoids (p : ascii -> bool) (x : str) : Prop :=
  Forall (fun c => p c = false) x.

Lemma avoids_app (p : ascii -> bool) (x y : str) :
  avoids p (x ++ y) <-> avoids p x /\ avoids p y.
Proof. unfold avoids. by rewrite Forall_app. Qed.

Lemma avoids_cons (p : ascii -> bool) (c : ascii) (x : str) :
  avoids p (c :: x) <-> p c = false /\ avoids p x.
Proof. unfold avoids. by rewrite Forall_cons. Qed.

Lemma avoids_nil (p : ascii -> bool) : avoids p [].
Proof. constructor. Qed.

Lemma avoids_rev (p : ascii -> bool) (x : str) : avoids p (rev x) <-> avoids p x.
Proof.
  unfold avoids. split; intros H; [|by apply List.Forall_rev].
  rewrite <- (rev_involutive x). by apply List.Forall_rev.
Qed.

Lemma avoids_weaken (p q : ascii -> bool) (x : str) :
  (forall c, q c = true -> p c = true) -> avoids p x -> avoids q x.
Proof.
  intros H Hx. eapply Forall_impl; [exact Hx|]. intros c Hc. cbn in Hc.
  destruct (q c) eqn:Hq; [|done]. apply H in Hq. congruence.
Qed.

Lemma contains_false (c : ascii) (x : str) :
  contains c x = false <-> avoids (Ascii.eqb c) x.
Proof.
  unfold contains, avoids. induction x as [|d x IH]; cbn.
  - split; [constructor|done].
  - rewrite orb_false_iff, IH, Forall_cons. tauto.
Qed.

Lemma break_spec (p : ascii -> bool) (x a b : str) :
  break p x = (a, b) ->
  x = a ++ b /\ avoids p a /\
  match b with [] => True | c :: _ => p c = true end.
Proof.
  revert a b. induction x as [|c x IH]; intros a b; cbn.
  - intros [= <- <-]. repeat split. constructor.
  - destruct (p c) eqn:Hc.
    + intros [= <- <-]. repeat split; [constructor|done].
    + destruct (break p x) as [a' b']. intros [= <- <-].
      destruct (IH a' b' eq_refl) as (-> & Ha & Hb).
      repeat split; [|done]. by constructor.
Qed.

Lemma break_app (p : ascii -> bool) (a b : str) :
  avoids p a ->
  match b with [] => True | c :: _ => p c = true end ->
  break p (a ++ b) = (a, b).
Proof.
  intros Ha Hb. induction Ha as [|c a Hc Ha IH]; cbn in *.
  - destruct b as [|c b]; [done|]. cbn. by rewrite Hb.
  - by rewrite Hc, IH.
Qed.

Lemma split_once_found (c : ascii) (a b : str) :
  avoids (Ascii.eqb c) a -> split_once c (a ++ c :: b) = (a, b).
Proof.
  intros Ha. unfold split_once. rewrite (break_app _ a (c :: b)); [done|done|].
  apply Ascii.eqb_refl.
Qed.

Lemma split_once_absent (c : ascii) (x : str) :
  avoids (Ascii.eqb c) x -> split_once c x = (x, []).
Proof.
  intros Hx. unfold split_once.
  pose proof (break_app _ x [] Hx I) as H. rewrite app_nil_r in H. by rewrite H.
Qed.

Lemma split_once_spec (c : ascii) (x a b : str) :
  split_once c x = (a, b) ->
  avoids (Ascii.eqb c) a /\ (x = a /\ b = [] \/ x = a ++ c :: b).
Proof.
  unfold split_once. destruct (break (Ascii.eqb c) x) as [a' b'] eqn:Hb.
  apply break_spec in Hb as (-> & Ha & Hc). destruct b' as [|d b'].
  - intros [= <- <-]. rewrite app_nil_r. split; [done|]. by left.
  - intros [= <- <-]. apply Ascii.eqb_eq in Hc as <-. split; [done|]. by right.
Qed.

Lemma startswith_app (pre x : str) : startswith pre (pre ++ x) = true.
Proof. induction pre as [|c pre IH]; cbn; [done|]. by rewrite Ascii.eqb_refl. Qed.

Lemma startswith_spec (pre x : str) :
  startswith pre x = true -> exists r, x = pre ++ r.
Proof.
  revert x. induction pre as [|c pre IH]; intros x; cbn.
  - by exists x.
  - destruct x as [|d x]; [done|]. rewrite andb_true_iff.
    intros [Hc Hx]. apply Ascii.eqb_eq in Hc as <-.
    destruct (IH x Hx) as [r ->]. by exists r.
Qed.

Lemma filter_avoids (p : ascii -> bool) (x : str) :
  avoids p (List.filter (fun c => negb (p c)) x).
Proof.
  induction x as [|c x IH]; cbn; [constructor|].
  destruct (p c) eqn:Hc; cbn; [done|]. by constructor.
Qed.

Lemma filter_id (p : ascii -> bool) (x : str) :
  avoids p x -> List.filter (fun c => negb (p c)) x = x.
Proof.
  induction 1 as [|c x Hc _ IH]; cbn in *; [done|]. by rewrite Hc, IH.
Qed.

Lemma filter_app_list {A} (f : A -> bool) (x y : list A) :
  List.filter f (x ++ y) = List.filter f x ++ List.filter f y.
Proof. induction x as [|c x IH]; cbn; [done|]. destruct (f c); cbn; by rewrite IH. Qed.


(** ** Parsing a URL that begins with http:// or https:// *)

Definition web_scheme (sch : str) : Prop := sch = lit "http" \/ sch = lit "https".

(** The authority holds one of the two brackets without the other. *)
Definition unbalanced (nl : str) : bool :=
  contains "[" nl && negb (contains "]" nl) ||
  contains "]" nl && negb (contains "[" nl).

(** The authority holds both brackets. *)
Definition bracketed (nl : str) : bool := contains "[" nl && contains "]" nl.

Lemma urlsplit_web (ok : str -> bool) (sch r : str) :
  web_scheme sch ->
  urlsplit ok (sch ++ lit "://" ++ r) =
    let r' := List.filter (fun c => negb (is_unsafe_byte c)) r in
    let '(netloc, rest) := break is_netloc_delim r' in
    if unbalanced netloc then None
    else if bracketed netloc && negb (ok netloc) then None
    else
      let '(url, fragment) := split_once "#" rest in
      let '(url, query) := split_once "?" url in
      Some (sch, netloc, url, query, fragment).
Proof. intros [-> | ->]; reflexivity. Qed.


(** ** Character classes under [lower] *)

Lemma lower_char_idemp (c : ascii) : lower_char (lower_char c) = lower_char c.
Proof. by destruct c as [[] [] [] [] [] [] [] []]. Qed.

Lemma lower_char_delim (c : ascii) :
  is_netloc_delim (lower_char c) = is_netloc_delim c.
Proof. by destruct c as [[] [] [] [] [] [] [] []]. Qed.

Lemma lower_char_open (c : ascii) :
  Ascii.eqb "[" (lower_char c) = Ascii.eqb "[" c.
Proof. by destruct c as [[] [] [] [] [] [] [] []]. Qed.

Lemma lower_char_close (c : ascii) :
  Ascii.eqb "]" (lower_char c) = Ascii.eqb "]" c.
Proof. by destruct c as [[] [] [] [] [] [] [] []]. Qed.

Lemma lower_char_unsafe (c : ascii) :
  is_unsafe_byte (lower_char c) = is_unsafe_byte c.
Proof. by destruct c as [[] [] [] [] [] [] [] []]. Qed.

Lemma lower_idemp (x : str) : lower (lower x) = lower x.
Proof.
  unfold lower. rewrite map_map. apply map_ext. intros c. apply lower_char_idemp.
Qed.

Lemma lower_avoids (p : ascii -> bool) (x : str) :
  (forall c, p (lower_char c) = p c) -> avoids p x -> avoids p (lower x).
Proof.
  intros Hp. unfold avoids, lower. induction 1 as [|c x Hc _ IH]; cbn; [constructor|].
  constructor; [by rewrite Hp|done].
Qed.

Lemma lower_take (k : nat) (x : str) : lower (take k x) = take k (lower x).
Proof. unfold lower. revert k. induction x; intros [|k]; cbn; by rewrite ?IHx. Qed.

Lemma avoids_take (p : ascii -> bool) (k : nat) (x : str) :
  avoids p x -> avoids p (take k x).
Proof. apply Forall_take. Qed.

(** ** Stripping *)

(** The text ends in a character [str.strip()] would remove. *)
Definition ends_with_space (x : str) : bool :=
  match rev x with
  | c :: _ => isspace c
  | [] => false
  end.

Lemma strip_id (c : ascii) (x : str) :
  isspace c = false -> ends_with_space (c :: x) = false ->
  strip (c :: x) = c :: x.
Proof.
  intros Hc He. unfold strip, rstrip. cbn [lstrip]. rewrite Hc.
  unfold ends_with_space in He.
  destruct (rev (c :: x)) as [|d y] eqn:Hr.
  - by rewrite <- (rev_involutive (c :: x)), Hr.
  - cbn [lstrip]. rewrite He. by rewrite <- Hr, rev_involutive.
Qed.


(** ** The shape of what the parser returns *)

(** A path that begins with a slash and whose last segment holds no
    semicolon. *)
Definition segmented (x : str) : Prop :=
  (exists rest, x = "/"%char :: rest) /\
  exists before segment,
    x = before ++ "/"%char :: segment /\
    avoids (Ascii.eqb "/") segment /\ avoids (Ascii.eqb ";") segment.

Record well_formed (p : ParseResult) : Prop := {
  wf_scheme : web_scheme (scheme p);
  wf_netloc_delim : avoids is_netloc_delim (netloc p);
  wf_netloc_unsafe : avoids is_unsafe_byte (netloc p);
  wf_path : segmented (path p);
  wf_path_query : avoids (Ascii.eqb "?") (path p);
  wf_path_fragment : avoids (Ascii.eqb "#") (path p);
  wf_path_unsafe : avoids is_unsafe_byte (path p);
  wf_params_slash : avoids (Ascii.eqb "/") (params p);
  wf_params_query : avoids (Ascii.eqb "?") (params p);
  wf_params_fragment : avoids (Ascii.eqb "#") (params p);
  wf_params_unsafe : avoids is_unsafe_byte (params p);
  wf_query_fragment : avoids (Ascii.eqb "#") (query p);
  wf_query_unsafe : avoids is_unsafe_byte (query p);
  wf_fragment : fragment p = []
}.

Lemma contains_true_split (c : ascii) (x : str) :
  contains c x = true -> exists a b, x = a ++ c :: b /\ avoids (Ascii.eqb c) b.
Proof.
  intros Hc. destruct (break (Ascii.eqb c) (rev x)) as [a b] eqn:Hb.
  apply break_spec in Hb as (Hx & Ha & Hd). destruct b as [|d b].
  - rewrite app_nil_r in Hx. subst a. apply (proj1 (avoids_rev _ _)) in Ha.
    apply (proj2 (contains_false _ _)) in Ha. congruence.
  - apply Ascii.eqb_eq in Hd as <-. exists (rev b), (rev a). split.
    + rewrite <- (rev_involutive x), Hx, rev_app_distr. cbn.
      by rewrite <- app_assoc.
    + by apply (proj2 (avoids_rev _ _)).
Qed.

(** [_splitparams] on a path that begins with a slash. *)
Lemma splitparams_spec (rest x prm : str) :
  _splitparams ("/"%char :: rest) = (x, prm) ->
  segmented x /\ avoids (Ascii.eqb "/") prm /\
  ("/"%char :: rest = x /\ prm = [] \/ "/"%char :: rest = x ++ ";"%char :: prm).
Proof.
  set (b := "/"%char :: rest). unfold _splitparams.
  assert (Hc : contains "/" b = true) by done. rewrite Hc.
  destruct (break (Ascii.eqb "/") (rev b)) as [sr br] eqn:Hb.
  apply break_spec in Hb as (Hrev & Hsr & Hd).
  destruct br as [|d br].
  { rewrite app_nil_r in Hrev. subst sr. apply (proj1 (avoids_rev _ _)) in Hsr.
    apply (proj2 (contains_false _ _)) in Hsr. congruence. }
  apply Ascii.eqb_eq in Hd as <-.
  assert (Hbeq : b = rev br ++ "/"%char :: rev sr).
  { rewrite <- (rev_involutive b), Hrev, rev_app_distr. cbn.
    by rewrite <- app_assoc. }
  apply (proj2 (avoids_rev _ _)) in Hsr.
  assert (Hhead : forall y z, b = y ++ z -> y <> [] -> exists r, y = "/"%char :: r).
  { intros [|c y] z Hy Hne; [done|]. injection Hy as <- _. by eexists. }
  destruct (break (Ascii.eqb ";") (rev sr)) as [a c] eqn:Ha.
  apply break_spec in Ha as (Hseg & Hav & Hsemi). destruct c as [|d c].
  - intros [= <- <-]. rewrite app_nil_r in Hseg. subst a.
    split; [|split; [constructor|by left]]. split; [by eexists|].
    by exists (rev br), (rev sr).
  - apply Ascii.eqb_eq in Hsemi as <-. intros [= <- <-].
    rewrite Hseg in Hsr. apply avoids_app in Hsr as [Hsa Hsc].
    apply avoids_cons in Hsc as [_ Hsc].
    assert (Hx : (rev br ++ ["/"%char]) ++ a = rev br ++ "/"%char :: a).
    { by rewrite <- app_assoc. }
    cbn [rev]. rewrite Hx.
    assert (Hb2 : b = (rev br ++ "/"%char :: a) ++ ";"%char :: c).
    { rewrite Hbeq, Hseg. rewrite <- !app_assoc. done. }
    split; [|split; [exact Hsc|right; exact Hb2]]. split.
    + apply (Hhead _ _ Hb2). by destruct (rev br).
    + by exists (rev br), a.
Qed.

Lemma splitparams_roundtrip (x prm : str) :
  segmented x -> avoids (Ascii.eqb "/") prm ->
  _splitparams (if nonempty prm then x ++ lit ";" ++ prm else x) = (x, prm) \/
  (prm = [] /\ contains ";" x = false).
Proof.
  intros [[rest Hx] (before & seg & Hseg & Hs1 & Hs2)] Hprm.
  destruct (contains ";" (if nonempty prm then x ++ lit ";" ++ prm else x)) eqn:Hc.
  2:{ right. destruct prm as [|c prm]; [done|]. cbn [nonempty] in Hc.
      apply contains_false, avoids_app in Hc as [_ Hc].
      by apply avoids_cons in Hc as [? _]. }
  left. unfold _splitparams.
  set (url := if nonempty prm then _ else _) in *.
  assert (Hurl : url = before ++ "/"%char :: (seg ++ (if nonempty prm then lit ";" ++ prm else []))).
  { subst url. destruct prm; cbn [nonempty].
    - by rewrite app_nil_r.
    - rewrite Hseg, <- !app_assoc. done. }
  assert (Hsl : contains "/" url = true).
  { rewrite Hurl. unfold contains. rewrite existsb_app. cbn.
    by rewrite orb_true_r. }
  rewrite Hsl.
  assert (Hrev : rev url =
                 rev (seg ++ (if nonempty prm then lit ";" ++ prm else []))
                   ++ "/"%char :: rev before).
  { rewrite Hurl, rev_app_distr. cbn. by rewrite <- app_assoc. }
  rewrite Hrev, break_app; [|apply avoids_rev|done].
  2:{ apply avoids_app. split; [done|]. destruct prm; [constructor|].
      cbn [nonempty]. apply avoids_app. split; [by repeat constructor|done]. }
  rewrite rev_involutive. destruct prm as [|c prm]; cbn [nonempty].
  - rewrite app_nil_r. pose proof (break_app _ seg [] Hs2 I) as Hb.
    rewrite app_nil_r in Hb. by rewrite Hb.
  - rewrite (break_app _ seg (lit ";" ++ c :: prm)); [|done|done].
    cbn. repeat f_equal. rewrite Hseg. cbn. by rewrite rev_involutive, <- app_assoc.
Qed.


Lemma avoids_delim (x : str) :
  avoids is_netloc_delim x ->
  avoids (Ascii.eqb "/") x /\ avoids (Ascii.eqb "?") x /\ avoids (Ascii.eqb "#") x.
Proof.
  intros H. repeat split; eapply avoids_weaken; try exact H; intros c Hc;
    apply Ascii.eqb_eq in Hc as <-; done.
Qed.

(** What [urlparse] returns for a URL that begins with http:// or https://. *)
Lemma urlparse_web (ok : str -> bool) (sch r : str) (p : ParseResult) :
  web_scheme sch ->
  urlparse ok (sch ++ lit "://" ++ r) = Some p ->
  scheme p = sch /\
  avoids is_netloc_delim (netloc p) /\
  unbalanced (netloc p) = false /\
  (bracketed (netloc p) = true -> ok (netloc p) = true) /\
  avoids is_unsafe_byte (netloc p) /\
  (path p = [] /\ params p = [] \/ segmented (path p)) /\
  avoids (Ascii.eqb "?") (path p) /\ avoids (Ascii.eqb "#") (path p) /\
  avoids is_unsafe_byte (path p) /\
  avoids (Ascii.eqb "/") (params p) /\ avoids (Ascii.eqb "?") (params p) /\
  avoids (Ascii.eqb "#") (params p) /\ avoids is_unsafe_byte (params p) /\
  avoids (Ascii.eqb "#") (query p) /\ avoids is_unsafe_byte (query p).
Proof.
  intros Hsch. unfold urlparse. rewrite (urlsplit_web ok sch r Hsch). cbn zeta.
  pose proof (filter_avoids is_unsafe_byte r) as Hsafe.
  set (r' := List.filter _ r) in *.
  destruct (break is_netloc_delim r') as [nl rest] eqn:Hb.
  apply break_spec in Hb as (Hr & Hnl & Hd). rewrite Hr in Hsafe.
  apply avoids_app in Hsafe as [Hnl_safe Hrest_safe].
  destruct (unbalanced nl) eqn:Ho; [done|].
  destruct (bracketed nl && negb (ok nl)) eqn:Hc; [done|].
  assert (Hok : bracketed nl = true -> ok nl = true).
  { intros Hbr. rewrite Hbr in Hc. by destruct (ok nl). }
  clear Hc.
  destruct (split_once "#" rest) as [u1 frag] eqn:Hf.
  apply split_once_spec in Hf as [Hu1 Hf].
  destruct (split_once "?" u1) as [b q] eqn:Hq.
  apply split_once_spec in Hq as [Hbq Hq]. cbn [mbind option_bind].
  assert (Hu1_safe : avoids is_unsafe_byte u1 /\ avoids is_unsafe_byte frag).
  { destruct Hf as [[-> ->] | ->]; [by split; [|constructor]|].
    apply avoids_app in Hrest_safe as [? Hx]. by apply avoids_cons in Hx as [_ ?]. }
  destruct Hu1_safe as [Hu1_safe _].
  assert (Hb_parts : avoids is_unsafe_byte b /\ avoids is_unsafe_byte q /\
                     avoids (Ascii.eqb "#") b /\ avoids (Ascii.eqb "#") q).
  { destruct Hq as [[-> ->] | ->]; [by repeat split; try constructor|].
    apply avoids_app in Hu1_safe as [? Hx]. apply avoids_cons in Hx as [_ ?].
    apply avoids_app in Hu1 as [? Hy]. by apply avoids_cons in Hy as [_ ?]. }
  destruct Hb_parts as (Hb_safe & Hq_safe & Hb_hash & Hq_hash).
  assert (Hb_head : b = [] \/ exists b0, b = "/"%char :: b0).
  { destruct b as [|c b0]; [by left|]. right.
    assert (Hrest : exists z, rest = c :: z).
    { destruct Hq as [[-> _] | ->]; destruct Hf as [[-> _] | ->]; by eexists. }
    destruct Hrest as [z ->]. apply avoids_cons in Hbq as [Hcq _].
    apply avoids_cons in Hb_hash as [Hch _].
    unfold is_netloc_delim in Hd. rewrite !orb_true_iff in Hd.
    rewrite (Ascii.eqb_sym c "?"), (Ascii.eqb_sym c "#"), Hcq, Hch in Hd.
    destruct Hd as [[Hd|?]|?]; try done. apply Ascii.eqb_eq in Hd as ->.
    by eexists. }
  assert (Huses : str_in sch uses_params = true) by (by destruct Hsch as [-> | ->]).
  rewrite Huses. cbn [andb].
  destruct (contains ";" b) eqn:Hsemi.
  - destruct Hb_head as [-> | [b0 ->]]; [done|].
    destruct (_splitparams _) as [x prm] eqn:Hsp.
    apply splitparams_spec in Hsp as (Hseg & Hprm & Hx).
    intros [= <-]. cbn.
    assert (Hsub : forall cls, avoids cls ("/"%char :: b0) ->
                     avoids cls x /\ avoids cls prm).
    { intros cls Hcls. destruct Hx as [[<- ->] | Hx]; [by split; [|constructor]|].
      rewrite Hx in Hcls. apply avoids_app in Hcls as [? Hy].
      by apply avoids_cons in Hy as [_ ?]. }
    destruct (Hsub _ Hbq), (Hsub _ Hb_hash), (Hsub _ Hb_safe).
    repeat split; try done. by right.
  - intros [= <-]. cbn. repeat split; try done; try by constructor.
    destruct Hb_head as [-> | [b0 ->]]; [by left|]. right.
    split; [by eexists|].
    destruct (contains_true_split "/" ("/"%char :: b0) eq_refl)
      as (before & seg & Hbs & Hseg).
    exists before, seg. split; [done|]. split; [done|].
    apply contains_false in Hsemi. rewrite Hbs in Hsemi.
    apply avoids_app in Hsemi as [_ Hs]. by apply avoids_cons in Hs as [_ ?].
Qed.


(** ** The normalised components *)

(** What [normalize_url] does to the authority. *)
Definition strip_default_port (sch nl : str) : str :=
  if endswith (lit ":80") nl && bool_decide (sch = lit "http")
  then take (length nl - 3) nl
  else if endswith (lit ":443") nl && bool_decide (sch = lit "https")
  then take (length nl - 4) nl
  else nl.

(** The authority still ends in the default port of the scheme. *)
Definition default_port_left (p : ParseResult) : bool :=
  endswith (lit ":80") (netloc p) && bool_decide (scheme p = lit "http") ||
  endswith (lit ":443") (netloc p) && bool_decide (scheme p = lit "https").

(** An empty authority in front of a path that begins with two slashes. *)
Definition empty_authority_before_slashes (p : ParseResult) : bool :=
  negb (nonempty (netloc p)) && startswith (lit "//") (path p).

Lemma web_prefixed (u : str) :
  exists sch r, web_scheme sch /\
    (if negb (startswith (lit "http://") u || startswith (lit "https://") u)
     then lit "https://" ++ u else u) = sch ++ lit "://" ++ r.
Proof.
  destruct (startswith (lit "http://") u) eqn:H1; cbn [negb orb].
  - apply startswith_spec in H1 as [r ->]. exists (lit "http"), r.
    split; [by left|reflexivity].
  - destruct (startswith (lit "https://") u) eqn:H2; cbn [negb orb].
    + apply startswith_spec in H2 as [r ->]. exists (lit "https"), r.
      split; [by right|reflexivity].
    + exists (lit "https"), u. split; [by right|reflexivity].
Qed.

Lemma strip_default_port_avoids (cls : ascii -> bool) (sch nl : str) :
  avoids cls nl -> avoids cls (strip_default_port sch nl).
Proof.
  intros H. unfold strip_default_port.
  repeat case_match; try done; by apply avoids_take.
Qed.

Lemma strip_default_port_lower (sch nl : str) :
  lower nl = nl -> lower (strip_default_port sch nl) = strip_default_port sch nl.
Proof.
  intros H. unfold strip_default_port.
  repeat case_match; try done; by rewrite lower_take, H.
Qed.

Lemma contains_app (c : ascii) (x y : str) :
  contains c (x ++ y) = contains c x || contains c y.
Proof. apply existsb_app. Qed.

Lemma contains_lower (c : ascii) (x : str) :
  (forall d, Ascii.eqb c (lower_char d) = Ascii.eqb c d) ->
  contains c (lower x) = contains c x.
Proof.
  intros Hc. unfold contains, lower. induction x as [|d x IH]; cbn; [done|].
  by rewrite Hc, IH.
Qed.

Lemma endswith_spec (suf x : str) :
  endswith suf x = true -> x = take (length x - length suf) x ++ suf.
Proof.
  unfold endswith. intros H. apply startswith_spec in H as [r Hr].
  assert (Hx : x = rev r ++ suf).
  { rewrite <- (rev_involutive x), Hr, rev_app_distr. by rewrite rev_involutive. }
  rewrite Hx at 2. f_equal. rewrite Hx at 2. rewrite Hx at 1.
  rewrite length_app, Nat.add_sub. by rewrite take_app_length.
Qed.

(** Stripping the default port takes no bracket away. *)
Lemma strip_default_port_contains (c : ascii) (sch nl : str) :
  contains c (lit ":80") = false -> contains c (lit ":443") = false ->
  contains c (strip_default_port sch nl) = contains c nl.
Proof.
  intros H80 H443. unfold strip_default_port.
  destruct (endswith (lit ":80") nl) eqn:He1; cbn [andb].
  - case_bool_decide; [|destruct (endswith (lit ":443") nl) eqn:He2; cbn [andb]].
    + apply endswith_spec in He1. rewrite He1 at 3.
      by rewrite contains_app, H80, orb_false_r.
    + case_bool_decide; [|done].
      apply endswith_spec in He2. rewrite He2 at 3.
      by rewrite contains_app, H443, orb_false_r.
    + done.
  - destruct (endswith (lit ":443") nl) eqn:He2; cbn [andb]; [|done].
    case_bool_decide; [|done].
    apply endswith_spec in He2. rewrite He2 at 3.
    by rewrite contains_app, H443, orb_false_r.
Qed.

Lemma normalized_components_wf (ok : str -> bool) (u : str) (p : ParseResult) :
  normalized_components ok u = Some p ->
  well_formed p /\ lower (netloc p) = netloc p /\ unbalanced (netloc p) = false.
Proof.
  unfold normalized_components.
  destruct (web_prefixed (strip u)) as (sch & r & Hsch & ->).
  destruct (urlparse ok (sch ++ lit "://" ++ r)) as [q|] eqn:Hq; [|done].
  apply urlparse_web in Hq
    as (Hs & H1 & H2 & H3 & H4 & Hpath & H5 & H6 & H7 & H8 & H9 & H10 & H11 &
        H12 & H13); [|done].
  cbn [mbind option_bind]. intros [= <-].
  fold (strip_default_port (scheme q) (lower (netloc q))).
  split; [split; cbn [scheme netloc path params query fragment]|cbn [netloc]; split].
  - by rewrite Hs.
  - apply strip_default_port_avoids, lower_avoids; [apply lower_char_delim|done].
  - apply strip_default_port_avoids, lower_avoids; [apply lower_char_unsafe|done].
  - destruct Hpath as [[-> _]|Hseg].
    + cbn. split; [by eexists|]. exists [], []. by repeat split; try constructor.
    + destruct (path q) as [|c x]; [by destruct Hseg as [[? ?] _]|done].
  - destruct (path q); [by repeat constructor|done].
  - destruct (path q); [by repeat constructor|done].
  - destruct (path q); [by repeat constructor|done].
  - done.
  - done.
  - done.
  - done.
  - done.
  - done.
  - done.
  - apply strip_default_port_lower, lower_idemp.
  - change (unbalanced (strip_default_port (scheme q) (lower (netloc q))) = false).
    unfold unbalanced in *.
    rewrite !strip_default_port_contains by done.
    by rewrite (contains_lower "[" _ lower_char_open),
               (contains_lower "]" _ lower_char_close).
Qed.


(** ** Unparsing and parsing again *)

(** The text after the scheme separator of an unparsed URL. *)
Definition after_scheme (p : ParseResult) : str :=
  netloc p ++
  (path p ++ (if nonempty (params p) then lit ";" ++ params p else [])) ++
  (if nonempty (query p) then lit "?" ++ query p else []).

Lemma urlunparse_web (p : ParseResult) :
  well_formed p -> empty_authority_before_slashes p = false ->
  urlunparse p = scheme p ++ lit "://" ++ after_scheme p.
Proof.
  intros [Hsch _ _ [[rest Hpath] _] _ _ _ _ _ _ _ _ _ Hfr] He.
  destruct p as [sch nl pth prm q fr]. cbn in Hsch, Hpath, Hfr, He. subst pth fr.
  unfold urlunparse, urlunsplit, after_scheme.
  cbn [scheme netloc path params query fragment nonempty].
  set (url := if nonempty prm then ("/"%char :: rest) ++ lit ";" ++ prm
              else "/"%char :: rest).
  assert (Hurl : url = ("/"%char :: rest) ++
                       (if nonempty prm then lit ";" ++ prm else [])).
  { subst url. destruct prm; cbn [nonempty]; by rewrite ?app_nil_r. }
  assert (Hslash : nonempty url && negb (startswith (lit "/") url) = false).
  { by rewrite Hurl. }
  assert (Hdouble : nl = [] -> startswith (lit "//") url = false).
  { intros ->. cbn in He. rewrite Hurl. destruct rest as [|c rest]; [|exact He].
    by destruct prm. }
  rewrite Hslash.
  assert (Hcond : nonempty nl ||
                  nonempty sch && str_in sch uses_netloc &&
                  negb (startswith (lit "//") url) = true).
  { destruct nl as [|c nl]; [|done]. rewrite Hdouble by done.
    by destruct Hsch as [-> | ->]. }
  rewrite Hcond.
  assert (Hne : nonempty sch = true) by (by destruct Hsch as [-> | ->]).
  rewrite Hne, Hurl. destruct q as [|c q]; cbn [nonempty].
  - rewrite app_nil_r. reflexivity.
  - rewrite <- ?app_assoc. reflexivity.
Qed.


(** Parsing an unparsed URL gives the components back, unless the brackets
    of the authority make [urlsplit] raise. *)
Lemma urlparse_unparsed_cases (ok : str -> bool) (p : ParseResult) :
  well_formed p ->
  urlparse ok (scheme p ++ lit "://" ++ after_scheme p) =
    if unbalanced (netloc p) || bracketed (netloc p) && negb (ok (netloc p))
    then None else Some p.
Proof.
  intros [Hsch Hn1 Hn4 Hseg Hp1 Hp2 Hp3 Hq1 Hq2 Hq3 Hq4 Hr1 Hr2 Hfr].
  destruct p as [sch nl pth prm q fr].
  cbn [scheme netloc path params query fragment] in *. subst fr.
  unfold urlparse. rewrite (urlsplit_web ok sch _ Hsch). cbn zeta.
  unfold after_scheme. cbn [scheme netloc path params query fragment].
  set (pp := if nonempty prm then lit ";" ++ prm else []).
  set (qp := if nonempty q then lit "?" ++ q else []).
  assert (Hpp : forall cls, cls ";"%char = false -> avoids cls prm -> avoids cls pp).
  { intros cls Hc Hcls. subst pp. destruct prm; [constructor|]. cbn [nonempty].
    apply avoids_app. split; [by repeat constructor|done]. }
  assert (Hqp : forall cls, cls "?"%char = false -> avoids cls q -> avoids cls qp).
  { intros cls Hc Hcls. subst qp. destruct q; [constructor|]. cbn [nonempty].
    apply avoids_app. split; [by repeat constructor|done]. }
  rewrite filter_id.
  2:{ repeat (apply avoids_app; split); try done; [by apply Hpp|by apply Hqp]. }
  destruct Hseg as [[rest Hpath] Hlast].
  rewrite break_app; [|done|by rewrite Hpath].
  destruct (unbalanced nl); [done|].
  destruct (bracketed nl && negb (ok nl)); [done|]. cbn [orb].
  rewrite split_once_absent.
  2:{ repeat (apply avoids_app; split); try done; [by apply Hpp|by apply Hqp]. }
  assert (Hquery : split_once "?" ((pth ++ pp) ++ qp) = (pth ++ pp, q)).
  { subst qp. destruct q as [|c q]; cbn [nonempty].
    - rewrite app_nil_r. apply split_once_absent.
      apply avoids_app; split; [done|by apply Hpp].
    - apply split_once_found. apply avoids_app; split; [done|by apply Hpp]. }
  rewrite Hquery. cbn [mbind option_bind].
  assert (Huses : str_in sch uses_params = true) by (by destruct Hsch as [-> | ->]).
  rewrite Huses. cbn [andb].
  assert (Hform : pth ++ pp = if nonempty prm then pth ++ lit ";" ++ prm else pth).
  { subst pp. destruct prm; cbn [nonempty]; by rewrite ?app_nil_r. }
  assert (Hsegd : segmented pth) by (split; [by eexists|done]).
  destruct (splitparams_roundtrip pth prm Hsegd Hq1) as [Hsp | [-> Hno]].
  - assert (Hsp' : _splitparams (pth ++ pp) = (pth, prm)).
    { rewrite Hform. exact Hsp. }
    rewrite Hsp'.
    destruct (contains ";" (pth ++ pp)) eqn:Hc; [done|].
    destruct prm as [|c prm]; [subst pp; by rewrite app_nil_r|].
    subst pp. cbn [nonempty] in Hc. apply contains_false, avoids_app in Hc as [_ Hc].
    by apply avoids_cons in Hc as [? _].
  - subst pp. cbn [nonempty]. rewrite app_nil_r, Hno. done.
Qed.


Lemma urlparse_unparsed (ok : str -> bool) (p : ParseResult) :
  well_formed p -> unbalanced (netloc p) = false ->
  (bracketed (netloc p) = true -> ok (netloc p) = true) ->
  urlparse ok (scheme p ++ lit "://" ++ after_scheme p) = Some p.
Proof.
  intros Hwf Hn2 Hn3. rewrite (urlparse_unparsed_cases ok p Hwf), Hn2.
  destruct (bracketed (netloc p)); [|done]. by rewrite Hn3.
Qed.


(** ** Idempotence *)

(** The normalised components survive a second pass: the interpreter's check
    of a bracketed host lets the normalised authority through, the authority
    does not end in the default port again, it is not empty in front of a
    path that begins with two slashes, and the result does not end in white
    space. *)
Definition stable (ok : str -> bool) (p : ParseResult) : Prop :=
  (bracketed (netloc p) = true -> ok (netloc p) = true) /\
  default_port_left p = false /\
  empty_authority_before_slashes p = false /\
  ends_with_space (urlunparse p) = false.

Lemma normalized_components_fixed (ok : str -> bool) (p : ParseResult) :
  well_formed p -> lower (netloc p) = netloc p ->
  unbalanced (netloc p) = false ->
  stable ok p ->
  normalized_components ok (urlunparse p) = Some p.
Proof.
  intros Hwf Hlow Hbal (Hok & Hport & Hslashes & Hspace).
  pose proof (urlparse_unparsed ok p Hwf Hbal Hok) as Hparse.
  rewrite <- (urlunparse_web p Hwf Hslashes) in Hparse.
  unfold normalized_components.
  assert (Hstrip : strip (urlunparse p) = urlunparse p).
  { rewrite (urlunparse_web p Hwf Hslashes) in *.
    destruct (wf_scheme p Hwf) as [Hs | Hs]; rewrite Hs in *;
      (apply (strip_id "h"); [reflexivity|exact Hspace]). }
  assert (Hpre : startswith (lit "http://") (urlunparse p)
                 || startswith (lit "https://") (urlunparse p) = true).
  { rewrite (urlunparse_web p Hwf Hslashes).
    destruct (wf_scheme p Hwf) as [-> | ->]; reflexivity. }
  rewrite Hstrip, Hpre. cbn [negb]. rewrite Hparse. cbn [mbind option_bind].
  rewrite Hlow. unfold default_port_left in Hport.
  apply orb_false_iff in Hport as [-> ->].
  destruct (wf_path p Hwf) as [[rest Hpath] _]. rewrite Hpath. cbn [nonempty].
  pose proof (wf_fragment _ Hwf) as Hfr.
  destruct p as [sch nl pth prm q fr]. cbn in Hpath, Hfr |- *. by subst.
Qed.

(** C9 (as the code has it), for ASCII text and whatever the interpreter's
    check of bracketed hosts answers.  The empty string is its own normal
    form.  For a non-empty [u], either [urlparse] refuses the authority of
    the stripped and prefixed text and [normalize_url] raises, or
    [normalize_url] returns the unparsed normalised components; and when
    these are stable, normalising the result returns the result. *)
Theorem normalize_url_idempotent (bracketed_netloc_ok : str -> bool) (u : str) :
  isascii u = true ->
  normalize_url bracketed_netloc_ok [] = Some [] /\
  match normalized_components bracketed_netloc_ok u with
  | None => u <> [] -> normalize_url bracketed_netloc_ok u = None
  | Some p =>
      (u <> [] -> normalize_url bracketed_netloc_ok u = Some (urlunparse p)) /\
      (stable bracketed_netloc_ok p ->
       normalize_url bracketed_netloc_ok (urlunparse p) = Some (urlunparse p))
  end.
Proof.
  intros _. split; [done|].
  destruct (normalized_components bracketed_netloc_ok u) as [p|] eqn:Hp.
  - destruct (normalized_components_wf _ u p Hp) as (Hwf & Hlow & Hbal).
    split.
    + intros Hu. unfold normalize_url. rewrite Hp. by destruct u.
    + intros Hst. pose proof Hst as (_ & _ & Hslashes & _).
      assert (Hne : nonempty (urlunparse p) = true).
      { rewrite (urlunparse_web p Hwf Hslashes).
        by destruct (wf_scheme p Hwf) as [-> | ->]. }
      unfold normalize_url.
      by rewrite (normalized_components_fixed _ p Hwf Hlow Hbal Hst), Hne.
  - intros Hu. unfold normalize_url. rewrite Hp. by destruct u.
Qed.


(** An interpreter without a check of bracketed hosts (before 3.11.4). *)
Definition unchecked : str -> bool := fun _ => true.

(** A check that lets the loopback address through and nothing else. *)
Definition loopback_only : str -> bool :=
  fun nl => bool_decide (nl = lit "[::1]" \/ nl = lit "[::1]:80").

(** The cases of [test_normalize_url]. *)
Example normalize_url_tests :
  normalize_url unchecked (lit "example.com") = Some (lit "https://example.com/") /\
  normalize_url unchecked (lit "http://example.com") = Some (lit "http://example.com/") /\
  normalize_url unchecked (lit "https://example.com:443")
    = Some (lit "https://example.com/") /\
  normalize_url unchecked (lit "http://example.com:80")
    = Some (lit "http://example.com/") /\
  normalize_url unchecked (lit "https://EXAMPLE.COM") = Some (lit "https://example.com/") /\
  normalize_url unchecked (lit "https://example.com/page#section")
    = Some (lit "https://example.com/page").
Proof. by vm_compute. Qed.

(** Only one default port is stripped per call: a second call strips the
    next one, so the first result is not a fixed point. *)
Lemma normalize_url_strips_one_port_per_call :
  normalize_url unchecked (lit "http://a:80:80") = Some (lit "http://a:80/") /\
  normalize_url unchecked (lit "http://a:80/") = Some (lit "http://a/") /\
  (normalize_url unchecked (lit "http://a:80:80") ≫= normalize_url unchecked)
    <> normalize_url unchecked (lit "http://a:80:80").
Proof. by vm_compute. Qed.

(** White space is stripped before the fragment is dropped, so dropping the
    fragment can uncover white space that the next call strips. *)
Lemma normalize_url_uncovers_space :
  normalize_url unchecked (lit "http://a/b #top") = Some (lit "http://a/b ") /\
  normalize_url unchecked (lit "http://a/b ") = Some (lit "http://a/b").
Proof. by vm_compute. Qed.

(** An empty authority in front of a path with two leading slashes is
    unparsed as if the path were the authority. *)
Lemma normalize_url_promotes_path :
  normalize_url unchecked (lit "http:////x") = Some (lit "http://x") /\
  normalize_url unchecked (lit "http://x") = Some (lit "http://x/").
Proof. by vm_compute. Qed.

(** A bracketed host is normalised like any other, and an authority with
    one bracket only, or with a host the interpreter refuses, makes
    [normalize_url] raise. *)
Example normalize_url_bracketed_hosts :
  normalize_url loopback_only (lit "http://[::1]:80/x") = Some (lit "http://[::1]/x") /\
  normalize_url loopback_only (lit "http://[::1]/x") = Some (lit "http://[::1]/x") /\
  normalize_url loopback_only (lit "http://[::1/x") = None /\
  normalize_url loopback_only (lit "http://[::g]/x") = None /\
  normalize_url unchecked (lit "http://[::g]/x") = Some (lit "http://[::g]/x").
Proof. by vm_compute. Qed.

(** The theorem at http://[::1]:80/x#top, the interpreter accepting the
    loopback address. *)
Lemma normalize_url_idempotent_witness :
  let u := lit "http://[::1]:80/x#top" in
  let v := lit "http://[::1]/x" in
  isascii u = true /\
  normalize_url loopback_only u = Some v /\
  normalize_url loopback_only v = Some v.
Proof.
  cbv zeta. split; [reflexivity|].
  pose proof (normalize_url_idempotent loopback_only
                (lit "http://[::1]:80/x#top") eq_refl) as [_ H].
  assert (Hc : normalized_components loopback_only (lit "http://[::1]:80/x#top") =
               Some {| scheme := lit "http"; netloc := lit "[::1]";
                       path := lit "/x"; params := []; query := [];
                       fragment := [] |}) by reflexivity.
  rewrite Hc in H. destruct H as [H1 H2]. split.
  - apply H1. discriminate.
  - apply H2. repeat split; reflexivity.
Defined.

End URLTheory.

Module ReplayTheory.
Import HA.

(** An operation of the replication log as [add_sync_operation] builds it. *)
Definition replicated (ty : OpType) (table : string) (d : Payload) : SyncOperation :=
  {| operation_id := (0, ""); timestamp := 0; operation_type := ty;
     table_name := table; data := d; source_node := ""; target_nodes := [];
     status := pending |}.




Definition one_row : Table :=
  {| rows := {[ 4 := {[ "url" := PyStr "a" ]} ]}; last_value := 4 |}.

(** An INSERT of image 7, a DELETE of image 4 and an UPDATE of its url all
    fail on a table that holds image 4 only. *)
Example replicated_operations_fail :
  let run ty d := _execute_sync_operation_on_node (replicated ty "images" d) one_row in
  run INSERT {[ "id" := PyInt 7; "url" := PyStr "b" ]} = (false, one_row) /\
  run DELETE {[ "id" := PyInt 4 ]} = (false, one_row) /\
  run UPDATE {[ "id" := PyInt 4; "url" := PyStr "b" ]} = (false, one_row) /\
  run UPDATE {[ "id" := PyInt 4 ]} = (true, one_row).
Proof. by vm_compute. Qed.

End ReplayTheory.

Module StableTheory.
Import HA.

(** The count [_get_database_stats] reports for a table of a database in
    which no query fails: the number of rows of a mapped table, and 0 for any
    other table. *)
Definition reported (db : Database) (table : string) : Z :=
  if supported_table table
  then match db !! table with Some t => count t | None => 0 end
  else 0.

Lemma stats_fold_present (db : Database) (tables : list string)
    (acc : gmap string Z) :
  (forall table, table ∈ tables -> is_Some (db !! table)) ->
  foldl (fun '(stats, aborted) table =>
           if supported_table table then
             if (aborted : bool) then (<[table := 0]> stats, true)
             else match db !! table with
                  | Some t => (<[table := count t]> stats, false)
                  | None => (<[table := 0]> stats, true)
                  end
           else (<[table := 0]> stats, aborted))
        (acc, false) tables =
  (foldl (fun stats table => <[table := reported db table]> stats) acc tables, false).
Proof.
  revert acc. induction tables as [|x tables IH]; intros acc Hall; [done|].
  cbn [foldl]. destruct (Hall x ltac:(by left)) as [t Ht].
  unfold reported at 2. rewrite Ht.
  destruct (supported_table x); apply IH; intros ? ?; apply Hall; by right.
Qed.

Lemma stats_fold (db : Database) (tables : list string) (acc : gmap string Z)
    (table : string) :
  foldl (fun stats table => <[table := reported db table]> stats) acc tables !! table =
  if bool_decide (table ∈ tables) then Some (reported db table) else acc !! table.
Proof.
  revert acc. induction tables as [|x tables IH]; intros acc; [done|].
  cbn [foldl]. rewrite IH.
  destruct (decide (table ∈ tables)) as [Hin|Hnin].
  - rewrite !bool_decide_eq_true_2; [done|by right|done].
  - rewrite (bool_decide_eq_false_2 _ Hnin).
    destruct (decide (table = x)) as [->|Hne].
    + rewrite lookup_insert_eq, bool_decide_eq_true_2; [done|by left].
    + rewrite lookup_insert_ne by done.
      rewrite bool_decide_eq_false_2; [done|].
      intros Hc. apply elem_of_cons in Hc as [?|?]; done.
Qed.

(** The tables to synchronise are all there on [node]. *)
Definition tables_present (m : Manager) (node : string) : Prop :=
  forall table, table ∈ sync_tables m -> is_Some (get_table m node table).

Lemma database_stats_lookup (m : Manager) (node table : string)
    (stats : gmap string Z) (t : Table) :
  _get_database_stats m node = Some stats ->
  tables_present m node ->
  table ∈ sync_tables m ->
  get_table m node table = Some t ->
  stats !! table = Some (if supported_table table then count t else 0).
Proof.
  unfold _get_database_stats. intros Hs Hall Hin Ht.
  apply SyncTheory.get_table_Some in Ht as (db & Hdb & Ht).
  rewrite Hdb in Hs. cbn [mbind option_bind] in Hs. injection Hs as <-.
  rewrite stats_fold_present.
  - cbn [fst]. rewrite stats_fold, bool_decide_eq_true_2 by done.
    unfold reported. by rewrite Ht.
  - intros x Hx. destruct (Hall x Hx) as [tx Htx].
    apply SyncTheory.get_table_Some in Htx as (db' & Hdb' & Htx).
    rewrite Hdb in Hdb'. injection Hdb' as <-. by eexists.
Qed.

(** Two tables with the same rows. *)
Definition same_rows (m : Manager) (P S table : string) : Prop :=
  exists pt st, get_table m P table = Some pt /\ get_table m S table = Some st /\
                rows pt = rows st.

Lemma same_rows_latest (n : nat) (pt st : Table) :
  rows pt = rows st -> latest_records n pt = latest_records n st.
Proof. unfold latest_records. by intros ->. Qed.

Lemma same_rows_id_range (pt st : Table) :
  rows pt = rows st -> id_range pt = id_range st.
Proof. unfold id_range, ids. by intros ->. Qed.

Lemma same_rows_count (pt st : Table) :
  rows pt = rows st -> count pt = count st.
Proof. unfold count. by intros ->. Qed.

Lemma sets_differ_refl {A} `{EqDecision A} (l : list A) : sets_differ l l = false.
Proof.
  unfold sets_differ. rewrite bool_decide_eq_true_2; [done|].
  split; by apply Forall_forall.
Qed.

Lemma deep_check_agreeing (m : Manager) (P S : string)
    (primary_stats secondary_stats : gmap string Z) :
  _get_database_stats m P = Some primary_stats ->
  _get_database_stats m S = Some secondary_stats ->
  (forall table, table ∈ sync_tables m -> same_rows m P S table) ->
  _deep_check_data_consistency m P S primary_stats secondary_stats = [].
Proof.
  intros Hp Hs Hall. unfold _deep_check_data_consistency.
  assert (HP : tables_present m P).
  { intros table Hin. destruct (Hall table Hin) as (pt & _ & -> & _). by eexists. }
  assert (HS : tables_present m S).
  { intros table Hin. destruct (Hall table Hin) as (_ & st & _ & -> & _). by eexists. }
  assert (Hgen : forall tables acc,
            (forall table, table ∈ tables -> table ∈ sync_tables m) ->
            foldl (fun inconsistencies table =>
                     let primary_count := default 0 (primary_stats !! table) in
                     let secondary_count := default 0 (secondary_stats !! table) in
                     if bool_decide (primary_count <> secondary_count) then
                       inconsistencies ++ [CountMismatch table primary_count secondary_count]
                     else
                       let i1 :=
                         if 0 <? primary_count
                         then option_list (_check_latest_records_consistency m P S table)
                         else [] in
                       let i2 := option_list (_check_id_range_consistency m P S table) in
                       inconsistencies ++ i1 ++ i2) acc tables = acc).
  { induction tables as [|table tables IH]; intros acc Hsub; [done|].
    cbn [foldl]. rewrite IH by (intros ? ?; apply Hsub; by right).
    destruct (Hall table (Hsub table ltac:(by left))) as (pt & st & Hpt & Hst & Hrows).
    rewrite (database_stats_lookup m P table _ pt Hp HP (Hsub table ltac:(by left)) Hpt).
    rewrite (database_stats_lookup m S table _ st Hs HS (Hsub table ltac:(by left)) Hst).
    cbn [default from_option id]. cbn zeta.
    rewrite (same_rows_count _ _ Hrows).
    rewrite bool_decide_eq_false_2 by (intros Hc; by apply Hc).
    unfold _check_latest_records_consistency, _check_id_range_consistency.
    rewrite Hpt, Hst, (same_rows_latest 5 _ _ Hrows), sets_differ_refl.
    rewrite (same_rows_id_range _ _ Hrows), bool_decide_eq_true_2 by done.
    cbn. destruct (0 <? _); by rewrite ?app_nil_r. }
  by apply Hgen.
Qed.

Lemma different_ids_same_rows (pt st : Table) :
  rows pt = rows st -> different_ids pt st = [].
Proof.
  intros Hrows. unfold different_ids. rewrite (same_rows_latest 10 _ _ Hrows).
  destruct (filter _ _) as [|r l] eqn:Hf; [done|].
  assert (Hr : r ∈ r :: l) by (by left).
  rewrite <- Hf in Hr. by apply list_elem_of_filter in Hr as [Hnot Hin].
Qed.

Lemma content_sync_same_rows (accepts : Verdict) (m : Manager) (P S table : string) :
  current_primary m = Some P -> same_rows m P S table ->
  _sync_table_content_differences accepts table S m = (0, m).
Proof.
  intros Hp (pt & st & Hpt & Hst & Hrows).
  unfold _sync_table_content_differences.
  by rewrite Hp, Hpt, Hst, (different_ids_same_rows _ _ Hrows).
Qed.

Lemma sync_table_same_rows (accepts : Verdict) (m : Manager) (P S table : string)
    (primary_stats secondary_stats : gmap string Z) :
  current_primary m = Some P ->
  _get_database_stats m P = Some primary_stats ->
  _get_database_stats m S = Some secondary_stats ->
  tables_present m P -> tables_present m S ->
  table ∈ sync_tables m -> same_rows m P S table ->
  sync_table accepts S primary_stats secondary_stats table m = (0, m).
Proof.
  intros Hp Hps Hss HP HS Hin Hsame. unfold sync_table, select_direction.
  destruct Hsame as (pt & st & Hpt & Hst & Hrows).
  rewrite (database_stats_lookup m P table _ pt Hps HP Hin Hpt).
  rewrite (database_stats_lookup m S table _ st Hss HS Hin Hst).
  rewrite (same_rows_count _ _ Hrows), Z.ltb_irrefl.
  destruct (0 <? _); [|done].
  apply (content_sync_same_rows accepts m P); [done|]. by exists pt, st.
Qed.

(** The nodes [_check_and_sync_data] reconciles with the primary. *)
Definition secondary_nodes (m : Manager) : list string :=
  map name (filter (fun n => role n = SECONDARY /\ name n <> local_node_name m)
                   (nodes m)).

(** X3: A reconciliation pass over replicas that agree is idle.  When every
    secondary peer holds, for every synchronised table, the same rows as the
    primary, [_check_and_sync_data] changes nothing, and so does the periodic
    loop apart from its time stamp; even called directly on the counts of
    the two nodes, [_sync_bidirectional_data] copies no row. *)
Theorem reconciliation_of_equal_replicas_is_idle (accepts : Verdict)
    (m : Manager) (P : string) :
  current_primary m = Some P ->
  (forall S table, S ∈ secondary_nodes m -> table ∈ sync_tables m ->
                   same_rows m P S table) ->
  _check_and_sync_data accepts m = m /\
  (forall now, _full_sync_loop accepts now m = m \/
               _full_sync_loop accepts now m = with_last_full_sync now m) /\
  (forall S primary_stats secondary_stats,
     S ∈ secondary_nodes m ->
     _get_database_stats m P = Some primary_stats ->
     _get_database_stats m S = Some secondary_stats ->
     _sync_bidirectional_data accepts S primary_stats secondary_stats m = (0, m)).
Proof.
  intros Hp Hall.
  assert (Hnode : forall S primary_stats,
            S ∈ secondary_nodes m ->
            _get_database_stats m P = Some primary_stats ->
            check_and_sync_node accepts P primary_stats m S = m).
  { intros S primary_stats HS Hps. unfold check_and_sync_node.
    destruct (_get_database_stats m S) as [secondary_stats|] eqn:Hss; [|done].
    cbn [truthy_stats]. case_bool_decide; [done|].
    by rewrite (deep_check_agreeing m P S _ _ Hps Hss (fun t => Hall S t HS)). }
  assert (Hfold : forall primary_stats l,
            _get_database_stats m P = Some primary_stats ->
            (forall S, S ∈ l -> S ∈ secondary_nodes m) ->
            foldl (check_and_sync_node accepts P primary_stats) m l = m).
  { intros primary_stats l Hps. induction l as [|S l IH]; intros Hsub; [done|].
    cbn [foldl]. rewrite Hnode; [|apply Hsub; by left|done].
    apply IH. intros ? ?. apply Hsub. by right. }
  assert (Hcheck : _check_and_sync_data accepts m = m).
  { unfold _check_and_sync_data. fold (secondary_nodes m). rewrite Hp.
    destruct (_get_database_stats m P) as [primary_stats|] eqn:Hps;
      [|by destruct (secondary_nodes m)].
    cbn [truthy_stats]. case_bool_decide; [by destruct (secondary_nodes m)|].
    rewrite (Hfold primary_stats _ eq_refl) by done.
    by destruct (secondary_nodes m). }
  split; [exact Hcheck|]. split.
  - intros now. unfold _full_sync_loop.
    destruct (_ <=? _); [|by left].
    case_bool_decide; [|by left]. right. by rewrite Hcheck.
  - intros S primary_stats secondary_stats HS Hps Hss.
    unfold _sync_bidirectional_data.
    assert (HP : tables_present m P).
    { intros table Hin. destruct (Hall S table HS Hin) as (pt & _ & -> & _). by eexists. }
    assert (HSp : tables_present m S).
    { intros table Hin. destruct (Hall S table HS Hin) as (_ & st & _ & -> & _). by eexists. }
    assert (Htables : forall l, (forall t, t ∈ l -> t ∈ sync_tables m) ->
              foldl (fun '(total_synced, m1) table =>
                       let '(synced_count, m2) :=
                         sync_table accepts S primary_stats secondary_stats table m1 in
                       (total_synced + synced_count, m2)) (0, m) l = (0, m)).
    { induction l as [|t l IH]; intros Hsub; [done|].
      cbn [foldl].
      rewrite (sync_table_same_rows accepts m P S t _ _ Hp Hps Hss HP HSp
                 (Hsub t ltac:(by left)) (Hall S t HS (Hsub t ltac:(by left)))).
      cbn. apply IH. intros ? ?. apply Hsub. by right. }
    by apply Htables.
Qed.

(** Two nodes that hold the same three images and no category. *)
Definition level_cluster : Manager :=
  with_session_makers
    {[ "primary" :=
         {[ "images" := SyncTheory.images_table [1; 2; 3] 4;
            "categories" := SyncTheory.images_table [] 1 ]};
       "secondary1" :=
         {[ "images" := SyncTheory.images_table [1; 2; 3] 3;
            "categories" := SyncTheory.images_table [] 0 ]} ]}
    (HATheory.small_cluster 1000).

Lemma reconciliation_of_equal_replicas_is_idle_witness :
  _check_and_sync_data SyncTheory.permissive level_cluster = level_cluster /\
  (forall now, _full_sync_loop SyncTheory.permissive now level_cluster = level_cluster \/
               _full_sync_loop SyncTheory.permissive now level_cluster =
                 with_last_full_sync now level_cluster) /\
  (forall S primary_stats secondary_stats,
     S ∈ secondary_nodes level_cluster ->
     _get_database_stats level_cluster "primary" = Some primary_stats ->
     _get_database_stats level_cluster S = Some secondary_stats ->
     _sync_bidirectional_data SyncTheory.permissive S primary_stats secondary_stats
       level_cluster = (0, level_cluster)).
Proof.
  apply (reconciliation_of_equal_replicas_is_idle SyncTheory.permissive
           level_cluster "primary");
    [reflexivity|].
  intros S table HS Ht.
  change (secondary_nodes level_cluster) with ["secondary1"] in HS.
  change (sync_tables level_cluster) with ["images"; "categories"] in Ht.
  apply list_elem_of_singleton in HS as ->.
  apply elem_of_cons in Ht as [->|Ht];
    [|apply list_elem_of_singleton in Ht as ->].
  - exists (SyncTheory.images_table [1; 2; 3] 4),
           (SyncTheory.images_table [1; 2; 3] 3). by vm_compute.
  - exists (SyncTheory.images_table [] 1), (SyncTheory.images_table [] 0).
    by vm_compute.
Defined.

End StableTheory.

Module LevelTheory.
Import HA.

(** The secondary's table holds exactly the rows of the primary's table up
    to its own highest id: it is the primary's table with its newest rows
    missing. *)
Definition lags_behind (st pt : Table) : Prop :=
  forall k, is_Some (rows st !! k) <->
            is_Some (rows pt !! k) /\ k <= coalesce_max_id st.

(** The count deficit of a lagging table is the number of rows above its
    highest id. *)
Lemma lagging_deficit (st pt : Table) :
  lags_behind st pt ->
  Z.of_nat (length (filter (fun r : Z * Payload => coalesce_max_id st < r.1)
                           (map_to_list (rows pt)))) = count pt - count st.
Proof.
  intros Hlag. set (mx := coalesce_max_id st). set (l := map_to_list (rows pt)).
  pose proof (filter_app_complement (fun r : Z * Payload => mx < r.1) l) as Hperm.
  apply Permutation_length in Hperm. rewrite length_app in Hperm.
  assert (Hlow : length (filter (fun r : Z * Payload => ~ mx < r.1) l)
                 = size (rows st)).
  { rewrite <- (length_map_to_list (rows st)), <- (length_fmap fst),
      <- (length_fmap fst (map_to_list (rows st))).
    apply Permutation_length, NoDup_Permutation.
    - eapply sublist_NoDup; [apply (NoDup_fst_map_to_list (rows pt))|].
      apply fmap_sublist, sublist_filter.
    - apply NoDup_fst_map_to_list.
    - intros k. fold (ids st). rewrite SyncTheory.elem_of_ids, (Hlag k).
      rewrite list_elem_of_fmap. split.
      + intros ([k' r] & -> & Hin). apply list_elem_of_filter in Hin as [Hle Hin].
        apply elem_of_map_to_list in Hin. cbn in *. split; [by eexists|].
        fold mx. lia.
      + intros [[r Hr] Hle]. exists (k, r). split; [done|].
        apply list_elem_of_filter. split; [cbn; fold mx in Hle; lia|].
        by apply elem_of_map_to_list. }
  unfold count. subst l. rewrite length_map_to_list in Hperm. lia.
Qed.

(** X4: One forward copy levels a lagging secondary whose database accepts
    the rows.  When the secondary's table is the primary's with its newest
    rows missing and the secondary's database lets every statement of the
    copy through, copying with the count deficit as limit copies exactly the
    missing rows: afterwards the secondary holds a row for the same ids as
    the primary, the new rows are the primary's rows as serialised, the rows
    it had are untouched, and the counts are equal.  When the database
    refuses a statement, the secondary's rows are what they were. *)
Theorem forward_copy_levels_lagging_secondary (accepts : Verdict) (m : Manager)
    (P S table : string) (sdb : Database) (pt st : Table) :
  current_primary m = Some P ->
  supported_table table = true ->
  get_table m P table = Some pt ->
  session_makers m !! S = Some sdb -> sdb !! table = Some st ->
  lags_behind st pt ->
  let copied := records_above_id pt (coalesce_max_id st) (count pt - count st) in
  let '(n, m') := _sync_table_missing_records accepts table S (count pt - count st) m in
  exists st',
    get_table m' S table = Some st' /\
    (SyncTheory.statements_accepted accepts S sdb table copied st ->
       n = count pt - count st /\
       (forall k, is_Some (rows st' !! k) <-> is_Some (rows pt !! k)) /\
       (forall k r, rows pt !! k = Some r -> coalesce_max_id st < k ->
          rows st' !! k = Some (SyncTheory.exported_row table (k, r))) /\
       (forall k, k <= coalesce_max_id st -> rows st' !! k = rows st !! k) /\
       count st' = count pt) /\
    (~ SyncTheory.statements_accepted accepts S sdb table copied st ->
       0 <= n <= count pt - count st /\ rows st' = rows st).
Proof.
  intros Hp Hsup Hpt Hsdb Hst Hlag.
  apply SyncTheory.get_table_Some in Hpt as (pdb & Hpdb & Hpt).
  rewrite (SyncTheory.sync_missing_eq accepts m P S table _ pdb sdb pt st
             Hp Hpdb Hpt Hsdb Hst Hsup).
  cbn zeta.
  pose proof (lagging_deficit st pt Hlag) as Hdef.
  set (d := count pt - count st) in *.
  pose proof (SyncTheory.apply_bulk_rows accepts S sdb table pt st d) as Hok.
  destruct (SyncTheory.apply_bulk_spec accepts S sdb table
              (records_above_id pt (coalesce_max_id st) d) st) as (Hb & _ & Hrej & _).
  destruct (SyncTheory.records_above_id_spec pt (coalesce_max_id st) d)
    as (Hin & _ & _ & _).
  cbn zeta in Hok.
  set (copied := records_above_id pt (coalesce_max_id st) d) in *.
  set (st' := (apply_bulk accepts S sdb table copied st).2) in *.
  assert (Hlen : Z.of_nat (length copied) = d).
  { subst copied. unfold records_above_id.
    rewrite length_take, sort_by_key_length. lia. }
  exists st'. split; [apply SyncTheory.get_put_same; by eexists|]. split.
  2:{ intros Hno. split; [lia|by apply Hrej]. }
  intros Hacc. destruct (Hok Hacc) as (Hn & Hcopied & Hother).
  assert (Hall : forall k r, rows pt !! k = Some r -> coalesce_max_id st < k ->
                             (k, r) ∈ copied).
  { intros k r Hk Hlt. apply SyncTheory.records_above_id_complete; [lia|done|done]. }
  assert (Hlow : forall k, k <= coalesce_max_id st -> rows st' !! k = rows st !! k).
  { intros k Hk. apply Hother. intros r Hr <-. destruct (Hin r Hr). lia. }
  assert (Hdom : forall k, is_Some (rows st' !! k) <-> is_Some (rows pt !! k)).
  { intros k. destruct (Z.le_gt_cases k (coalesce_max_id st)) as [Hle|Hgt].
    - rewrite Hlow by done. rewrite (Hlag k). tauto.
    - split.
      + intros Hk. destruct (decide (k ∈ copied.*1)) as [Hc|Hc].
        * apply list_elem_of_fmap in Hc as (r & -> & Hr).
          destruct (Hin r Hr) as [Hrow _]. by eexists.
        * rewrite Hother in Hk.
          -- apply Hlag in Hk as [_ ?]. lia.
          -- intros r Hr <-. apply Hc. apply list_elem_of_fmap. by exists r.
      + intros [r Hr]. specialize (Hall k r Hr Hgt).
        pose proof (Hcopied (k, r) Hall) as Hc. cbn [fst] in Hc.
        rewrite Hc. by eexists. }
  split; [lia|]. split; [exact Hdom|split; [|split]].
  - intros k r Hk Hlt. by apply (Hcopied (k, r)), Hall.
  - exact Hlow.
  - unfold count. f_equal. rewrite <- !size_dom. f_equal.
    apply set_eq. intros k. by rewrite !elem_of_dom.
Qed.

(** The theorem at the diverged cluster and a database that refuses
    nothing: the primary holds images 1 to 5, the secondary images 1 to 3. *)
Lemma forward_copy_levels_lagging_secondary_witness :
  let pt := SyncTheory.images_table [1; 2; 3; 4; 5] 5 in
  let st := SyncTheory.images_table [1; 2; 3] 3 in
  let res := _sync_table_missing_records SyncTheory.permissive "images" "secondary1"
               (count pt - count st) SyncTheory.diverged_cluster in
  res.1 = count pt - count st /\
  exists st',
    get_table res.2 "secondary1" "images" = Some st' /\
    (forall k, is_Some (rows st' !! k) <-> is_Some (rows pt !! k)) /\
    count st' = count pt.
Proof.
  cbv zeta.
  pose proof (forward_copy_levels_lagging_secondary SyncTheory.permissive
                SyncTheory.diverged_cluster "primary" "secondary1" "images"
                {[ "images" := SyncTheory.images_table [1; 2; 3] 3 ]}
                (SyncTheory.images_table [1; 2; 3; 4; 5] 5)
                (SyncTheory.images_table [1; 2; 3] 3)
                eq_refl eq_refl eq_refl eq_refl eq_refl) as H.
  cbv zeta in H.
  destruct (_sync_table_missing_records SyncTheory.permissive "images" "secondary1"
              _ SyncTheory.diverged_cluster) as [n m'].
  destruct H as (st' & Hget & Hok & _).
  - intros k.
    change (coalesce_max_id (SyncTheory.images_table [1; 2; 3] 3)) with 3.
    unfold SyncTheory.images_table. cbn [rows map list_to_map foldr uncurry fst snd].
    rewrite !lookup_insert_is_Some, lookup_empty, is_Some_alt. lia.
  - destruct Hok as (Hn & Hdom & _ & _ & Hcount); [by intros i r Hr|].
    split; [exact Hn|]. exists st'. split; [exact Hget|]. split; [exact Hdom|exact Hcount].
Defined.

(** With the UNIQUE constraint on [md5_hash] and a secondary whose image 2
    has the content of the primary's image 5, the copy of images 4 and 5
    leaves the secondary as it was. *)
Example clashing_copy_levels_nothing :
  let res := _sync_table_missing_records SyncTheory.unique_md5_hash "images"
               "secondary1" 2 SyncTheory.clashing_cluster in
  res.1 = 1 /\
  SyncTheory.holds (get_table res.2 "secondary1" "images")
    (SyncTheory.hashed_table [(1, "h1"); (2, "h5"); (3, "h3")] 4) = true /\
  (HA.count <$> get_table res.2 "secondary1" "images") = Some 3.
Proof. vm_compute. repeat split. Qed.

End LevelTheory.

Module DeepCheckTheory.
Import HA.

(** What the deep check adds for one table. *)
Definition table_findings (m : Manager) (P S : string)
    (primary_stats secondary_stats : gmap string Z) (table : string)
  : list Inconsistency :=
  let primary_count := default 0 (primary_stats !! table) in
  let secondary_count := default 0 (secondary_stats !! table) in
  if bool_decide (primary_count <> secondary_count) then
    [CountMismatch table primary_count secondary_count]
  else
    (if 0 <? primary_count
     then option_list (_check_latest_records_consistency m P S table)
     else []) ++
    option_list (_check_id_range_consistency m P S table).

Lemma deep_check_concat (m : Manager) (P S : string)
    (primary_stats secondary_stats : gmap string Z) :
  _deep_check_data_consistency m P S primary_stats secondary_stats =
    concat (map (table_findings m P S primary_stats secondary_stats)
                (sync_tables m)).
Proof.
  unfold _deep_check_data_consistency.
  enough (Hgen : forall tables acc,
            foldl (fun inconsistencies table =>
                     let primary_count := default 0 (primary_stats !! table) in
                     let secondary_count := default 0 (secondary_stats !! table) in
                     if bool_decide (primary_count <> secondary_count) then
                       inconsistencies ++
                       [CountMismatch table primary_count secondary_count]
                     else
                       let i1 :=
                         if 0 <? primary_count
                         then option_list
                                (_check_latest_records_consistency m P S table)
                         else [] in
                       let i2 :=
                         option_list (_check_id_range_consistency m P S table) in
                       inconsistencies ++ i1 ++ i2) acc tables =
            acc ++ concat (map (table_findings m P S primary_stats secondary_stats)
                               tables)) by apply Hgen.
  induction tables as [|table tables IH]; intros acc.
  - cbn. by rewrite app_nil_r.
  - cbn [foldl map concat]. rewrite IH. unfold table_findings. cbn zeta.
    case_bool_decide; by rewrite <- ?app_assoc.
Qed.

Lemma sets_differ_false {A} `{EqDecision A} (a b : list A) :
  sets_differ a b = false <-> forall x, x ∈ a <-> x ∈ b.
Proof.
  unfold sets_differ. rewrite negb_false_iff, bool_decide_eq_true.
  rewrite !Forall_forall. split.
  - intros [H1 H2] x. split; [apply H1|apply H2].
  - intros H. split; intros x Hx; by apply H.
Qed.

(** The two nodes agree on a table as far as the deep check looks: same
    number of rows, same smallest and largest id, and, when the table is not
    empty, the same (id, updated_at) pairs among the five newest rows. *)
Definition agree_at_a_glance (pt st : Table) : Prop :=
  count pt = count st /\
  id_range pt = id_range st /\
  (0 < count pt ->
   forall r, r ∈ latest_records 5 pt <-> r ∈ latest_records 5 st).

(** X5: When the synchronised tables are among the four mapped ones and
    present on both nodes, and the counts are those [_get_database_stats]
    reads, the deep check reports nothing exactly when the two nodes agree at
    a glance on every synchronised table. *)
Theorem deep_check_is_silent_iff (m : Manager) (P S : string)
    (primary_stats secondary_stats : gmap string Z) :
  _get_database_stats m P = Some primary_stats ->
  _get_database_stats m S = Some secondary_stats ->
  (forall table, table ∈ sync_tables m -> supported_table table = true) ->
  (forall table, table ∈ sync_tables m ->
     is_Some (get_table m P table) /\ is_Some (get_table m S table)) ->
  _deep_check_data_consistency m P S primary_stats secondary_stats = [] <->
  forall table pt st,
    table ∈ sync_tables m ->
    get_table m P table = Some pt -> get_table m S table = Some st ->
    agree_at_a_glance pt st.
Proof.
  intros Hps Hss Hmapped Hpresent. rewrite deep_check_concat.
  assert (HP : StableTheory.tables_present m P) by (intros t Ht; by apply Hpresent).
  assert (HS : StableTheory.tables_present m S) by (intros t Ht; by apply Hpresent).
  assert (Hone : forall table pt st,
            table ∈ sync_tables m ->
            get_table m P table = Some pt -> get_table m S table = Some st ->
            table_findings m P S primary_stats secondary_stats table = [] <->
            agree_at_a_glance pt st).
  { intros table pt st Hin Hpt Hst. unfold table_findings, agree_at_a_glance.
    rewrite (StableTheory.database_stats_lookup m P table _ pt Hps HP Hin Hpt).
    rewrite (StableTheory.database_stats_lookup m S table _ st Hss HS Hin Hst).
    rewrite (Hmapped table Hin).
    cbn [default from_option id]. cbn zeta.
    unfold _check_latest_records_consistency, _check_id_range_consistency.
    rewrite Hpt, Hst.
    case_bool_decide as Hc; [split; [done|]; by intros [? _]|].
    destruct (sets_differ (latest_records 5 pt) (latest_records 5 st)) eqn:Hl;
      destruct (Z.ltb_spec 0 (count pt)) as [Hpos|Hpos];
      case_bool_decide as Hr; cbn; split; try done.
    all: try (intros (_ & ? & _); done).
    - intros (_ & _ & Hlatest). specialize (Hlatest Hpos).
      apply sets_differ_false in Hlatest. congruence.
    - intros _. split; [done|]. split; [done|]. intros; lia.
    - intros _. split; [done|]. split; [done|]. intros _.
      by apply sets_differ_false.
    - intros _. split; [done|]. split; [done|]. intros; lia. }
  split.
  - intros Hnil table pt st Hin Hpt Hst. apply (Hone table pt st Hin Hpt Hst).
    clear Hone Hpt Hst. revert Hnil Hin.
    generalize (sync_tables m). intros ts.
    induction ts as [|t ts IH]; intros Hnil Hin; [by apply elem_of_nil in Hin|].
    cbn [map concat] in Hnil. apply app_eq_nil in Hnil as [H1 H2].
    apply elem_of_cons in Hin as [->|Hin]; [done|]. by apply IH.
  - intros Hall.
    assert (Hgen : forall ts, (forall t, t ∈ ts -> t ∈ sync_tables m) ->
              concat (map (table_findings m P S primary_stats secondary_stats) ts)
                = []).
    { induction ts as [|t ts IH]; intros Hsub; [done|].
      cbn [map concat]. rewrite IH by (intros ? ?; apply Hsub; by right).
      rewrite app_nil_r.
      destruct (Hpresent t (Hsub t ltac:(by left))) as [[pt Hpt] [st Hst]].
      apply (Hone t pt st (Hsub t ltac:(by left)) Hpt Hst).
      by apply (Hall t pt st (Hsub t ltac:(by left))). }
    by apply Hgen.
Qed.

(** The theorem at two nodes that hold the same three images. *)
Lemma deep_check_is_silent_iff_witness :
  let m := StableTheory.level_cluster in
  _deep_check_data_consistency m "primary" "secondary1"
    {[ "images" := 3; "categories" := 0 ]}
    {[ "images" := 3; "categories" := 0 ]} = [] <->
  forall table pt st,
    table ∈ sync_tables m ->
    get_table m "primary" table = Some pt ->
    get_table m "secondary1" table = Some st ->
    agree_at_a_glance pt st.
Proof.
  apply (deep_check_is_silent_iff StableTheory.level_cluster
           "primary" "secondary1"); [by vm_compute|by vm_compute| |].
  { intros table Ht.
    change (sync_tables StableTheory.level_cluster)
      with ["images"; "categories"] in Ht.
    apply elem_of_cons in Ht as [->|Ht];
      [|apply list_elem_of_singleton in Ht as ->]; reflexivity. }
  intros table Ht.
  change (sync_tables StableTheory.level_cluster)
    with ["images"; "categories"] in Ht.
  apply elem_of_cons in Ht as [->|Ht];
    [|apply list_elem_of_singleton in Ht as ->]; split; by eexists.
Defined.

(** A table outside the four mapped ones is counted as 0 on both nodes, so
    that the check compares its id ranges only: the two nodes below differ in
    the rows of [audit_log] (three against two) and the check is silent. *)
Definition unmapped_cluster : Manager :=
  {| nodes := nodes (HATheory.small_cluster 1000);
     local_node_name := "primary";
     current_primary := Some "primary";
     sync_queue := [];
     max_queue_size := 1000;
     full_sync_interval := 300;
     last_full_sync := 0;
     sync_tables := ["audit_log"];
     session_makers :=
       {[ "primary" := {[ "audit_log" := SyncTheory.images_table [1; 2; 3] 3 ]};
          "secondary1" := {[ "audit_log" := SyncTheory.images_table [1; 3] 3 ]} ]} |}.

Example unmapped_table_is_not_counted :
  _get_database_stats unmapped_cluster "primary" = Some {[ "audit_log" := 0 ]} /\
  _get_database_stats unmapped_cluster "secondary1" = Some {[ "audit_log" := 0 ]} /\
  _deep_check_data_consistency unmapped_cluster "primary" "secondary1"
    {[ "audit_log" := 0 ]} {[ "audit_log" := 0 ]} = [].
Proof. by vm_compute. Qed.

End DeepCheckTheory.

Module SessionTheory.
Import HA.

















End SessionTheory.

Module DrainTheory.
Import HA.

(** [m'] differs from [m] at most in the databases behind the session
    makers. *)
Definition same_registry (m m' : Manager) : Prop :=
  nodes m' = nodes m /\ local_node_name m' = local_node_name m /\
  current_primary m' = current_primary m /\ sync_queue m' = sync_queue m /\
  max_queue_size m' = max_queue_size m /\
  full_sync_interval m' = full_sync_interval m /\
  last_full_sync m' = last_full_sync m /\ sync_tables m' = sync_tables m.

Lemma same_registry_refl (m : Manager) : same_registry m m.
Proof. by repeat split. Qed.

Lemma same_registry_trans (m1 m2 m3 : Manager) :
  same_registry m1 m2 -> same_registry m2 m3 -> same_registry m1 m3.
Proof.
  intros (?&?&?&?&?&?&?&?) (?&?&?&?&?&?&?&?). repeat split; congruence.
Qed.

Lemma put_table_registry (node table : string) (t : Table) (m : Manager) :
  same_registry m (put_table node table t m).
Proof. unfold put_table. destruct (session_makers m !! node); by repeat split. Qed.

(** One request: only the target's table of the operation can change, and it
    becomes what executing the operation on it gives. *)
Lemma send_sync_request_spec (target : string) (o : SyncOperation) (m : Manager) :
  let m' := (_send_sync_request target o m).2 in
  same_registry m m' /\
  (forall n, n <> target -> session_makers m' !! n = session_makers m !! n) /\
  (forall table, table <> table_name o ->
     get_table m' target table = get_table m target table) /\
  get_table m' target (table_name o) =
    (fun t => (_execute_sync_operation_on_node o t).2) <$>
      get_table m target (table_name o).
Proof.
  unfold _send_sync_request.
  destruct (get_table m target (table_name o)) as [t|] eqn:Ht; cbn zeta.
  - cbn [fmap option_fmap option_map].
    destruct (_execute_sync_operation_on_node o t) as [ok t'] eqn:Hex.
    cbn [snd]. split; [apply put_table_registry|].
    split; [|split].
    + intros n Hn. by apply SyncTheory.put_table_session_other.
    + intros table Hne. apply SyncTheory.get_put_other. by right.
    + apply SyncTheory.get_put_same.
      apply SyncTheory.get_table_Some in Ht as (db & Hdb & _). by eexists.
  - cbn. split; [apply same_registry_refl|]. by rewrite Ht.
Qed.

Lemma get_table_ext (m m' : Manager) (n table : string) :
  session_makers m' !! n = session_makers m !! n ->
  get_table m' n table = get_table m n table.
Proof. unfold get_table. by intros ->. Qed.

(** The requests of one operation, sent to its targets in turn. *)
Definition send_all (o : SyncOperation) (targets : list string) (m : Manager)
  : Manager :=
  foldl (fun m1 target_node => (_send_sync_request target_node o m1).2) m targets.

Lemma send_all_spec (o : SyncOperation) (targets : list string) (m : Manager) :
  NoDup targets ->
  same_registry m (send_all o targets m) /\
  (forall n, n ∉ targets ->
     session_makers (send_all o targets m) !! n = session_makers m !! n) /\
  (forall n table, table <> table_name o ->
     get_table (send_all o targets m) n table = get_table m n table) /\
  (forall n, n ∈ targets ->
     get_table (send_all o targets m) n (table_name o) =
       (fun t => (_execute_sync_operation_on_node o t).2) <$>
         get_table m n (table_name o)).
Proof.
  revert m. induction targets as [|x targets IH]; intros m Hnd.
  - cbn. split; [apply same_registry_refl|]. split; [done|]. split; [done|].
    intros n Hn. by apply elem_of_nil in Hn.
  - apply NoDup_cons in Hnd as [Hx Hnd]. unfold send_all. cbn [foldl].
    fold (send_all o targets (_send_sync_request x o m).2).
    destruct (send_sync_request_spec x o m) as (Hreg1 & Hoth1 & Htab1 & Hx1).
    cbn zeta in *. set (m1 := (_send_sync_request x o m).2) in *.
    destruct (IH m1 Hnd) as (Hreg & Hoth & Htab & Hin).
    split; [by eapply same_registry_trans|]. split; [|split].
    + intros n Hn. apply not_elem_of_cons in Hn as [Hne Hn].
      by rewrite Hoth, Hoth1.
    + intros n table Hne. rewrite Htab by done.
      destruct (decide (n = x)) as [->|Hnx]; [by apply Htab1|].
      apply get_table_ext. by apply Hoth1.
    + intros n Hn. apply elem_of_cons in Hn as [->|Hn].
      * rewrite (get_table_ext m1 _ x) by (by apply Hoth). exact Hx1.
      * rewrite Hin by done. f_equal. apply get_table_ext, Hoth1.
        intros ->. done.
Qed.

(** The targets [add_sync_operation] gives a new operation. *)
Definition replication_targets (m : Manager) : list string :=
  map name (filter (fun n => name n <> local_node_name m /\ role n = SECONDARY)
                   (nodes m)).

Lemma elem_of_replication_targets (m : Manager) (x : string) :
  x ∈ replication_targets m <->
  exists n, n ∈ nodes m /\ name n = x /\ x <> local_node_name m /\ role n = SECONDARY.
Proof.
  unfold replication_targets. rewrite list_elem_of_fmap. split.
  - intros (n & -> & Hn). apply list_elem_of_filter in Hn as [[? ?] ?]. by exists n.
  - intros (n & Hn & <- & ? & ?). exists n. split; [done|].
    by apply list_elem_of_filter.
Qed.

Lemma replication_targets_NoDup (m : Manager) :
  NoDup (map name (nodes m)) -> NoDup (replication_targets m).
Proof.
  intros Hnd. unfold replication_targets.
  eapply sublist_NoDup; [exact Hnd|]. apply fmap_sublist, sublist_filter.
Qed.

(** A log all of whose operations go to the replication targets. *)
Definition well_targeted (m : Manager) : Prop :=
  Forall (fun o => target_nodes o = replication_targets m) (sync_queue m).

Lemma enqueue_well_targeted (es : list HATheory.Enqueue) (m : Manager) :
  well_targeted m -> well_targeted (HATheory.enqueue_all es m) /\
  same_registry (with_sync_queue [] m) (with_sync_queue [] (HATheory.enqueue_all es m)) /\
  session_makers (HATheory.enqueue_all es m) = session_makers m.
Proof.
  revert m. induction es as [|e es IH]; intros m Hm.
  - cbn. split; [done|]. split; [apply same_registry_refl|done].
  - rewrite HATheory.enqueue_all_cons.
    assert (H1 : well_targeted (HATheory.enqueue m e)).
    { unfold well_targeted, HATheory.enqueue, add_sync_operation.
      cbn [sync_queue with_sync_queue nodes local_node_name].
      apply Forall_app. split; [exact Hm|]. by repeat constructor. }
    destruct (IH _ H1) as (H2 & H3 & H4). split; [done|]. split; [|by rewrite H4].
    eapply same_registry_trans; [|exact H3]. by repeat split.
Qed.

Lemma process_sync_operation_spec (o : SyncOperation) (m : Manager) :
  target_nodes o = replication_targets m ->
  _process_sync_operation o m =
    Some (set_status completed o, send_all o (replication_targets m) m).
Proof.
  intros Ht. unfold _process_sync_operation. rewrite Ht.
  rewrite bool_decide_eq_false_2; [done|].
  intros Hin. apply elem_of_replication_targets in Hin as (n & _ & _ & Hne & _).
  done.
Qed.

Lemma sync_loop_from (ops : list SyncOperation) (processed : list SyncOperation)
    (m0 m : Manager) :
  Forall (fun o => target_nodes o = replication_targets m0) ops ->
  same_registry (with_sync_queue [] m0) m ->
  foldl (fun acc o =>
           '(processed, m1) ← acc;
           '(o', m2) ← _process_sync_operation o m1;
           Some (processed ++ [o'], m2)) (Some (processed, m)) ops =
  Some (processed ++ map (set_status completed) ops,
        foldl (fun m1 o => send_all o (replication_targets m0) m1) m ops).
Proof.
  intros Hall. revert processed m.
  induction Hall as [|o ops Ho Hall IH]; intros processed m Hreg.
  - cbn. by rewrite app_nil_r.
  - cbn [foldl map]. cbn [mbind option_bind].
    assert (Hrt : replication_targets m = replication_targets m0).
    { unfold replication_targets. destruct Hreg as (-> & -> & _). done. }
    rewrite (process_sync_operation_spec o m) by (by rewrite Hrt).
    cbn [mbind option_bind]. rewrite Hrt, IH, <- app_assoc; [done|].
    eapply same_registry_trans; [exact Hreg|].
    destruct (replication_targets m0) as [|x l] eqn:Hl; [apply same_registry_refl|].
    clear. revert m. induction (x :: l) as [|y ys IH]; intros m;
      [apply same_registry_refl|].
    unfold send_all. cbn [foldl].
    eapply same_registry_trans; [|apply IH].
    by destruct (send_sync_request_spec y o m) as [? _].
Qed.

Lemma send_all_registry (o : SyncOperation) (targets : list string) (m : Manager) :
  same_registry m (send_all o targets m).
Proof.
  revert m. induction targets as [|y ys IH]; intros m; [apply same_registry_refl|].
  unfold send_all. cbn [foldl]. eapply same_registry_trans; [|apply IH].
  by destruct (send_sync_request_spec y o m) as [? _].
Qed.

Lemma drained_spec (targets : list string) (ops : list SyncOperation) (m : Manager) :
  NoDup targets ->
  let m' := foldl (fun m1 o => send_all o targets m1) m ops in
  same_registry m m' /\
  forall x, x ∉ targets -> session_makers m' !! x = session_makers m !! x.
Proof.
  intros Hnd. revert m. induction ops as [|o ops IH]; intros m.
  - cbn. split; [apply same_registry_refl|done].
  - cbn [foldl]. cbn zeta. destruct (IH (send_all o targets m)) as [Hreg Hoth].
    destruct (send_all_spec o targets m Hnd) as (Hreg1 & Hoth1 & _).
    split; [by eapply same_registry_trans|].
    intros x Hx. by rewrite Hoth, Hoth1.
Qed.

(** X7: Draining the replication log never writes to a node that is not a
    secondary peer.  Whatever the producers have enqueued on a manager whose
    log was empty, one pass of the sync loop processes all of it: the log is
    empty afterwards, every operation comes back marked completed (the
    result of sending it is not looked at), roles and elected primary are as
    before, and the database of the local node and of every node whose role
    is not secondary, a standby included, is exactly what it was. *)
Theorem drain_spares_non_secondaries (m0 : Manager) (es : list HATheory.Enqueue) :
  NoDup (map name (nodes m0)) ->
  sync_queue m0 = [] ->
  let m := HATheory.enqueue_all es m0 in
  exists m',
    _sync_loop m = Some (map (set_status completed) (sync_queue m), m') /\
    sync_queue m' = [] /\
    nodes m' = nodes m0 /\
    current_primary m' = current_primary m0 /\
    forall n, n ∈ nodes m0 ->
      name n = local_node_name m0 \/ role n <> SECONDARY ->
      session_makers m' !! name n = session_makers m0 !! name n.
Proof.
  intros Hnd Hq. cbn zeta.
  assert (Hwt0 : well_targeted m0) by (unfold well_targeted; rewrite Hq; constructor).
  destruct (enqueue_well_targeted es m0 Hwt0) as (Hwt & Hreg & Hsm).
  set (m := HATheory.enqueue_all es m0) in *.
  assert (Hrt : replication_targets m = replication_targets m0).
  { unfold replication_targets. destruct Hreg as (Hn & Hl & _). cbn in Hn, Hl.
    by rewrite Hn, Hl. }
  unfold _sync_loop.
  rewrite (sync_loop_from (sync_queue m) [] m (with_sync_queue [] m));
    [|exact Hwt|apply same_registry_refl].
  eexists. split; [reflexivity|].
  rewrite Hrt.
  destruct (drained_spec (replication_targets m0) (sync_queue m)
              (with_sync_queue [] m) (replication_targets_NoDup m0 Hnd))
    as [(Hn & Hl & Hp & Hsq & _) Hoth].
  destruct Hreg as (Hn0 & Hl0 & Hp0 & _). cbn in Hn0, Hl0, Hp0, Hn, Hl, Hp, Hsq.
  split; [done|]. split; [congruence|]. split; [congruence|].
  intros n Hin Hrole. rewrite Hoth; [by cbn; rewrite Hsm|].
  intros Ht. apply elem_of_replication_targets in Ht as (n' & Hin' & Hname & Hne & Hsec).
  assert (n' = n) as ->.
  { apply list_elem_of_lookup in Hin as [a Ha].
    apply list_elem_of_lookup in Hin' as [b Hb].
    assert (a = b) as ->; [|congruence].
    eapply NoDup_lookup; [exact Hnd| |].
    - by rewrite list_lookup_fmap, Ha.
    - by rewrite list_lookup_fmap, Hb, <- Hname. }
  destruct Hrole; congruence.
Qed.

(** A primary, a secondary and a standby, each holding images 1 to 3. *)
Definition standby_cluster : Manager :=
  {| nodes :=
       [ {| name := "primary"; role := PRIMARY; priority := 1;
            failure_threshold := 3; last_check := None; last_error := None;
            health_status := HEALTHY; failure_count := 0 |};
         {| name := "secondary1"; role := SECONDARY; priority := 2;
            failure_threshold := 3; last_check := None; last_error := None;
            health_status := HEALTHY; failure_count := 0 |};
         {| name := "standby1"; role := STANDBY; priority := 3;
            failure_threshold := 3; last_check := None; last_error := None;
            health_status := HEALTHY; failure_count := 0 |} ];
     local_node_name := "primary";
     current_primary := Some "primary";
     sync_queue := [];
     max_queue_size := 1000;
     full_sync_interval := 300;
     last_full_sync := 0;
     sync_tables := ["images"];
     session_makers :=
       {[ "primary" := {[ "images" := SyncTheory.images_table [1; 2; 3] 3 ]};
          "secondary1" := {[ "images" := SyncTheory.images_table [1; 2; 3] 3 ]};
          "standby1" := {[ "images" := SyncTheory.images_table [1; 2; 3] 3 ]} ]} |}.

Lemma standby_cluster_names : NoDup (map name (nodes standby_cluster)).
Proof. apply (bool_decide_eq_true_1 (NoDup _)). by vm_compute. Qed.

Lemma drain_spares_non_secondaries_witness :
  let m0 := standby_cluster in
  let m := HATheory.enqueue_all [HATheory.delete_of 2] m0 in
  exists m',
    _sync_loop m = Some (map (set_status completed) (sync_queue m), m') /\
    sync_queue m' = [] /\
    nodes m' = nodes m0 /\
    current_primary m' = current_primary m0 /\
    forall n, n ∈ nodes m0 ->
      name n = local_node_name m0 \/ role n <> SECONDARY ->
      session_makers m' !! name n = session_makers m0 !! name n.
Proof.
  apply (drain_spares_non_secondaries standby_cluster [HATheory.delete_of 2]).
  - exact standby_cluster_names.
  - reflexivity.
Defined.

End DrainTheory.

Module ReplicationTheory.
Import HA.



(** An image with id 9. *)
Definition image_9 : ModelInstance :=
  {| tablename := "images";
     columns := ["id"; "url"; "filename"];
     attrs := {[ "id" := PyInt 9;
                 "url" := PyStr "https://example.com/nine.jpg" ]} |}.


Example committed_image_is_missing_on_the_secondary :
  let '(exn, s', m1) := commit None 7 (add image_9 HATheory.fresh_session)
                          DrainTheory.standby_cluster in
  (snd <$> _sync_loop m1) ≫= (fun m2 => get_table m2 "secondary1" "images")
    = Some (SyncTheory.images_table [1; 2; 3] 3).
Proof. by vm_compute. Qed.

End ReplicationTheory.

Module FailoverOpsTheory.
Import Failover.

(** ** [execute_failover] *)

Lemma retype_fields (P : DatabaseConfig -> bool) (ty : string)
    (l : list DatabaseConfig) :
  map name (map (fun c => if P c then set_type ty c else c) l) = map name l /\
  map priority (map (fun c => if P c then set_type ty c else c) l) = map priority l /\
  map is_active (map (fun c => if P c then set_type ty c else c) l) = map is_active l.
Proof.
  rewrite !map_map. repeat split; apply map_ext; intros c; by destruct (P c).
Qed.

Lemma failover_to_database_ok (env : Env) (tgt : string) (bm : BackupManager) :
  has_database bm tgt = true -> connects env tgt = true ->
  exists dbs,
    failover_to_database env tgt bm =
      (true, {| databases := dbs; current_primary := Some tgt |}) /\
    map name dbs = map name (databases bm) /\
    map priority dbs = map priority (databases bm) /\
    map is_active dbs = map is_active (databases bm) /\
    (forall c, c ∈ dbs -> name c = tgt -> type c = "primary") /\
    (forall c, c ∈ dbs -> name c <> tgt ->
       Some (name c) = current_primary bm -> name c <> "" ->
       type c = "secondary").
Proof.
  intros Hh Hc. unfold failover_to_database. rewrite Hh, Hc. cbn [negb].
  cbv zeta. eexists. split; [reflexivity|].
  set (dbs1 := match current_primary bm with
               | Some old => if bool_decide (old = "") then databases bm
                             else map (fun c => if bool_decide (name c = old)
                                                then set_type "secondary" c else c)
                                      (databases bm)
               | None => databases bm
               end).
  assert (H1 : map name dbs1 = map name (databases bm) /\
               map priority dbs1 = map priority (databases bm) /\
               map is_active dbs1 = map is_active (databases bm)).
  { subst dbs1. destruct (current_primary bm) as [old|]; [|done].
    case_bool_decide; [done|].
    apply (retype_fields (fun c => bool_decide (name c = old))). }
  destruct (retype_fields (fun c => bool_decide (name c = tgt)) "primary" dbs1)
    as (H2 & H3 & H4). cbn beta in H2, H3, H4.
  destruct H1 as (H1a & H1b & H1c).
  split; [by rewrite H2|]. split; [by rewrite H3|]. split; [by rewrite H4|].
  split.
  - intros c Hin Hn. apply list_elem_of_fmap in Hin as (c0 & -> & _).
    case_bool_decide as Hc0; [done|]. by rewrite Hn in Hc0.
  - intros c Hin Hne Hold Hnonempty.
    apply list_elem_of_fmap in Hin as (c1 & -> & Hin1).
    case_bool_decide as Hc1; [done|].
    subst dbs1. destruct (current_primary bm) as [old|]; [|done].
    injection Hold as <-.
    rewrite bool_decide_eq_false_2 in Hin1 by done.
    apply list_elem_of_fmap in Hin1 as (c0 & Heq & _).
    destruct (decide (name c0 = name c1)) as [H0|H0].
    + rewrite bool_decide_eq_true_2 in Heq by done. by rewrite Heq.
    + rewrite bool_decide_eq_false_2 in Heq by done. by rewrite Heq in H0.
Qed.

(** [m'] is [m] after one more event was recorded, nothing else changed
    but what [execute_failover] may change. *)
Definition event (src tgt rsn : string) (st : FailoverStatus)
    (err : option string) : FailoverEvent :=
  {| source_db := src; target_db := tgt; reason := rsn; status := st;
     error_message := err |}.

(** The history after one more event: the new event is appended and the
    oldest events beyond [max_history_size] are dropped. *)
Definition appended (e : FailoverEvent) (m : Manager) : list FailoverEvent :=
  let h := failover_history m ++ [e] in
  if (max_history_size m <? length h)%nat
  then last_slice (max_history_size m) h else h.

Lemma appended_last (e : FailoverEvent) (m : Manager) :
  last (appended e m) = Some e.
Proof.
  unfold appended. cbn zeta.
  destruct (_ <? _)%nat; [apply FailoverTheory.last_slice_snoc|by rewrite last_snoc].
Qed.

(** What [execute_failover] leaves behind, by outcome. *)
Lemma execute_failover_spec (env : Env) (src tgt rsn : string) (m : Manager) :
  let '(ok, m') := execute_failover env src tgt rsn m in
  ok = _validate_target_database env (backup_manager m) tgt /\
  current_status m' = NORMAL /\
  auto_failover_enabled m' = auto_failover_enabled m /\
  detection_threshold m' = detection_threshold m /\
  max_history_size m' = max_history_size m /\
  if ok
  then backup_manager m' = (failover_to_database env tgt (backup_manager m)).2 /\
       failure_counts m' = ∅ /\
       failover_history m' = appended (event src tgt rsn COMPLETED None) m
  else backup_manager m' = backup_manager m /\
       failure_counts m' = failure_counts m /\
       failover_history m' =
         appended (event src tgt rsn FAILED
                     (Some ("目标数据库验证失败: " ++ tgt)%string)) m.
Proof.
  unfold execute_failover.
  destruct (_validate_target_database env (backup_manager m) tgt) eqn:Hv; cbn [negb].
  - unfold _validate_target_database in Hv.
    apply andb_true_iff in Hv as [Hv _]. apply andb_true_iff in Hv as [Hh Hc].
    destruct (failover_to_database_ok env tgt (backup_manager m) Hh Hc)
      as (dbs & Heq & _).
    rewrite Heq. by repeat split.
  - by repeat split.
Qed.

(** X9: Manual failover.  With a current primary [p] that is one of the
    configured databases: asking for [p] itself
    succeeds and changes nothing at all, no event is recorded; asking for
    another database succeeds exactly when that database is configured,
    answers the probe and has (or gets) the required tables, whether or not
    it is active, whether or not automatic failover is enabled and whatever
    the status was.  On success the target is the current primary, the
    failure counters are cleared and a completed event is the newest of the
    history; on failure the registry and the counters are as they were and a
    failed event is the newest.  Either way the status ends normal. *)
Theorem manual_failover_outcomes (env : Env) (target rsn p : string) (m : Manager) :
  current_primary (backup_manager m) = Some p ->
  p <> "" ->
  has_database (backup_manager m) p = true ->
  let '(ok, m') := manual_failover env target rsn m in
  (target = p -> ok = true /\ m' = m) /\
  (target <> p ->
     ok = (has_database (backup_manager m) target && connects env target &&
           tables_ready env target) /\
     current_status m' = NORMAL /\
     if ok
     then current_primary (backup_manager m') = Some target /\
          failure_counts m' = ∅ /\
          last (failover_history m') = Some (event p target rsn COMPLETED None)
     else backup_manager m' = backup_manager m /\
          failure_counts m' = failure_counts m /\
          exists e, last (failover_history m') = Some e /\
                    (source_db e, target_db e, status e) = (p, target, FAILED)).
Proof.
  intros Hp Hne _. unfold manual_failover. rewrite Hp.
  rewrite (bool_decide_eq_false_2 _ Hne).
  case_bool_decide as Heq.
  - split; [done|]. intros Hc. by rewrite Heq in Hc.
  - pose proof (execute_failover_spec env p target rsn m) as Hspec.
    destruct (execute_failover env p target rsn m) as [ok m'].
    destruct Hspec as (Hok & Hst & _ & _ & _ & Hcase).
    split; [intros Hc; by rewrite Hc in Heq|]. intros _.
    split; [exact Hok|]. split; [exact Hst|].
    destruct ok.
    + destruct Hcase as (Hbm & Hfc & Hh). split; [|split; [done|]].
      * rewrite Hbm. symmetry in Hok. unfold _validate_target_database in Hok.
        apply andb_true_iff in Hok as [Hok _]. apply andb_true_iff in Hok as [Hh' Hc'].
        destruct (failover_to_database_ok env target (backup_manager m) Hh' Hc')
          as (dbs & -> & _). done.
      * rewrite Hh. apply appended_last.
    + destruct Hcase as (Hbm & Hfc & Hh). split; [done|]. split; [done|].
      eexists. split; [rewrite Hh; apply appended_last|reflexivity].
Qed.

Lemma manual_failover_outcomes_witness :
  let env := FailoverTheory.db_b_down in
  let m := FailoverTheory.survivor_cluster in
  let '(ok, m') := manual_failover env "db_c" "maintenance" m in
  ("db_c" = "db_b" -> ok = true /\ m' = m) /\
  ("db_c" <> "db_b" ->
     ok = (has_database (backup_manager m) "db_c" && connects env "db_c" &&
           tables_ready env "db_c") /\
     current_status m' = NORMAL /\
     if ok
     then current_primary (backup_manager m') = Some "db_c" /\
          failure_counts m' = ∅ /\
          last (failover_history m') =
            Some (event "db_b" "db_c" "maintenance" COMPLETED None)
     else backup_manager m' = backup_manager m /\
          failure_counts m' = failure_counts m /\
          exists e, last (failover_history m') = Some e /\
                    (source_db e, target_db e, status e) = ("db_b", "db_c", FAILED)).
Proof.
  apply (manual_failover_outcomes FailoverTheory.db_b_down "db_c" "maintenance"
           "db_b" FailoverTheory.survivor_cluster);
    [reflexivity|discriminate|reflexivity].
Defined.

(** ** The event history *)

(** With a positive bound, recording appends the event and keeps the newest
    [max_history_size] entries. *)
Lemma appended_drop (e : FailoverEvent) (m : Manager) :
  (0 < max_history_size m)%nat ->
  appended e m =
    drop (length (failover_history m) + 1 - max_history_size m)
         (failover_history m ++ [e]).
Proof.
  intros Hpos. unfold appended. cbn zeta. rewrite length_app. cbn [length].
  destruct (Nat.ltb_spec (max_history_size m) (length (failover_history m) + 1)).
  - unfold last_slice. destruct (max_history_size m) eqn:Hm; [lia|].
    by rewrite length_app.
  - replace (length (failover_history m) + 1 - max_history_size m)%nat with 0%nat
      by lia. done.
Qed.

Lemma appended_length (e : FailoverEvent) (m : Manager) :
  (0 < max_history_size m)%nat ->
  (length (failover_history m) <= max_history_size m)%nat ->
  (length (appended e m) <= max_history_size m)%nat.
Proof.
  intros Hpos Hle. rewrite appended_drop by done.
  rewrite length_drop, length_app. cbn [length]. lia.
Qed.

(** [m'] has the history of [m], or that history after one more event. *)
Definition history_step (m m' : Manager) : Prop :=
  max_history_size m' = max_history_size m /\
  (failover_history m' = failover_history m \/
   exists e, failover_history m' = appended e m).

Lemma execute_failover_history (env : Env) (src tgt rsn : string) (m : Manager) :
  history_step m (execute_failover env src tgt rsn m).2.
Proof.
  pose proof (execute_failover_spec env src tgt rsn m) as H.
  destruct (execute_failover env src tgt rsn m) as [ok m'].
  destruct H as (_ & _ & _ & _ & Hmax & Hcase). cbn [snd]. split; [done|]. right.
  destruct ok; destruct Hcase as (_ & _ & Hh); eexists; exact Hh.
Qed.

Lemma trigger_history (env : Env) (failed rsn : string) (m : Manager) :
  history_step m (_trigger_automatic_failover env failed rsn m).
Proof.
  unfold _trigger_automatic_failover. case_bool_decide; [by split; [|left]|].
  destruct (_select_failover_target env failed (backup_manager m)) as [t|].
  - case_bool_decide; [split; [done|]; right; by eexists|].
    apply execute_failover_history.
  - split; [done|]. right. by eexists.
Qed.

Lemma monitor_step_history (env : Env) (m : Manager) :
  history_step m (monitor_step env m).2.
Proof.
  unfold monitor_step. destruct (_ && _); [|by split; [|left]].
  unfold _check_primary_database.
  destruct (current_primary (backup_manager m)) as [p|]; [|by split; [|left]].
  case_bool_decide; [by split; [|left]|].
  destruct (connects env p); [by split; [|left]|].
  destruct (_ <=? _); [|by split; [|left]].
  apply (trigger_history env p _ (with_failure_counts _ m)).
Qed.

Lemma manual_failover_history (env : Env) (target rsn : string) (m : Manager) :
  history_step m (manual_failover env target rsn m).2.
Proof.
  unfold manual_failover.
  destruct (current_primary (backup_manager m)) as [p|]; [|by split; [|left]].
  case_bool_decide; [by split; [|left]|].
  case_bool_decide; [by split; [|left]|].
  apply execute_failover_history.
Qed.

(** What an operator or the monitor thread does to the manager. *)
Inductive Action :=
| Cycle (env : Env)
| Manual (env : Env) (target rsn : string).

Definition act (m : Manager) (a : Action) : Manager :=
  match a with
  | Cycle env => (monitor_step env m).2
  | Manual env target rsn => (manual_failover env target rsn m).2
  end.

(** X10: The event history is bounded.  With a positive [max_history_size],
    recording an event appends it and drops the oldest entries beyond the
    bound; hence a history within the bound stays within it through any
    sequence of monitor cycles and manual failovers, and every recorded
    event is the newest entry right after it was recorded. *)
Theorem failover_history_is_bounded (m : Manager) (actions : list Action) :
  (0 < max_history_size m)%nat ->
  (length (failover_history m) <= max_history_size m)%nat ->
  (forall src tgt rsn st err,
     let m1 := _record_failover_event src tgt rsn st err m in
     failover_history m1 =
       drop (length (failover_history m) + 1 - max_history_size m)
            (failover_history m ++ [event src tgt rsn st err]) /\
     last (failover_history m1) = Some (event src tgt rsn st err)) /\
  max_history_size (foldl act m actions) = max_history_size m /\
  (length (failover_history (foldl act m actions)) <= max_history_size m)%nat.
Proof.
  intros Hpos Hle. split.
  - intros src tgt rsn st err. cbn zeta. split.
    + apply (appended_drop (event src tgt rsn st err) m Hpos).
    + by destruct (FailoverTheory.record_event_last src tgt rsn st err m) as [? _].
  - revert m Hpos Hle. induction actions as [|a actions IH]; intros m Hpos Hle;
      [done|].
    cbn [foldl].
    assert (Hstep : history_step m (act m a)).
    { destruct a; [apply monitor_step_history|apply manual_failover_history]. }
    destruct Hstep as [Hmax Hh].
    assert (Hle' : (length (failover_history (act m a)) <= max_history_size (act m a))%nat).
    { rewrite Hmax. destruct Hh as [->|[e ->]]; [done|by apply appended_length]. }
    destruct (IH (act m a) ltac:(by rewrite Hmax) Hle') as [H1 H2].
    rewrite H1, Hmax in *. by split.
Qed.

Lemma failover_history_is_bounded_witness :
  let m := FailoverTheory.survivor_cluster in
  let actions := [Cycle FailoverTheory.db_b_down;
                  Manual FailoverTheory.db_b_down "db_c" "maintenance"] in
  (forall src tgt rsn st err,
     let m1 := _record_failover_event src tgt rsn st err m in
     failover_history m1 =
       drop (length (failover_history m) + 1 - max_history_size m)
            (failover_history m ++ [event src tgt rsn st err]) /\
     last (failover_history m1) = Some (event src tgt rsn st err)) /\
  max_history_size (foldl act m actions) = max_history_size m /\
  (length (failover_history (foldl act m actions)) <= max_history_size m)%nat.
Proof.
  apply (failover_history_is_bounded FailoverTheory.survivor_cluster
           [Cycle FailoverTheory.db_b_down;
            Manual FailoverTheory.db_b_down "db_c" "maintenance"]).
  - cbn. lia.
  - cbn. lia.
Defined.

(** ** Reading the history *)

Lemma rev_last_slice {A} (n : nat) (l : list A) :
  (0 < n)%nat -> rev (last_slice n l) = take n (rev l).
Proof.
  intros Hn. unfold last_slice. destruct n as [|n]; [lia|].
  by rewrite firstn_rev.
Qed.

Lemma head_rev {A} (l : list A) : head (rev l) = last l.
Proof.
  induction l as [|x l _] using rev_ind; [done|].
  by rewrite rev_app_distr, last_snoc.
Qed.

(** X11: [get_failover_history] returns the events newest first: the [limit]
    newest for a positive limit, all of them for a limit of zero or below.
    Right after a failover was executed, its event is the first entry. *)
Theorem failover_history_newest_first (limit : Z) (m : Manager) :
  get_failover_history limit m =
    (if 0 <? limit then take (Z.to_nat limit) (rev (failover_history m))
     else rev (failover_history m)) /\
  (length (get_failover_history limit m) =
     if 0 <? limit then Nat.min (Z.to_nat limit) (length (failover_history m))
     else length (failover_history m)) /\
  (forall env src tgt rsn,
     0 < limit ->
     exists e,
       head (get_failover_history limit (execute_failover env src tgt rsn m).2)
         = Some e /\
       (source_db e, target_db e, reason e) = (src, tgt, rsn) /\
       status e = (if (execute_failover env src tgt rsn m).1
                   then COMPLETED else FAILED)).
Proof.
  assert (Heq : get_failover_history limit m =
    (if 0 <? limit then take (Z.to_nat limit) (rev (failover_history m))
     else rev (failover_history m))).
  { unfold get_failover_history. destruct (Z.ltb_spec 0 limit); [|done].
    apply rev_last_slice. lia. }
  split; [exact Heq|]. split.
  - rewrite Heq. destruct (0 <? limit); [|by rewrite length_rev].
    by rewrite length_take, length_rev.
  - intros env src tgt rsn Hpos.
    pose proof (execute_failover_spec env src tgt rsn m) as Hspec.
    destruct (execute_failover env src tgt rsn m) as [ok m']. cbn [fst snd].
    destruct Hspec as (_ & _ & _ & _ & _ & Hcase).
    assert (Hlast : exists e, last (failover_history m') = Some e /\
              (source_db e, target_db e, reason e) = (src, tgt, rsn) /\
              status e = (if ok then COMPLETED else FAILED)).
    { destruct ok; destruct Hcase as (_ & _ & ->); eexists;
        (split; [apply appended_last|]); by split. }
    destruct Hlast as (e & Hl & He). exists e. split; [|exact He].
    unfold get_failover_history. destruct (Z.ltb_spec 0 limit); [|lia].
    rewrite rev_last_slice by lia.
    destruct (Z.to_nat limit) as [|n] eqn:Hn; [lia|].
    rewrite <- Hl, <- head_rev. by destruct (rev (failover_history m')).
Qed.


(** ** When the threshold is reached *)

(** The monitor step at a failed probe that reaches the threshold. *)
Lemma monitor_step_at_threshold (env : Env) (p : string) (m : Manager) :
  FailoverTheory.watching p m ->
  connects env p = false ->
  detection_threshold m <= default 0 (failure_counts m !! p) + 1 ->
  monitor_step env m =
    (true,
     _trigger_automatic_failover env p "连续连接失败"
       (with_failure_counts
          (<[p := default 0 (failure_counts m !! p) + 1]> (failure_counts m)) m)).
Proof.
  intros (Ha & Hs & Hp & Hne) Hc Hth. unfold monitor_step, _check_primary_database.
  rewrite Ha, Hp, Hc, (bool_decide_eq_true_2 _ Hs), (bool_decide_eq_false_2 _ Hne).
  cbn [andb detection_threshold with_failure_counts].
  by destruct (Z.leb_spec (detection_threshold m)
                 (default 0 (failure_counts m !! p) + 1)); [|lia].
Qed.

Lemma monitor_step_without_target (env : Env) (p : string) (m : Manager) :
  FailoverTheory.watching p m ->
  connects env p = false ->
  detection_threshold m <= default 0 (failure_counts m !! p) + 1 ->
  available_dbs env p (backup_manager m) = [] ->
  let m' := (monitor_step env m).2 in
  (monitor_step env m).1 = true /\
  backup_manager m' = backup_manager m /\
  FailoverTheory.watching p m' /\
  detection_threshold m' = detection_threshold m /\
  failure_counts m' !! p = Some (default 0 (failure_counts m !! p) + 1) /\
  last (failover_history m') =
    Some (event p "" "连续连接失败" FAILED (Some "没有可用的目标数据库")).
Proof.
  intros Hw Hc Hth Hnone. cbn zeta.
  rewrite (monitor_step_at_threshold env p m Hw Hc Hth). cbn [fst snd].
  destruct Hw as (Ha & Hs & Hp & Hne).
  unfold _trigger_automatic_failover, _select_failover_target.
  cbn [current_status with_failure_counts backup_manager].
  rewrite bool_decide_eq_false_2 by (rewrite Hs; tauto).
  rewrite Hnone. cbn [sort_by_key foldr].
  set (m1 := with_failure_counts _ m).
  destruct (FailoverTheory.record_event_last p "" "连续连接失败" FAILED
              (Some "没有可用的目标数据库") m1) as (Hl & Hb & Hf & Hst).
  cbn zeta in *. split; [done|]. split; [exact Hb|]. split.
  - unfold FailoverTheory.watching. rewrite Hb, Hst. by repeat split.
  - split; [done|]. split; [|exact Hl].
    rewrite Hf. subst m1. cbn [failure_counts with_failure_counts].
    by rewrite lookup_insert_eq.
Qed.

(** X12: A failover that finds no target is tried again at every cycle.  Once the
    counter of the primary has reached the threshold, and for as long as the
    primary does not answer and no other database is active and reachable,
    every monitor cycle triggers failover again: the counter is not reset
    and keeps growing, the primary stays what it was, the monitor stays idle
    in status normal, and each cycle records one more failed event without
    target. *)
Theorem failover_without_target_is_retried (p : string) (m : Manager)
    (envs : list Env) :
  FailoverTheory.watching p m ->
  detection_threshold m <= default 0 (failure_counts m !! p) + 1 ->
  Forall (fun env => connects env p = false /\
                     available_dbs env p (backup_manager m) = []) envs ->
  let m' := (monitor_run envs m).2 in
  (monitor_run envs m).1 = replicate (length envs) true /\
  backup_manager m' = backup_manager m /\
  FailoverTheory.watching p m' /\
  default 0 (failure_counts m' !! p) =
    default 0 (failure_counts m !! p) + Z.of_nat (length envs) /\
  (envs <> [] ->
   last (failover_history m') =
     Some (event p "" "连续连接失败" FAILED (Some "没有可用的目标数据库"))).
Proof.
  intros Hw Hth Hall. revert m Hw Hth Hall.
  induction envs as [|env envs IH]; intros m Hw Hth Hall.
  - cbn. repeat split; try apply Hw; [lia|done].
  - apply Forall_cons in Hall as [[Hc Hnone] Hall].
    destruct (monitor_step_without_target env p m Hw Hc Hth Hnone)
      as (Hfired & Hbm & Hw1 & Hdt & Hcnt & Hlast).
    cbn zeta in *. rewrite FailoverTheory.monitor_run_cons. cbn [fst snd].
    set (m1 := (monitor_step env m).2) in *.
    destruct (IH m1 Hw1) as (Hflags & Hbm2 & Hw2 & Hcnt2 & Hlast2).
    { rewrite Hdt, Hcnt. cbn [default from_option id]. lia. }
    { eapply Forall_impl; [exact Hall|]. intros e. by rewrite Hbm. }
    rewrite Hfired, Hflags. cbn [length replicate].
    split; [done|]. split; [congruence|]. split; [done|]. split.
    + rewrite Hcnt2, Hcnt. cbn [default from_option id]. lia.
    + intros _. destruct envs as [|e2 envs2]; [exact Hlast|].
      by apply Hlast2.
Qed.

(** No database answers. *)
Definition all_down : Env :=
  {| connects := fun _ => false; tables_ready := fun _ => true |}.

Lemma failover_without_target_is_retried_witness :
  let m := FailoverTheory.survivor_cluster in
  let m0 := with_failure_counts {[ "db_b" := 2 ]} m in
  let envs := [all_down; all_down] in
  let m' := (monitor_run envs m0).2 in
  (monitor_run envs m0).1 = replicate (length envs) true /\
  backup_manager m' = backup_manager m0 /\
  FailoverTheory.watching "db_b" m' /\
  default 0 (failure_counts m' !! "db_b") =
    default 0 (failure_counts m0 !! "db_b") + Z.of_nat (length envs) /\
  (envs <> [] ->
   last (failover_history m') =
     Some (event "db_b" "" "连续连接失败" FAILED (Some "没有可用的目标数据库"))).
Proof.
  apply (failover_without_target_is_retried "db_b"
           (with_failure_counts {[ "db_b" := 2 ]} FailoverTheory.survivor_cluster)
           [all_down; all_down]).
  - by repeat split.
  - by vm_compute.
  - by repeat constructor.
Defined.

(** X13: A failover that completes hands the monitor over to the new primary.
    When the failed probe of a primary that is one of the configured
    databases reaches the threshold and the selected target passes
    validation, the step triggers failover and leaves the target as
    current primary with every failure counter cleared, the threshold and
    the switch as they were, the status normal and a completed event as the
    newest of the history: the monitor now watches the target, counting from
    zero. *)
Theorem completed_failover_restarts_the_count (env : Env) (p t : string)
    (m : Manager) :
  FailoverTheory.watching p m ->
  has_database (backup_manager m) p = true ->
  connects env p = false ->
  detection_threshold m <= default 0 (failure_counts m !! p) + 1 ->
  _select_failover_target env p (backup_manager m) = Some t ->
  t <> "" ->
  tables_ready env t = true ->
  let m' := (monitor_step env m).2 in
  (monitor_step env m).1 = true /\
  FailoverTheory.watching t m' /\
  failure_counts m' = ∅ /\
  detection_threshold m' = detection_threshold m /\
  last (failover_history m') =
    Some (event p t "连续连接失败" COMPLETED None).
Proof.
  intros Hw _ Hc Hth Hsel Htne Hready. cbn zeta.
  rewrite (monitor_step_at_threshold env p m Hw Hc Hth). cbn [fst snd].
  destruct Hw as (Ha & Hs & Hp & Hne).
  set (m1 := with_failure_counts _ m).
  unfold _trigger_automatic_failover.
  rewrite bool_decide_eq_false_2 by (subst m1; cbn; rewrite Hs; tauto).
  change (backup_manager m1) with (backup_manager m). rewrite Hsel.
  rewrite (bool_decide_eq_false_2 _ Htne).
  assert (Hsel' := Hsel). unfold _select_failover_target in Hsel'.
  destruct (sort_by_key priority (available_dbs env p (backup_manager m)))
    as [|c cs] eqn:Hsort; [done|]. injection Hsel' as <-.
  apply sort_by_key_head_min in Hsort as [Hin _].
  apply FailoverTheory.available_dbs_spec in Hin as (Hdb & _ & _ & Hconn).
  assert (Hvalid : _validate_target_database env (backup_manager m1) (name c) = true).
  { unfold _validate_target_database, has_database.
    rewrite Hconn, Hready, bool_decide_eq_true_2; [done|].
    apply list_elem_of_fmap. by exists c. }
  pose proof (execute_failover_spec env p (name c) "连续连接失败" m1) as Hspec.
  destruct (execute_failover env p (name c) "连续连接失败" m1) as [ok m'].
  destruct Hspec as (Hok & Hst & Hauto & Hdt & _ & Hcase).
  rewrite Hvalid in Hok. subst ok. destruct Hcase as (Hbm & Hfc & Hh).
  cbn [snd]. split; [done|]. split.
  - unfold FailoverTheory.watching. rewrite Hauto, Hst, Hbm.
    unfold _validate_target_database in Hvalid.
    apply andb_true_iff in Hvalid as [Hv _]. apply andb_true_iff in Hv as [Hh' _].
    destruct (failover_to_database_ok env (name c) (backup_manager m1) Hh' Hconn)
      as (dbs & -> & _). by repeat split.
  - split; [done|]. split; [done|]. rewrite Hh. apply appended_last.
Qed.

Lemma completed_failover_restarts_the_count_witness :
  let m := with_failure_counts {[ "db_b" := 2 ]} FailoverTheory.survivor_cluster in
  let env := FailoverTheory.db_b_down in
  let m' := (monitor_step env m).2 in
  (monitor_step env m).1 = true /\
  FailoverTheory.watching "db_a" m' /\
  failure_counts m' = ∅ /\
  detection_threshold m' = detection_threshold m /\
  last (failover_history m') =
    Some (event "db_b" "db_a" "连续连接失败" COMPLETED None).
Proof.
  apply (completed_failover_restarts_the_count FailoverTheory.db_b_down
           "db_b" "db_a"
           (with_failure_counts {[ "db_b" := 2 ]} FailoverTheory.survivor_cluster)).
  - by repeat split.
  - reflexivity.
  - reflexivity.
  - by vm_compute.
  - reflexivity.
  - discriminate.
  - reflexivity.
Defined.

(** ** The backup manager's own monitor *)

(** The database with the smallest priority value, the first such in the
    order of the registry. *)
Definition least_priority_first (c : DatabaseConfig) (l : list DatabaseConfig)
  : Prop :=
  exists l1 l2, l = l1 ++ c :: l2 /\
    (forall y, y ∈ l1 -> priority c < priority y) /\
    (forall y, y ∈ l2 -> priority c <= priority y).

(** X14: The primary chosen at start-up is the active database of least priority
    value that answers its probe (the first configured on a tie), whatever
    its configured type; without any such database the start-up fails.  A
    monitor pass that meets the same answers leaves that choice alone. *)
Theorem backup_startup_selection (env : Env) (bm : BackupManager) :
  let available :=
    filter (fun c => is_active c = true /\ connects env (name c) = true)
           (databases bm) in
  match available with
  | [] => _select_primary_database env bm = None
  | _ :: _ =>
      exists c, least_priority_first c available /\
        let bm' := {| databases := databases bm;
                      current_primary := Some (name c) |} in
        _select_primary_database env bm = Some bm' /\
        forall enabled, _monitor_databases env enabled bm' = bm'
  end.
Proof.
  cbv zeta. unfold _select_primary_database.
  destruct (filter _ (databases bm)) as [|c0 cs] eqn:Hav; [done|].
  destruct (sort_by_key priority (c0 :: cs)) as [|c rest] eqn:Hsort.
  { by apply sort_by_key_nil in Hsort. }
  exists c. split; [by apply (sort_by_key_head _ _ _ _ Hsort)|].
  split; [done|]. intros enabled.
  apply sort_by_key_head_min in Hsort as [Hin _]. rewrite <- Hav in Hin.
  apply list_elem_of_filter in Hin as [[_ Hc] _].
  unfold _monitor_databases. cbn [current_primary].
  case_bool_decide; [done|]. by rewrite Hc.
Qed.

(** X15: The monitor of the backup manager has no threshold.  While the primary
    answers, or with automatic failover switched off, a pass changes
    nothing.  At the first pass in which the primary does not answer, the
    active database of least priority value among the others that answer
    becomes the primary at once: its type is set to primary and the type of
    the old primary to secondary, the rest of the registry being as it was.
    When no other database is active and answers, nothing changes. *)
Theorem backup_monitor_failover (env : Env) (p : string) (bm : BackupManager) :
  current_primary bm = Some p -> p <> "" -> has_database bm p = true ->
  let standbys :=
    filter (fun c => Some (name c) <> current_primary bm /\
                     is_active c = true /\ connects env (name c) = true)
           (databases bm) in
  (connects env p = true -> forall enabled, _monitor_databases env enabled bm = bm) /\
  _monitor_databases env false bm = bm /\
  (connects env p = false ->
   let bm' := _monitor_databases env true bm in
   match standbys with
   | [] => bm' = bm
   | _ :: _ =>
       exists c, least_priority_first c standbys /\
         current_primary bm' = Some (name c) /\
         map name (databases bm') = map name (databases bm) /\
         map priority (databases bm') = map priority (databases bm) /\
         map is_active (databases bm') = map is_active (databases bm) /\
         (forall x, x ∈ databases bm' -> name x = name c -> type x = "primary") /\
         (forall x, x ∈ databases bm' -> name x = p -> type x = "secondary")
   end).
Proof.
  intros Hp Hne _. cbv zeta. unfold _monitor_databases. rewrite Hp.
  rewrite (bool_decide_eq_false_2 _ Hne).
  split; [by intros ->|]. split; [by destruct (connects env p)|].
  intros ->. unfold _attempt_failover. rewrite Hp.
  destruct (filter _ (databases bm)) as [|c0 cs] eqn:Hav; [done|].
  destruct (sort_by_key priority (c0 :: cs)) as [|c rest] eqn:Hsort.
  { by apply sort_by_key_nil in Hsort. }
  exists c. split; [by apply (sort_by_key_head _ _ _ _ Hsort)|].
  apply sort_by_key_head_min in Hsort as [Hin _]. rewrite <- Hav in Hin.
  apply list_elem_of_filter in Hin as [(Hcp & _ & Hc) Hin].
  assert (Hhas : has_database bm (name c) = true).
  { unfold has_database. apply bool_decide_eq_true_2, list_elem_of_fmap. by exists c. }
  destruct (failover_to_database_ok env (name c) bm Hhas Hc)
    as (dbs & -> & Hn & Hpr & Hac & Hprimary & Hsecondary).
  cbn [snd current_primary databases]. repeat split; try done.
  intros x Hx Hxp. apply Hsecondary; try done; congruence.
Qed.

Lemma backup_monitor_failover_witness :
  let env := FailoverTheory.db_b_down in
  let bm := backup_manager FailoverTheory.survivor_cluster in
  let standbys :=
    filter (fun c => Some (name c) <> current_primary bm /\
                     is_active c = true /\ connects env (name c) = true)
           (databases bm) in
  (connects env "db_b" = true ->
   forall enabled, _monitor_databases env enabled bm = bm) /\
  _monitor_databases env false bm = bm /\
  (connects env "db_b" = false ->
   let bm' := _monitor_databases env true bm in
   match standbys with
   | [] => bm' = bm
   | _ :: _ =>
       exists c, least_priority_first c standbys /\
         current_primary bm' = Some (name c) /\
         map name (databases bm') = map name (databases bm) /\
         map priority (databases bm') = map priority (databases bm) /\
         map is_active (databases bm') = map is_active (databases bm) /\
         (forall x, x ∈ databases bm' -> name x = name c -> type x = "primary") /\
         (forall x, x ∈ databases bm' -> name x = "db_b" -> type x = "secondary")
   end).
Proof.
  apply (backup_monitor_failover FailoverTheory.db_b_down "db_b"
           (backup_manager FailoverTheory.survivor_cluster)).
  - reflexivity.
  - discriminate.
  - reflexivity.
Defined.

(** ** The operator's switches *)

(** X16: While automatic failover is switched off the monitor is inert: whatever
    the probes would answer, no cycle triggers failover and nothing is
    counted.  Switching it on again restores a monitor that was on.  A
    detection threshold set to less than one is stored as one, so that with
    the counters reset the first failed probe of the primary triggers
    failover. *)
Theorem operator_switches (p : string) (m : Manager) (envs : list Env)
    (env : Env) (threshold : Z) :
  FailoverTheory.watching p m ->
  connects env p = false ->
  threshold <= 1 ->
  monitor_run envs (disable_auto_failover m) =
    (replicate (length envs) false, disable_auto_failover m) /\
  enable_auto_failover (disable_auto_failover m) = m /\
  detection_threshold (set_detection_threshold threshold m) = 1 /\
  (monitor_step env
     (set_detection_threshold threshold (reset_failure_counts m))).1 = true.
Proof.
  intros Hw Hc Ht. split; [|split; [|split]].
  - induction envs as [|e envs IH]; [done|].
    rewrite FailoverTheory.monitor_run_cons.
    assert (Hstep : monitor_step e (disable_auto_failover m) =
                    (false, disable_auto_failover m)) by done.
    rewrite Hstep. cbn [fst snd]. by rewrite IH.
  - destruct Hw as (Ha & _). destruct m. cbn in Ha. by subst.
  - unfold set_detection_threshold. cbn. lia.
  - set (m1 := set_detection_threshold threshold (reset_failure_counts m)).
    assert (Hw1 : FailoverTheory.watching p m1).
    { destruct Hw as (? & ? & ? & ?). by repeat split. }
    pose proof (FailoverTheory.monitor_step_failure env p m1 Hw1 Hc) as Hstep.
    cbv zeta in Hstep.
    assert (Hth : (detection_threshold m1 <=?
                     default 0 (failure_counts m1 !! p) + 1) = true).
    { apply Z.leb_le. subst m1. unfold set_detection_threshold, reset_failure_counts.
      cbn. rewrite lookup_empty. cbn. lia. }
    by rewrite Hth in Hstep.
Qed.

Lemma operator_switches_witness :
  let m := FailoverTheory.survivor_cluster in
  let env := FailoverTheory.db_b_down in
  let envs := [env; env; env; env] in
  monitor_run envs (disable_auto_failover m) =
    (replicate (length envs) false, disable_auto_failover m) /\
  enable_auto_failover (disable_auto_failover m) = m /\
  detection_threshold (set_detection_threshold 0 m) = 1 /\
  (monitor_step env (set_detection_threshold 0 (reset_failure_counts m))).1 = true.
Proof.
  apply (operator_switches "db_b" FailoverTheory.survivor_cluster
           [FailoverTheory.db_b_down; FailoverTheory.db_b_down;
            FailoverTheory.db_b_down; FailoverTheory.db_b_down]
           FailoverTheory.db_b_down 0).
  - by repeat split.
  - reflexivity.
  - lia.
Defined.

End FailoverOpsTheory.

Module ElectionTheory.
Import HA.

(** ** Start-up *)

Lemma initialize_engines_spec (init : string -> EngineInit) (ns : list DatabaseNode)
    (n : DatabaseNode) :
  n ∈ _initialize_engines init ns ->
  exists n0, n0 ∈ ns /\ name n = name n0 /\ role n = role n0 /\
             priority n = priority n0 /\
             health_status n =
               (match init (name n0) with Connected => HEALTHY | _ => OFFLINE end).
Proof.
  unfold _initialize_engines. intros Hn.
  apply list_elem_of_fmap in Hn as (n0 & -> & Hn0). exists n0.
  by destruct (init (name n0)).
Qed.

Lemma update_node_spec (x : string) (f : DatabaseNode -> DatabaseNode)
    (ns : list DatabaseNode) (n : DatabaseNode) :
  n ∈ update_node x f ns <->
  exists n0, n0 ∈ ns /\ n = (if bool_decide (name n0 = x) then f n0 else n0).
Proof.
  unfold update_node. rewrite list_elem_of_fmap. split; intros (n0 & ? & ?); by exists n0.
Qed.

(** The node with the smallest priority value, the first such in the order
    of the registry. *)
Definition first_of_least_priority (n : DatabaseNode) (l : list DatabaseNode) : Prop :=
  exists l1 l2, l = l1 ++ n :: l2 /\
    (forall y, y ∈ l1 -> priority n < priority y) /\
    (forall y, y ∈ l2 -> priority n <= priority y).

(** X17: The election at start-up.  After the engines are initialised a node is
    healthy if its probe answered and offline otherwise.  If a node
    configured as primary is healthy, the elected primary is the one of
    least priority value among such nodes (the first configured on a tie)
    and no role changes.  Otherwise the healthy secondary of least priority
    value is promoted: its role becomes primary and it is elected.  With no
    healthy primary and no healthy secondary nothing is elected, standby
    nodes being never considered.  Whenever a node is elected on a manager
    that had none, that node is healthy and its role is primary. *)
Theorem startup_election (init : string -> EngineInit) (m : Manager) :
  let ns := _initialize_engines init (nodes m) in
  let primaries :=
    filter (fun n => role n = PRIMARY /\ health_status n = HEALTHY) ns in
  let secondaries :=
    filter (fun n => role n = SECONDARY /\ health_status n = HEALTHY) ns in
  let m' := _select_primary_node (with_nodes ns m) in
  ((forall n, n ∈ ns ->
      health_status n = HEALTHY <-> init (name n) = Connected) /\
   (forall n, n ∈ ns ->
      init (name n) <> Connected -> health_status n = OFFLINE)) /\
  match primaries, secondaries with
  | _ :: _, _ =>
      exists p, first_of_least_priority p primaries /\
                current_primary m' = Some (name p) /\ nodes m' = ns
  | [], _ :: _ =>
      exists s, first_of_least_priority s secondaries /\
                current_primary m' = Some (name s) /\
                nodes m' = update_node (name s) (set_role PRIMARY) ns
  | [], [] => m' = with_nodes ns m
  end /\
  (current_primary m = None ->
   forall x, current_primary m' = Some x ->
     exists n, n ∈ nodes m' /\ name n = x /\ role n = PRIMARY /\
               health_status n = HEALTHY /\ init x = Connected).
Proof.
  cbn zeta. set (ns := _initialize_engines init (nodes m)).
  assert (Hhealth : forall n, n ∈ ns ->
            health_status n = HEALTHY <-> init (name n) = Connected).
  { intros n Hn. apply initialize_engines_spec in Hn
      as (n0 & _ & Hname & _ & _ & Hh). rewrite Hh, Hname.
    by destruct (init (name n0)). }
  assert (Hoffline : forall n, n ∈ ns ->
            init (name n) <> Connected -> health_status n = OFFLINE).
  { intros n Hn. apply initialize_engines_spec in Hn
      as (n0 & _ & Hname & _ & _ & Hh). rewrite Hh, Hname.
    by destruct (init (name n0)). }
  split; [by split|].
  unfold _select_primary_node, _promote_secondary_to_primary.
  cbn [nodes with_nodes].
  set (primaries := filter (fun n => role n = PRIMARY /\ health_status n = HEALTHY) ns).
  set (secondaries := filter (fun n => role n = SECONDARY /\ health_status n = HEALTHY) ns).
  destruct primaries as [|p0 ps] eqn:Hps.
  - cbn [sort_by_key foldr]. destruct secondaries as [|s0 ss] eqn:Hss.
    + cbn [sort_by_key foldr snd]. split; [done|]. cbn. by intros ->.
    + destruct (sort_by_key priority (s0 :: ss)) as [|s rest] eqn:Hsort.
      { by apply sort_by_key_nil in Hsort. }
      cbn [snd]. pose proof (sort_by_key_head _ _ _ _ Hsort) as Hfirst.
      apply sort_by_key_head_min in Hsort as [Hin _]. split.
      * exists s. by repeat split.
      * intros _ x. cbn [current_primary with_current_primary]. intros [= <-].
        rewrite <- Hss in Hin. subst secondaries.
        apply list_elem_of_filter in Hin as [[Hrole Hh] Hin].
        exists (set_role PRIMARY s). cbn [nodes with_current_primary with_nodes].
        split; [|by repeat split; [|apply Hhealth]].
        apply update_node_spec. exists s. split; [done|].
        by rewrite bool_decide_eq_true_2.
  - destruct (sort_by_key priority (p0 :: ps)) as [|p rest] eqn:Hsort.
    { by apply sort_by_key_nil in Hsort. }
    pose proof (sort_by_key_head _ _ _ _ Hsort) as Hfirst.
    apply sort_by_key_head_min in Hsort as [Hin _]. split.
    + exists p. by repeat split.
    + intros _ x. cbn [current_primary with_current_primary]. intros [= <-].
      rewrite <- Hps in Hin. subst primaries.
      apply list_elem_of_filter in Hin as [[Hrole Hh] Hin].
      exists p. cbn [nodes with_current_primary with_nodes].
      by repeat split; [| | |apply Hhealth].
Qed.

(** ** Manual failover *)

(** X18: Manual failover in the cluster manager.  A target that is not in the
    registry, or whose health is critical or offline, is refused and nothing
    changes.  Any other target is promoted whatever its role: it becomes the
    current primary, the previous primary (if it is another node) gets role
    secondary, the other nodes are untouched.  The target ends with role
    primary, except when it already was the current primary and is the local
    node: the notification for the old primary then writes secondary over
    it.  The call reports success exactly when there was a current primary
    that is in the registry; without one it reports failure although the
    target has been promoted. *)
Theorem cluster_manual_switch_outcomes (target : string) (m : Manager) :
  let '(ok, m') := manual_failover target m in
  match get_node (nodes m) target with
  | Some n =>
      if node_is_healthy n then
        current_primary m' = Some target /\
        map name (nodes m') = map name (nodes m) /\
        (forall x, x ∈ nodes m' -> name x = target ->
           role x = if bool_decide (current_primary m = Some target /\
                                    target = local_node_name m)
                    then SECONDARY else PRIMARY) /\
        (forall x, x ∈ nodes m' -> name x <> target ->
           Some (name x) = current_primary m -> role x = SECONDARY) /\
        (forall x, x ∈ nodes m -> name x <> target ->
           Some (name x) <> current_primary m -> x ∈ nodes m') /\
        (ok = true <->
         exists p, current_primary m = Some p /\ is_Some (get_node (nodes m) p))
      else ok = false /\ m' = m
  | None => ok = false /\ m' = m
  end.
Proof.
  unfold manual_failover.
  destruct (get_node (nodes m) target) as [n|] eqn:Hn; [|done].
  destruct (node_is_healthy n); cbn [negb]; [|done].
  exact (HATheory.execute_failover_outcome (current_primary m) target m n Hn).
Qed.

End ElectionTheory.

Module MonitorTheory.
Import HA.

(** A failed probe. *)
Lemma check_node_health_failure (now : Z) (n : DatabaseNode) :
  let n' := _check_node_health false now n in
  name n' = name n /\ role n' = role n /\ priority n' = priority n /\
  failure_threshold n' = failure_threshold n /\
  failure_count n' = failure_count n + 1 /\
  health_status n' =
    (if failure_threshold n <=? failure_count n + 1 then OFFLINE
     else if 1 <? failure_count n + 1 then WARNING
     else health_status n).
Proof.
  unfold _check_node_health. cbn [set_failure_count failure_threshold failure_count
    health_status].
  destruct (failure_threshold n <=? failure_count n + 1).
  - case_bool_decide as Hh; cbn; repeat split; try done.
  - destruct (1 <? failure_count n + 1); by cbn.
Qed.

Lemma check_node_health_fields (probe : bool) (now : Z) (n : DatabaseNode) :
  name (_check_node_health probe now n) = name n /\
  role (_check_node_health probe now n) = role n /\
  priority (_check_node_health probe now n) = priority n.
Proof.
  unfold _check_node_health. destruct probe; cbn.
  - by case_bool_decide.
  - destruct (_ <=? _); [by case_bool_decide|]. by destruct (_ <? _).
Qed.

(** The registry after the probes of one iteration. *)
Definition probed (probe : string -> bool) (clock : string -> Z)
    (ns : list DatabaseNode) : list DatabaseNode :=
  map (fun n => _check_node_health (probe (name n)) (clock (name n)) n) ns.

Lemma get_node_probed (probe : string -> bool) (clock : string -> Z)
    (ns : list DatabaseNode) (x : string) (n : DatabaseNode) :
  get_node ns x = Some n ->
  get_node (probed probe clock ns) x = Some (_check_node_health (probe x) (clock x) n).
Proof.
  intros Hn. unfold probed. rewrite HATheory.get_node_map.
  - rewrite Hn. cbn. unfold get_node in Hn. apply find_some in Hn as [_ Hx].
    apply bool_decide_eq_true in Hx. by rewrite Hx.
  - intros n0. apply check_node_health_fields.
Qed.

(** The primary has failed [k] probes in a row and is not yet given up. *)
Definition counting (p : string) (k : Z) (pn : DatabaseNode) (m : Manager) : Prop :=
  current_primary m = Some p /\
  exists n, get_node (nodes m) p = Some n /\
            failure_count n = k /\
            failure_threshold n = failure_threshold pn /\
            node_is_healthy n = true.

Lemma monitor_cycle_below (probe : string -> bool) (clock : string -> Z)
    (p : string) (k : Z) (pn : DatabaseNode) (m : Manager) :
  p <> "" -> counting p k pn m -> probe p = false ->
  k + 1 < failure_threshold pn ->
  (monitor_cycle probe clock m).1 = None /\
  counting p (k + 1) pn (monitor_cycle probe clock m).2 /\
  map role (nodes (monitor_cycle probe clock m).2) = map role (nodes m).
Proof.
  intros Hne (Hp & n & Hn & Hk & Hth & Hh) Hprobe Hlt.
  unfold monitor_cycle. cbn [current_primary nodes with_nodes]. rewrite Hp.
  rewrite (bool_decide_eq_false_2 _ Hne). fold (probed probe clock (nodes m)).
  rewrite (get_node_probed probe clock _ p n Hn), Hprobe.
  destruct (check_node_health_failure (clock p) n) as (Hname & Hrole & _ & Hth' & Hfc & Hst).
  cbn zeta in *. set (n' := _check_node_health false (clock p) n) in *.
  assert (Hhealthy : node_is_healthy n' = true).
  { unfold node_is_healthy in *. rewrite Hst.
    destruct (Z.leb_spec (failure_threshold n) (failure_count n + 1)); [lia|].
    destruct (1 <? failure_count n + 1); [by rewrite orb_true_r|done]. }
  rewrite Hhealthy. cbn [fst snd nodes with_nodes current_primary].
  split; [done|]. split.
  - split; [done|]. exists n'. cbn [nodes with_nodes].
    rewrite (get_node_probed probe clock _ p n Hn), Hprobe.
    repeat split; [lia|congruence|done].
  - unfold probed. rewrite map_map. apply map_ext. intros a.
    apply check_node_health_fields.
Qed.

Lemma monitor_cycles_cons (c : (string -> bool) * (string -> Z))
    (cs : list ((string -> bool) * (string -> Z))) (m : Manager) :
  monitor_cycles (c :: cs) m =
    ((monitor_cycle c.1 c.2 m).1 :: (monitor_cycles cs (monitor_cycle c.1 c.2 m).2).1,
     (monitor_cycles cs (monitor_cycle c.1 c.2 m).2).2).
Proof.
  destruct c as [probe clock]. cbn.
  destruct (monitor_cycle probe clock m) as [r m1]; cbn.
  by destruct (monitor_cycles cs m1).
Qed.

Lemma monitor_cycles_app (c1 c2 : list ((string -> bool) * (string -> Z)))
    (m : Manager) :
  monitor_cycles (c1 ++ c2) m =
    ((monitor_cycles c1 m).1 ++ (monitor_cycles c2 (monitor_cycles c1 m).2).1,
     (monitor_cycles c2 (monitor_cycles c1 m).2).2).
Proof.
  revert m. induction c1 as [|c c1 IH]; intros m.
  - cbn. by destruct (monitor_cycles c2 m).
  - rewrite <- app_comm_cons, !monitor_cycles_cons, IH. done.
Qed.

Lemma monitor_cycles_below (p : string) (k : Z) (pn : DatabaseNode)
    (cs : list ((string -> bool) * (string -> Z))) (m : Manager) :
  p <> "" -> counting p k pn m ->
  Forall (fun c => c.1 p = false) cs ->
  k + Z.of_nat (length cs) < failure_threshold pn ->
  (monitor_cycles cs m).1 = replicate (length cs) None /\
  counting p (k + Z.of_nat (length cs)) pn (monitor_cycles cs m).2 /\
  map role (nodes (monitor_cycles cs m).2) = map role (nodes m).
Proof.
  intros Hne Hc Hall. revert k m Hc.
  induction Hall as [|c cs Hprobe Hall IH]; intros k m Hc Hlt.
  - cbn. by rewrite Z.add_0_r.
  - rewrite monitor_cycles_cons. cbn [fst snd length replicate].
    cbn [length] in Hlt.
    destruct (monitor_cycle_below c.1 c.2 p k pn m Hne Hc Hprobe ltac:(lia))
      as (Hr & Hc1 & Hroles).
    destruct (IH (k + 1) _ Hc1 ltac:(lia)) as (Hrs & Hc2 & Hroles2).
    rewrite Hr, Hrs. split; [done|]. split; [|congruence].
    by replace (k + Z.of_nat (S (length cs))) with (k + 1 + Z.of_nat (length cs)) by lia.
Qed.

(** X19: The cluster monitor gives the primary up at its failure threshold.  The
    primary starts healthy (or in warning) with a clean counter and a
    threshold [N] of at least 1, and fails [N] probes in a row.  During the
    first [N - 1] iterations no failover is attempted, the primary and all
    roles stay what they were; at the [N]-th iteration the primary is marked
    offline and [_attempt_failover] is called.  It reports success exactly
    when some other node is healthy or in warning with role secondary or
    standby, and then the new primary is another node. *)
Theorem cluster_failover_at_threshold (p : string) (pn : DatabaseNode) (m : Manager)
    (before : list ((string -> bool) * (string -> Z)))
    (last_probe : string -> bool) (last_clock : string -> Z) :
  p <> "" ->
  current_primary m = Some p ->
  get_node (nodes m) p = Some pn ->
  failure_count pn = 0 ->
  node_is_healthy pn = true ->
  Forall (fun c => c.1 p = false) before ->
  last_probe p = false ->
  Z.of_nat (length before) + 1 = failure_threshold pn ->
  let m1 := (monitor_cycles before m).2 in
  let checked := with_nodes (probed last_probe last_clock (nodes m1)) m1 in
  let res := monitor_cycles (before ++ [(last_probe, last_clock)]) m in
  (monitor_cycles before m).1 = replicate (length before) None /\
  current_primary m1 = Some p /\
  map role (nodes m1) = map role (nodes m) /\
  (health_status <$> get_node (nodes checked) p) = Some OFFLINE /\
  exists b,
    res.1 = replicate (length before) None ++ [Some b] /\
    (b = true <-> failover_candidates p (nodes checked) <> []) /\
    (if b then exists t, current_primary res.2 = Some t /\ t <> p
     else res.2 = checked).
Proof.
  intros Hne Hp Hn Hfc Hh Hall Hlast Hlen. cbn zeta.
  assert (Hc0 : counting p 0 pn m) by (split; [done|]; by exists pn).
  destruct (monitor_cycles_below p 0 pn before m Hne Hc0 Hall ltac:(lia))
    as (Hflags & (Hp1 & n & Hn1 & Hk & Hth & Hh1) & Hroles).
  set (m1 := (monitor_cycles before m).2) in *.
  split; [done|]. split; [done|]. split; [done|]. cbn [nodes with_nodes].
  rewrite (get_node_probed last_probe last_clock _ p n Hn1), Hlast.
  destruct (check_node_health_failure (last_clock p) n) as (_ & _ & _ & _ & _ & Hst).
  cbn zeta in Hst. set (n' := _check_node_health false (last_clock p) n) in *.
  assert (Hoff : health_status n' = OFFLINE).
  { rewrite Hst. by destruct (Z.leb_spec (failure_threshold n) (failure_count n + 1));
      [|lia]. }
  split; [cbn [fmap option_fmap option_map]; by rewrite Hoff|].
  rewrite monitor_cycles_app. cbn [fst snd]. fold m1.
  rewrite monitor_cycles_cons. cbn [monitor_cycles fst snd].
  unfold monitor_cycle. cbn [current_primary nodes with_nodes]. rewrite Hp1.
  rewrite (bool_decide_eq_false_2 _ Hne). fold (probed last_probe last_clock (nodes m1)).
  rewrite (get_node_probed last_probe last_clock _ p n Hn1), Hlast. fold n'.
  assert (Hunhealthy : node_is_healthy n' = false).
  { unfold node_is_healthy. by rewrite Hoff. }
  rewrite Hunhealthy.
  set (checked := with_nodes (probed last_probe last_clock (nodes m1)) m1).
  unfold _attempt_failover. change (current_primary checked) with (current_primary m1).
  rewrite Hp1, (bool_decide_eq_false_2 _ Hne).
  change (nodes checked) with (probed last_probe last_clock (nodes m1)).
  destruct (failover_candidates p (probed last_probe last_clock (nodes m1)))
    as [|c0 cs] eqn:Hcand.
  - cbn [sort_by_key foldr fst snd]. exists false. rewrite Hflags.
    split; [done|]. split; [|done]. split; [done|]. intros Hc. by exfalso.
  - destruct (sort_by_key priority (c0 :: cs)) as [|t ts] eqn:Hsort.
    { by apply sort_by_key_nil in Hsort. }
    apply sort_by_key_head_min in Hsort as [Hin _]. rewrite <- Hcand in Hin.
    apply FailoverTheory.ha_candidates_spec in Hin as (Hin & Htp & _).
    destruct (HATheory.get_node_elem _ _ Hin) as [tn Htn].
    pose proof (HATheory.execute_failover_outcome (Some p) (name t) checked tn Htn)
      as Hout.
    destruct (_execute_failover (Some p) (name t) checked) as [ok m'].
    destruct Hout as (Hcur & _ & _ & _ & _ & Hok).
    assert (ok = true) as ->.
    { apply Hok. exists p. split; [done|]. subst checked. cbn [nodes with_nodes].
      rewrite (get_node_probed last_probe last_clock _ p n Hn1). by eexists. }
    cbn [fst snd]. exists true. rewrite Hflags. split; [done|]. split; [done|].
    by exists (name t).
Qed.

(** Only the node named primary does not answer. *)
Definition primary_silent : string -> bool :=
  fun x => negb (String.eqb x "primary").

Definition noon : string -> Z := fun _ => 43200.

Lemma cluster_failover_at_threshold_witness :
  let m := DrainTheory.standby_cluster in
  let before := [(primary_silent, noon); (primary_silent, noon)] in
  let m1 := (monitor_cycles before m).2 in
  let checked := with_nodes (probed primary_silent noon (nodes m1)) m1 in
  let res := monitor_cycles (before ++ [(primary_silent, noon)]) m in
  (monitor_cycles before m).1 = replicate (length before) None /\
  current_primary m1 = Some "primary" /\
  map role (nodes m1) = map role (nodes m) /\
  (health_status <$> get_node (nodes checked) "primary") = Some OFFLINE /\
  exists b,
    res.1 = replicate (length before) None ++ [Some b] /\
    (b = true <-> failover_candidates "primary" (nodes checked) <> []) /\
    (if b then exists t, current_primary res.2 = Some t /\ t <> "primary"
     else res.2 = checked).
Proof.
  apply (cluster_failover_at_threshold "primary"
           {| name := "primary"; role := PRIMARY; priority := 1;
              failure_threshold := 3; last_check := None; last_error := None;
              health_status := HEALTHY; failure_count := 0 |}
           DrainTheory.standby_cluster
           [(primary_silent, noon); (primary_silent, noon)]
           primary_silent noon).
  - discriminate.
  - reflexivity.
  - reflexivity.
  - reflexivity.
  - reflexivity.
  - by repeat constructor.
  - reflexivity.
  - reflexivity.
Defined.

End MonitorTheory.

Module RoutingTheory.
Import HA.

Lemma get_node_Some (ns : list DatabaseNode) (x : string) (n : DatabaseNode) :
  get_node ns x = Some n -> n ∈ ns /\ name n = x.
Proof.
  unfold get_node. intros H. apply find_some in H as [Hin Hn].
  split; [by apply list_elem_of_In|]. by apply bool_decide_eq_true_1 in Hn.
Qed.

(** X20: Routing of sessions.  Whatever node is chosen is in the registry and its
    health is healthy or warning.  A write is only ever routed to the current
    primary.  A read needs no primary: as long as one node is healthy or in
    warning some node is chosen, and every such node, whatever its role, is
    chosen by some draw. *)
Theorem read_write_routing (m : Manager) :
  (forall choice read_only x,
     _select_node_for_operation choice read_only m = Some (Some x) ->
     exists n, n ∈ nodes m /\ name n = x /\ node_is_healthy n = true) /\
  (forall choice x,
     _select_node_for_operation choice false m = Some (Some x) ->
     current_primary m = Some x) /\
  (forall n, n ∈ nodes m -> node_is_healthy n = true ->
     (forall choice, exists x,
        _select_node_for_operation choice true m = Some (Some x)) /\
     exists choice,
       _select_node_for_operation choice true m = Some (Some (name n))).
Proof.
  assert (Hprimary : forall x,
            match current_primary m with
            | Some p =>
                if bool_decide (p = "") then Some None
                else match get_node (nodes m) p with
                     | Some n => Some (if node_is_healthy n then Some p else None)
                     | None => None
                     end
            | None => Some None
            end = Some (Some x) ->
            current_primary m = Some x /\
            exists n, n ∈ nodes m /\ name n = x /\ node_is_healthy n = true).
  { intros x. destruct (current_primary m) as [p|]; [|done].
    case_bool_decide; [done|].
    destruct (get_node (nodes m) p) as [n|] eqn:Hn; [|done].
    destruct (node_is_healthy n) eqn:Hh; [|done]. intros [= <-].
    apply get_node_Some in Hn as [Hin Hname]. split; [done|]. by exists n. }
  split; [|split].
  - intros choice read_only x. unfold _select_node_for_operation. cbv zeta.
    destruct read_only; [|intros H; by apply Hprimary in H as [_ ?]].
    destruct (_ !! _) as [y|] eqn:Hy; [|intros H; by apply Hprimary in H as [_ ?]].
    intros [= ->]. apply list_elem_of_lookup_2, list_elem_of_fmap in Hy
      as (n & -> & Hn).
    apply list_elem_of_filter in Hn as [Hh Hn]. by exists n.
  - intros choice x. unfold _select_node_for_operation. cbv zeta.
    intros H. by apply Hprimary in H as [? _].
  - intros n Hn Hh.
    assert (Hin : name n ∈ map name (filter (fun n => node_is_healthy n = true)
                                       (nodes m))).
    { apply list_elem_of_fmap. exists n. split; [done|].
      by apply list_elem_of_filter. }
    split.
    + intros choice. unfold _select_node_for_operation. cbv zeta.
      set (l := map name _) in *.
      assert (Hlen : (0 < length l)%nat) by (destruct l; [by apply elem_of_nil in Hin|cbn; lia]).
      destruct (lookup_lt_is_Some_2 l (choice mod length l)) as [x Hx].
      { apply Nat.mod_upper_bound. lia. }
      rewrite Hx. by exists x.
    + apply list_elem_of_lookup in Hin as [i Hi]. exists i.
      unfold _select_node_for_operation. cbv zeta.
      rewrite Nat.mod_small by (by apply lookup_lt_Some in Hi). by rewrite Hi.
Qed.

End RoutingTheory.

Module AccountingTheory.
Import Downloader.

(** The retry loop, started without a success. *)
Lemma attempts_accounting (path : string) (rs : list Response) (res : Result)
    (d : Downloader) :
  success res = false -> local_path res = None -> info res = None ->
  file_size res = 0 ->
  let '(res', d') := attempts path rs res d in
  failed_count d' = failed_count d /\
  if success res'
  then exists c img,
         Ok200 c ∈ rs /\ fs d' !! path = Some c /\
         _validate_image (fs d') path = inr img /\
         info res' = Some img /\ local_path res' = Some path /\
         file_size res' = size c /\
         downloaded_count d' = downloaded_count d + 1 /\
         total_size d' = total_size d + size c
  else local_path res' = None /\ info res' = None /\ file_size res' = 0 /\
       downloaded_count d' = downloaded_count d /\
       total_size d' = total_size d.
Proof.
  revert res d. induction rs as [|r rs IH]; intros res d Hs Hl Hi Hz.
  - cbn. by rewrite Hs.
  - cbn [attempts]. unfold attempt, attempt_finish, with_fs. cbn [fs].
    destruct r as [c|c|st| |]; cbn [attempt_write].
    + destruct (_validate_image (<[path:=c]> (fs d)) path) as [e|img] eqn:Hv.
      * specialize (IH
          {| success := success res; local_path := local_path res;
             file_size := file_size res; info := info res;
             error := Some (Invalid e) |}
          {| fs := base.delete path (<[path:=c]> (fs d));
             downloaded_count := downloaded_count d;
             failed_count := failed_count d; total_size := total_size d |}
          Hs Hl Hi Hz).
        destruct (attempts path rs _ _) as [res' d'].
        destruct IH as [Hf IH]. split; [done|].
        destruct (success res'); [|done].
        destruct IH as (c' & img' & Hin & IH). exists c', img'.
        split; [by right|done].
      * cbn. split; [done|]. exists c, img.
        rewrite lookup_insert_eq. repeat split; try done. by left.
    + specialize (IH
        {| success := success res; local_path := local_path res;
           file_size := file_size res; info := info res; error := Some Failed |}
        {| fs := <[path:=c]> (fs d); downloaded_count := downloaded_count d;
           failed_count := failed_count d; total_size := total_size d |}
        Hs Hl Hi Hz).
      destruct (attempts path rs _ _) as [res' d'].
      destruct IH as [Hf IH]. split; [done|].
      destruct (success res'); [|done].
      destruct IH as (c' & img' & Hin & IH). exists c', img'.
      split; [by right|done].
    + specialize (IH
        {| success := success res; local_path := local_path res;
           file_size := file_size res; info := info res; error := Some (Http st) |}
        {| fs := fs d; downloaded_count := downloaded_count d;
           failed_count := failed_count d; total_size := total_size d |}
        Hs Hl Hi Hz).
      destruct (attempts path rs _ _) as [res' d'].
      destruct IH as [Hf IH]. split; [done|].
      destruct (success res'); [|done].
      destruct IH as (c' & img' & Hin & IH). exists c', img'.
      split; [by right|done].
    + specialize (IH
        {| success := success res; local_path := local_path res;
           file_size := file_size res; info := info res; error := Some TimedOut |}
        {| fs := fs d; downloaded_count := downloaded_count d;
           failed_count := failed_count d; total_size := total_size d |}
        Hs Hl Hi Hz).
      destruct (attempts path rs _ _) as [res' d'].
      destruct IH as [Hf IH]. split; [done|].
      destruct (success res'); [|done].
      destruct IH as (c' & img' & Hin & IH). exists c', img'.
      split; [by right|done].
    + specialize (IH
        {| success := success res; local_path := local_path res;
           file_size := file_size res; info := info res; error := Some Failed |}
        {| fs := fs d; downloaded_count := downloaded_count d;
           failed_count := failed_count d; total_size := total_size d |}
        Hs Hl Hi Hz).
      destruct (attempts path rs _ _) as [res' d'].
      destruct IH as [Hf IH]. split; [done|].
      destruct (success res'); [|done].
      destruct IH as (c' & img' & Hin & IH). exists c', img'.
      split; [by right|done].
Qed.

(** X21: What a download reports and counts, for every state of the files and
    every sequence of responses, failed writes included.  A reported success
    means that the file at the final path passes validation and that its
    dimensions are the ones reported.  A file that is already there and
    valid is reported without any request: nothing is written or counted and
    the reported size is zero.  Otherwise exactly one counter moves: on
    success the download counter goes up by one and the byte total by the
    size of the body now at the final path (the reported size); on failure
    the failure counter goes up by one and no path, size or dimensions are
    reported. *)
Theorem download_image_accounting (path : string) (max_retries : nat)
    (rs : list Response) (d : Downloader) :
  let '(res, d') := download_image path max_retries rs d in
  (success res = true ->
   local_path res = Some path /\
   exists img, info res = Some img /\ _validate_image (fs d') path = inr img) /\
  total_size d' = total_size d + file_size res /\
  match _validate_image (fs d) path with
  | inr _ => success res = true /\ d' = d /\ file_size res = 0
  | inl _ =>
      if success res
      then failed_count d' = failed_count d /\
           downloaded_count d' = downloaded_count d + 1 /\
           exists c, Ok200 c ∈ take (S max_retries) rs /\
                     fs d' !! path = Some c /\ file_size res = size c
      else failed_count d' = failed_count d + 1 /\
           downloaded_count d' = downloaded_count d /\
           local_path res = None /\ info res = None /\ file_size res = 0
  end.
Proof.
  unfold download_image.
  assert (Hpre : (if bool_decide (is_Some (fs d !! path))
                  then _validate_image (fs d) path else inl FileMissing) =
                 match _validate_image (fs d) path with
                 | inr img => inr img
                 | inl e => if bool_decide (is_Some (fs d !! path))
                            then inl e else inl FileMissing
                 end).
  { case_bool_decide as Hex; [by destruct (_validate_image _ _)|].
    unfold _validate_image. destruct (fs d !! path) eqn:Hl; [|done].
    exfalso. apply Hex. by eexists. }
  rewrite Hpre. clear Hpre.
  destruct (_validate_image (fs d) path) as [e|img] eqn:Hv.
  - assert (Hinl : exists e', (if bool_decide (is_Some (fs d !! path))
                               then inl e else inl FileMissing)
                              = (inl e' : ValidationError + ImageInfo))
      by (case_bool_decide; by eexists).
    destruct Hinl as [e' ->].
    pose proof (attempts_accounting path (take (S max_retries) rs) initial_result d
                  eq_refl eq_refl eq_refl eq_refl) as Ha.
    destruct (attempts path _ initial_result d) as [res d1].
    destruct Ha as [Hf Ha]. destruct (success res) eqn:Hs; cbn [fs total_size
      failed_count downloaded_count]; rewrite ?Hs.
    + destruct Ha as (c & img & Hin & Hc & Hval & Hi & Hl & Hz & Hdc & Hts).
      split; [intros _; split; [done|by exists img]|].
      split; [by rewrite Hz|]. split; [done|]. split; [done|]. by exists c.
    + destruct Ha as (Hl & Hi & Hz & Hdc & Hts).
      split; [done|]. split; [rewrite Hz; lia|]. repeat split; try done. by rewrite Hf.
  - cbn. split; [intros _; split; [done|by exists img]|].
    split; [lia|done].
Qed.

End AccountingTheory.

Module ValidityTheory.
Import URLParser.

(** The interpreter lets the normalised authority through when the
    normalised URL is parsed: it holds no bracket, or the check of bracketed
    hosts accepts it. *)
Definition let_through (bracketed_netloc_ok : str -> bool) (p : ParseResult) : bool :=
  negb (URLTheory.bracketed (netloc p)) || bracketed_netloc_ok (netloc p).

(** X22: A normalised URL, parsed again, gives back the components it was
    built from.  For ASCII text and whatever the interpreter's check of
    bracketed hosts answers: what [normalize_url] returns for a non-empty
    argument begins with the scheme http or https followed by a colon and
    two slashes.  When the interpreter lets the normalised authority through
    again, the result is judged valid exactly when its authority is not
    empty and it is shorter than 2048 characters, and its domain is the
    authority of the normalised components, in lower case and without the
    default port; when it does not, the result is judged invalid and its
    domain is empty.  (Inputs whose normal form has an empty authority in
    front of a path with two leading slashes are left out: unparsing turns
    that path into the authority.) *)
Theorem normalized_url_validity (bracketed_netloc_ok : str -> bool) (u : str)
    (p : ParseResult) :
  isascii u = true ->
  normalized_components bracketed_netloc_ok u = Some p ->
  URLTheory.empty_authority_before_slashes p = false ->
  let v := urlunparse p in
  (u <> [] -> normalize_url bracketed_netloc_ok u = Some v) /\
  (exists rest, v = lit "http://" ++ rest \/ v = lit "https://" ++ rest) /\
  is_valid_url bracketed_netloc_ok v =
    let_through bracketed_netloc_ok p && nonempty (netloc p) &&
    (length v <? 2048)%nat /\
  extract_domain bracketed_netloc_ok v =
    (if let_through bracketed_netloc_ok p then netloc p else []).
Proof.
  intros _ Hp He. cbv zeta.
  destruct (URLTheory.normalized_components_wf _ u p Hp) as (Hwf & Hlow & Hbal).
  pose proof (URLTheory.urlunparse_web p Hwf He) as Hv.
  pose proof (URLTheory.urlparse_unparsed_cases bracketed_netloc_ok p Hwf) as Hparse.
  rewrite <- Hv, Hbal in Hparse. cbn [orb] in Hparse.
  assert (Hre : URLTheory.bracketed (netloc p) &&
                negb (bracketed_netloc_ok (netloc p)) =
                negb (let_through bracketed_netloc_ok p)).
  { unfold let_through. by destruct (URLTheory.bracketed _), (bracketed_netloc_ok _). }
  rewrite Hre in Hparse.
  split; [|split; [|split]].
  - intros Hu. unfold normalize_url. rewrite Hp. by destruct u.
  - rewrite Hv. exists (URLTheory.after_scheme p).
    destruct (URLTheory.wf_scheme p Hwf) as [-> | ->]; [by left|by right].
  - unfold is_valid_url. rewrite Hparse.
    assert (Hne : nonempty (urlunparse p) = true).
    { rewrite Hv. by destruct (URLTheory.wf_scheme p Hwf) as [-> | ->]. }
    rewrite Hne. cbn [negb].
    destruct (let_through bracketed_netloc_ok p); cbn [negb andb]; [|done].
    destruct (URLTheory.wf_scheme p Hwf) as [-> | ->]; reflexivity.
  - unfold extract_domain. rewrite Hparse.
    destruct (let_through bracketed_netloc_ok p); cbn [negb]; [|done].
    exact Hlow.
Qed.

(** The theorem at http://[::1]:80/x#top, the interpreter accepting the
    loopback address. *)
Lemma normalized_url_validity_witness :
  let ok := URLTheory.loopback_only in
  let u := lit "http://[::1]:80/x#top" in
  let v := lit "http://[::1]/x" in
  isascii u = true /\
  normalize_url ok u = Some v /\
  is_valid_url ok v = true /\
  extract_domain ok v = lit "[::1]".
Proof.
  cbv zeta. split; [reflexivity|].
  destruct (normalized_url_validity URLTheory.loopback_only
              (lit "http://[::1]:80/x#top")
              {| scheme := lit "http"; netloc := lit "[::1]";
                 path := lit "/x"; params := []; query := []; fragment := [] |}
              eq_refl eq_refl eq_refl) as (H1 & _ & H3 & H4).
  split; [apply H1; discriminate|]. split; [exact H3|exact H4].
Defined.

(** An authority the interpreter refuses: the URL is invalid and has no
    domain; [normalize_url] raises. *)
Example refused_authority :
  is_valid_url URLTheory.loopback_only (lit "http://[::g]/x") = false /\
  extract_domain URLTheory.loopback_only (lit "http://[::g]/x") = [] /\
  normalize_url URLTheory.loopback_only (lit "http://[::g]/x") = None /\
  is_valid_url URLTheory.loopback_only (lit "http://[::1/x") = false.
Proof. by vm_compute. Qed.

End ValidityTheory.
